(** * uv-dash: the process lifecycle manager (src/main/apps/runner.ts)

    A shallow embedding of the runner of uv-dash and of the start-up
    recovery loop of the main process, with the properties of the
    lifecycle manager stated over it.

    Conventions.  A JavaScript string is modelled by a Rocq [string]
    (its sequence of code units; every pattern of the runner is ASCII, and
    a code unit outside ASCII never matches an ASCII letter under the [i]
    flag).  A JavaScript number holding a pid, a port, a byte offset or a
    time stamp is a [Z].  A [Map<string, V>] is a [gmap string V].  The
    callbacks handed to the runner are opaque tokens; calling one appends
    an [Effect] to the trace of the state. *)

From Stdlib Require Import String Ascii List ZArith Lia Bool.
From stdpp Require Import base option list gmap strings.

Local Open Scope Z_scope.
Local Open Scope string_scope.

(** ** Regular expressions, as the runner uses them

    The engine is the backtracking matcher of ECMAScript restricted to
    the constructs that occur in runner.ts: literals under the [i] flag,
    [.], [\s], [\d], character classes, concatenation, alternation,
    greedy and lazy repetition, and one capturing group. *)
Module Regex.

Inductive atom : Type :=
| Lit (c : ascii)          (* a character of the pattern, compared under /i *)
| Any                      (* .  : anything but a line terminator *)
| Space                    (* \s *)
| Digit                    (* \d *)
| Not (a : atom)           (* [^a] *)
| Either (a b : atom).     (* [ab] *)

Inductive regex : Type :=
| Empty
| Atom (a : atom)
| Cat (r1 r2 : regex)
| Or (r1 r2 : regex)
| Star (greedy : bool) (r : regex)
| Capture (r : regex).

Definition code (c : ascii) : N := N_of_ascii c.

(* Canonicalize of the i flag, on ASCII: a-z go to A-Z. *)
Definition canon (c : ascii) : N :=
  let n := code c in
  if ((97 <=? n) && (n <=? 122))%N then (n - 32)%N else n.

Definition isSpace (c : ascii) : bool :=
  let n := code c in
  (((9 <=? n) && (n <=? 13)) || (n =? 32) || (n =? 160))%N.

Definition isDigit (c : ascii) : bool :=
  let n := code c in ((48 <=? n) && (n <=? 57))%N.

Definition isLineTerminator (c : ascii) : bool :=
  let n := code c in ((n =? 10) || (n =? 13))%N.

Fixpoint atom_match (a : atom) (c : ascii) : bool :=
  match a with
  | Lit x => (canon c =? canon x)%N
  | Any => negb (isLineTerminator c)
  | Space => isSpace c
  | Digit => isDigit c
  | Not b => negb (atom_match b c)
  | Either b1 b2 => atom_match b1 c || atom_match b2 c
  end.

(* The state of a match: the rest of the input and group 1. *)
Definition captures : Type := option (list ascii).
Definition cont : Type := list ascii -> captures -> option captures.

(* r* and r*?: the rounds of a repetition.  A round that consumes
   nothing is rejected, as ECMAScript does, so every round shortens the
   input and [S (length s)] rounds of fuel are never used up. *)
Fixpoint iterate (body : list ascii -> captures -> cont -> option captures)
  (greedy : bool) (k : cont) (fuel : nat) (s : list ascii) (cap : captures)
  {struct fuel} : option captures :=
  match fuel with
  | O => k s cap
  | S fuel' =>
      let again : cont := fun s' cap' =>
        if (length s' <? length s)%nat
        then iterate body greedy k fuel' s' cap' else None in
      if greedy then
        match body s cap again with
        | Some res => Some res
        | None => k s cap
        end
      else
        match k s cap with
        | Some res => Some res
        | None => body s cap again
        end
  end.

Fixpoint run (r : regex) (s : list ascii) (cap : captures) (k : cont)
  : option captures :=
  match r with
  | Empty => k s cap
  | Atom a =>
      match s with
      | c :: s' => if atom_match a c then k s' cap else None
      | [] => None
      end
  | Cat r1 r2 => run r1 s cap (fun s' cap' => run r2 s' cap' k)
  | Or r1 r2 =>
      match run r1 s cap k with
      | Some res => Some res
      | None => run r2 s cap k
      end
  | Star greedy r1 => iterate (run r1) greedy k (S (length s)) s cap
  | Capture r1 =>
      run r1 s cap (fun s' _ =>
        k s' (Some (take (length s - length s')%nat s)))
  end.

(* RegExp.prototype.exec without the g flag: the leftmost match. *)
Fixpoint search (r : regex) (s : list ascii) : option captures :=
  match run r s None (fun _ cap => Some cap) with
  | Some cap => Some cap
  | None =>
      match s with
      | [] => None
      | _ :: s' => search r s'
      end
  end.

Definition exec (r : regex) (message : string) : option captures :=
  search r (list_ascii_of_string message).

Definition test (r : regex) (message : string) : bool :=
  match exec r message with Some _ => true | None => false end.

(* Pattern syntax. *)
Fixpoint literal_of (cs : list ascii) : regex :=
  match cs with
  | [] => Empty
  | [c] => Atom (Lit c)
  | c :: cs' => Cat (Atom (Lit c)) (literal_of cs')
  end.

Definition literal (s : string) : regex := literal_of (list_ascii_of_string s).
Definition some_of (a : atom) : regex := Cat (Atom a) (Star true (Atom a)).
Definition many_of (a : atom) : regex := Star true (Atom a).
Definition lazy_any : regex := Star false (Atom Any).      (* .*? *)
Definition optional (r : regex) : regex := Or r Empty.
Definition catenate (rs : list regex) : regex := foldr Cat Empty rs.
Fixpoint one_of (r : regex) (rs : list regex) : regex :=     (* r|r1|...|rn *)
  match rs with
  | [] => r
  | r' :: rs' => Or r (one_of r' rs')
  end.
Definition port_group : regex := Capture (some_of Digit).     (* (\d+) *)

End Regex.

(** ** The port sniffer: [detectPortFromLog] *)
Module PortSniffer.
Import Regex.

(* shared/constants.ts *)
Definition PORT_MIN : Z := 1.
Definition PORT_MAX : Z := 65535.

Definition errorPatterns : list regex :=
  [ literal "error"; literal "failed"; literal "refused"; literal "timeout";
    literal "cannot"; literal "unable"; literal "already in use"; literal "bind";
    literal "connecting to"; literal "connect to"; literal "connection to" ].

Definition frameworkPatterns : list regex :=
  [ (* Flask      /\*\s+Running on.*?:(\d+)/i *)
    catenate [literal "*"; some_of Space; literal "Running on"; lazy_any; literal ":"; port_group];
    (* Streamlit  /Local URL:\s*https?:\/\/[^:]+:(\d+)/i *)
    catenate [literal "Local URL:"; many_of Space; literal "http"; optional (literal "s"); literal "://";
         some_of (Not (Lit ":")); literal ":"; port_group];
    (* Uvicorn    /Uvicorn running on.*?:(\d+)/i *)
    catenate [literal "Uvicorn running on"; lazy_any; literal ":"; port_group];
    (* Django     /Starting development server at.*?:(\d+)/i *)
    catenate [literal "Starting development server at"; lazy_any; literal ":"; port_group] ].

Definition keyword : regex :=
  one_of (literal "listening")
      [literal "running"; literal "started"; literal "starting"; literal "serving"; literal "available"].

Definition positivePatterns : list regex :=
  [ catenate [keyword; lazy_any; one_of (literal "on") [literal "at"]; lazy_any; literal ":"; port_group];
    catenate [keyword; lazy_any; one_of (literal "port") [literal "PORT"];
         some_of (Either Space (Lit ":")); port_group];
    catenate [literal "server"; lazy_any;
         one_of (literal "listening") [literal "running"; literal "started"; literal "starting"];
         lazy_any; literal ":"; port_group] ].

Definition urlPatterns : list regex :=
  [ catenate [literal "http"; optional (literal "s"); literal "://";
         one_of (literal "localhost") [literal "127.0.0.1"; literal "0.0.0.0"; literal "*"];
         literal ":"; port_group] ].

(* parseInt(s, 10): leading white space, an optional sign, then the longest
   run of decimal digits; [None] is NaN.  The value is kept exact: the
   range test below gives the same answer on the double that JavaScript
   computes, and every value that passes it is below 2^53. *)
Fixpoint skipSpace (s : list ascii) : list ascii :=
  match s with
  | c :: s' => if isSpace c then skipSpace s' else s
  | [] => []
  end.

Fixpoint digitsValue (acc : Z) (s : list ascii) : Z :=
  match s with
  | c :: s' =>
      if isDigit c then digitsValue (acc * 10 + (Z.of_N (code c) - 48)) s' else acc
  | [] => acc
  end.

Definition startsWithDigit (s : list ascii) : bool :=
  match s with c :: _ => isDigit c | [] => false end.

Definition parseInt (s : list ascii) : option Z :=
  match skipSpace s with
  | "-"%char :: s' =>
      if startsWithDigit s' then Some (- digitsValue 0 s') else None
  | "+"%char :: s' =>
      if startsWithDigit s' then Some (digitsValue 0 s') else None
  | s' => if startsWithDigit s' then Some (digitsValue 0 s') else None
  end.

(* The body of each of the three loops:
     const match = message.match(pattern);
     if (match && match[1]) { const port = parseInt(match[1], 10);
       if (port >= PROCESS.PORT_MIN && port <= PROCESS.PORT_MAX) return port; } *)
Definition candidate (pattern : regex) (message : string) : option Z :=
  match exec pattern message with
  | Some (Some (c :: ds)) =>
      match parseInt (c :: ds) with
      | Some port =>
          if ((PORT_MIN <=? port) && (port <=? PORT_MAX))%Z then Some port else None
      | None => None
      end
  | _ => None
  end.

Fixpoint firstPort (patterns : list regex) (message : string) : option Z :=
  match patterns with
  | [] => None
  | pattern :: rest =>
      match candidate pattern message with
      | Some port => Some port
      | None => firstPort rest message
      end
  end.

Definition detectPortFromLog (message : string) : option Z :=
  if existsb (fun pattern => test pattern message) errorPatterns then None
  else
    match firstPort frameworkPatterns message with
    | Some port => Some port
    | None =>
        match firstPort positivePatterns message with
        | Some port => Some port
        | None => firstPort urlPatterns message
        end
    end.

End PortSniffer.


(** ** String helpers of the log tailer *)
Module Text.
Import Regex.

Definition isNewline (c : ascii) : bool := (code c =? 10)%N.

(* String.prototype.split on one separator character: never empty. *)
Fixpoint splitOn (sep : ascii -> bool) (s : list ascii) : list (list ascii) :=
  match s with
  | [] => [[]]
  | c :: s' =>
      if sep c then [] :: splitOn sep s'
      else
        match splitOn sep s' with
        | l :: ls => (c :: l) :: ls
        | [] => [[c]]
        end
  end.

Definition split (s : string) : list string :=          (* s.split('\n') *)
  map string_of_list_ascii (splitOn isNewline (list_ascii_of_string s)).

Fixpoint dropSpace (s : list ascii) : list ascii :=
  match s with
  | c :: s' => if isSpace c then dropSpace s' else s
  | [] => []
  end.

Definition trim (s : string) : string :=
  string_of_list_ascii
    (rev (dropSpace (rev (dropSpace (list_ascii_of_string s))))).

Definition truthy (s : string) : bool :=                (* if (s) *)
  match s with EmptyString => false | _ => true end.

(* lines.pop() || '' and what is left of lines *)
Definition popLast (lines : list string) : list string * string :=
  (removelast lines, List.last lines "").

Definition join (sep : string) (parts : list string) : string :=
  String.concat sep parts.

(* The chunks in which a read stream hands over its data: pieces of
   [highWaterMark] characters, the last one shorter. *)
Fixpoint chunksOf (fuel : nat) (highWaterMark : nat) (s : list ascii)
  : list string :=
  match fuel, s with
  | _, [] => []
  | O, _ => [string_of_list_ascii s]
  | S fuel', _ =>
      string_of_list_ascii (take highWaterMark s)
        :: chunksOf fuel' highWaterMark (drop highWaterMark s)
  end.

Definition substringFrom (start : Z) (s : string) : string :=
  string_of_list_ascii (drop (Z.to_nat start) (list_ascii_of_string s)).

Definition size (s : string) : Z := Z.of_nat (String.length s).

End Text.

(** ** The runner: registry, timers, process handles *)
Module Runner.
Import Regex PortSniffer Text.

(* A callback handed over by the caller, named by the caller. *)
Definition Callback : Type := string.
Definition TimerId : Type := nat.
Definition HandleId : Type := nat.

Inductive Signal : Type := SIGTERM | SIGKILL.

(* The messages of the runner, by their i18n key. *)
Inductive Message : Type :=
| ErrorProcess (error : string)            (* apps:error.process *)
| ProcessExited (exitCode : option Z)      (* apps:process.exited *)
| ProcessStarted (pid : option Z)          (* apps:process.started *)
| ProcessZombie (pid : Z)                  (* apps:process.zombie *)
| ProcessTerminated (pid : Z)              (* apps:process.terminated *)
| CommandRun (command : string)            (* apps:command.run *)
| ProcessStopping                          (* apps:process.stopping *)
| WaitingForFlush                          (* 'Waiting for app to flush logs...' *)
| SigtermWarning (message : string)        (* apps:process.sigterm_warning *)
| SigtermSent (pid : Z)                    (* apps:process.sigterm_sent *)
| StopRequested                            (* apps:process.stop_requested *)
| ForceKill                                (* apps:process.force_kill *)
| SigkillError (message : string)          (* apps:error.sigkill_error *)
| ForceKilled                              (* apps:process.force_killed *)
| RecoveryLoading
| RecoveryLoaded
| RecoveryWarning (message : string)
| RecoveryNoFile
| Line (line : string).                    (* a line of the log file *)

Inductive RunnerError : Type :=
| AlreadyRunning                           (* apps:error.already_running *)
| NoCommand                                (* apps:error.no_command *)
| EmptyCommand                             (* apps:error.empty_command *)
| StartFailed (message : string)           (* apps:error.start_failed *)
| NotRunning                               (* apps:error.not_running *)
| NoPid                                    (* apps:error.no_pid *)
| AlreadyStopping                          (* apps:error.already_stopping *)
| StopFailed (message : string).           (* apps:error.stop_failed *)

(* { success: true, pid } or { success: false, error } *)
Inductive Result : Type :=
| Success (pid : option Z)
| Failure (error : RunnerError).

(* What the runner does to the outside, in the order it does it. *)
Inductive Effect : Type :=
| OnLog (callback : Callback) (message : Message)
| OnPortDetected (callback : Callback) (port : Z)
| OnProcessStopped (callback : Callback)
| Spawn (command : string) (args : list string) (cwd : string)
        (env : gmap string string)
| Kill (pid : Z) (signal : Signal).

Inductive HandleKind : Type := ChildProcess | RecoveredProcessHandle.

(* The closure registered by proc.on('error') and proc.on('close'). *)
Record Listeners : Type := mkListeners {
  listenAppId : string;
  listenOnLog : Callback;
  listenOnProcessStopped : option Callback }.

Record Handle : Type := mkHandle {
  kind : HandleKind;
  pid : option Z;
  watchInterval : option TimerId;
  listeners : option Listeners }.

Record ProcessInfo : Type := mkProcessInfo {
  process : HandleId;
  startTime : Z;
  appId : string;
  installPath : string;
  logPollInterval : option TimerId }.

(* An armed setInterval or setTimeout, with what its closure captured. *)
Inductive Timer : Type :=
| StatsTimer (appId : string) (onLog : Callback)
             (onProcessStopped : option Callback)
| LogPollTimer (appId logFilePath : string) (onLog : Callback)
               (onPortDetected : option Callback) (lastPosition : Z)
| WatchTimer (handle : HandleId)
| KillTimer (appId : string) (handle : HandleId) (onLog : Callback).

Record State : Type := mkState {
  runningProcesses : gmap string ProcessInfo;
  stoppingProcesses : gmap string TimerId;
  statsMonitoringTimers : gmap string TimerId;
  timers : gmap TimerId Timer;            (* the timers of the event loop *)
  handles : gmap HandleId Handle;         (* the process handle objects *)
  nextTimer : TimerId;
  nextHandle : HandleId;
  trace : list Effect }.

Definition init : State := mkState ∅ ∅ ∅ ∅ ∅ O O [].

Definition withRunning (f : gmap string ProcessInfo -> gmap string ProcessInfo)
  (st : State) : State :=
  mkState (f (runningProcesses st)) (stoppingProcesses st)
    (statsMonitoringTimers st) (timers st) (handles st) (nextTimer st)
    (nextHandle st) (trace st).

Definition withStopping (f : gmap string TimerId -> gmap string TimerId)
  (st : State) : State :=
  mkState (runningProcesses st) (f (stoppingProcesses st))
    (statsMonitoringTimers st) (timers st) (handles st) (nextTimer st)
    (nextHandle st) (trace st).

Definition withStats (f : gmap string TimerId -> gmap string TimerId)
  (st : State) : State :=
  mkState (runningProcesses st) (stoppingProcesses st)
    (f (statsMonitoringTimers st)) (timers st) (handles st) (nextTimer st)
    (nextHandle st) (trace st).

Definition withTimers (f : gmap TimerId Timer -> gmap TimerId Timer)
  (st : State) : State :=
  mkState (runningProcesses st) (stoppingProcesses st)
    (statsMonitoringTimers st) (f (timers st)) (handles st) (nextTimer st)
    (nextHandle st) (trace st).

Definition withHandles (f : gmap HandleId Handle -> gmap HandleId Handle)
  (st : State) : State :=
  mkState (runningProcesses st) (stoppingProcesses st)
    (statsMonitoringTimers st) (timers st) (f (handles st)) (nextTimer st)
    (nextHandle st) (trace st).

(** *** The monad of the runner: state passing *)
Definition M (A : Type) : Type := State -> A * State.

Definition ret {A : Type} (a : A) : M A := fun st => (a, st).

Definition bind {A B : Type} (m : M A) (f : A -> M B) : M B :=
  fun st => let (a, st') := m st in f a st'.

Notation "'let*' x ':=' c 'in' k" := (bind c (fun x => k))
  (at level 10, x name, c at level 100, k at level 200).
Notation "c '>>' k" := (bind c (fun _ => k))
  (at level 62, right associativity).

Definition gets {A : Type} (f : State -> A) : M A := fun st => (f st, st).
Definition modify (f : State -> State) : M unit := fun st => (tt, f st).

Fixpoint forEach {A : Type} (f : A -> M unit) (l : list A) : M unit :=
  match l with
  | [] => ret tt
  | x :: l' => f x >> forEach f l'
  end.

Definition emit (e : Effect) : M unit :=
  fun st =>
    (tt, mkState (runningProcesses st) (stoppingProcesses st)
           (statsMonitoringTimers st) (timers st) (handles st) (nextTimer st)
           (nextHandle st) (trace st ++ [e])).

Definition onLog (callback : Callback) (message : Message) : M unit :=
  emit (OnLog callback message).

(* if (typeof onProcessStopped === 'function') onProcessStopped(); *)
Definition notifyStopped (onProcessStopped : option Callback) : M unit :=
  match onProcessStopped with
  | Some callback => emit (OnProcessStopped callback)
  | None => ret tt
  end.

(* setInterval and setTimeout arm a timer; clearInterval and clearTimeout
   disarm it. *)
Definition setTimer (task : Timer) : M TimerId :=
  fun st =>
    let t := nextTimer st in
    (t, mkState (runningProcesses st) (stoppingProcesses st)
          (statsMonitoringTimers st) (<[t := task]> (timers st)) (handles st)
          (S t) (nextHandle st) (trace st)).

Definition clearTimer (t : TimerId) : M unit :=
  modify (withTimers (delete t)).

(* !proc.pid *)
Definition truthyPid (p : option Z) : option Z :=
  match p with
  | Some n => if (n =? 0)%Z then None else Some n
  | None => None
  end.

Definition pidOf (h : HandleId) : M (option Z) :=
  gets (fun st => handles st !! h ≫= pid).

Definition isRecovered (h : HandleId) : M bool :=
  gets (fun st =>
    match handles st !! h with
    | Some obj =>
        match kind obj with RecoveredProcessHandle => true | ChildProcess => false end
    | None => false
    end).

(** *** Polling, clean-up, handles *)

Definition stopLogPolling (appId : string) : M unit :=
  let* processInfo := gets (fun st => runningProcesses st !! appId) in
  match processInfo with
  | Some info =>
      match logPollInterval info with
      | Some t =>
          clearTimer t >>
          modify (withRunning (<[appId :=
            mkProcessInfo (process info) (startTime info) (Runner.appId info)
              (installPath info) None]>))
      | None => ret tt
      end
  | None => ret tt
  end.

Definition stopStatsMonitoring (appId : string) : M unit :=
  let* timer := gets (fun st => statsMonitoringTimers st !! appId) in
  match timer with
  | Some t => clearTimer t >> modify (withStats (delete appId))
  | None => ret tt
  end.

Definition cleanupProcessResources (appId : string) : M unit :=
  modify (withRunning (delete appId)) >>
  stopLogPolling appId >>
  stopStatsMonitoring appId.

Inductive Reason : Type := Zombie | Terminated.

Definition cleanupTerminatedProcess (appId : string) (reason : Reason)
  (pid : Z) (onLogCb : Callback) (onProcessStopped : option Callback)
  : M unit :=
  match reason with
  | Zombie => onLog onLogCb (ProcessZombie pid)
  | Terminated => onLog onLogCb (ProcessTerminated pid)
  end >>
  cleanupProcessResources appId >>
  notifyStopped onProcessStopped.

Definition startStatsMonitoring (appId : string) (onLogCb : Callback)
  (onProcessStopped : option Callback) : M unit :=
  let* timer := gets (fun st => statsMonitoringTimers st !! appId) in
  match timer with
  | Some _ => ret tt
  | None =>
      let* t := setTimer (StatsTimer appId onLogCb onProcessStopped) in
      modify (withStats (<[appId := t]>))
  end.

(* process-monitor.ts; the CPU and memory figures, floating point, are
   left out. *)
Inductive Status : Type := running | zombie | unknown.

Record ProcessStats : Type := mkProcessStats {
  statsPid : Z;
  isAlive : bool;
  statsStartTime : Z;
  lastChecked : Z;
  status : Status }.

Definition getProcessStats (alive : bool) (now : Z) (pid startTime : Z)
  : ProcessStats :=
  mkProcessStats pid alive startTime now
    (if alive then running
     else if (now - startTime >? 5000)%Z then zombie else unknown).

(* One tick of the interval of startStatsMonitoring; [alive] is what
   isProcessAlive answers and [now] what Date.now() answers.  The tick
   awaits getProcessStats; when the process is gone that promise is
   already resolved, so the clean-up runs before any other timer or
   event is served, and the tick is one step. *)
Definition statsTick (alive : bool) (now : Z) (appId : string)
  (onLogCb : Callback) (onProcessStopped : option Callback) : M unit :=
  let* processInfo := gets (fun st => runningProcesses st !! appId) in
  match processInfo with
  | None => stopStatsMonitoring appId
  | Some info =>
      let* p := pidOf (process info) in
      match truthyPid p with
      | None => ret tt
      | Some pid =>
          let health := getProcessStats alive now pid (startTime info) in
          match status health with
          | zombie =>
              cleanupTerminatedProcess appId Zombie pid onLogCb onProcessStopped
          | _ =>
              if negb (isAlive health) then
                cleanupTerminatedProcess appId Terminated pid onLogCb
                  onProcessStopped
              else ret tt
          end
      end
  end.

(* lines.forEach((line) => { if (line.trim()) { onLog(line); ... } }) *)
Definition deliver (onLogCb : Callback) (onPortDetected : option Callback)
  (line : string) : M unit :=
  if truthy (trim line) then
    onLog onLogCb (Line line) >>
    match onPortDetected with
    | Some callback =>
        match detectPortFromLog line with
        | Some port =>
            if (port =? 0)%Z then ret tt else emit (OnPortDetected callback port)
        | None => ret tt
        end
    | None => ret tt
    end
  else ret tt.

(* stream.on('data', ...): the new value of [buffer] is returned *)
Definition onData (onLogCb : Callback) (onPortDetected : option Callback)
  (buffer chunk : string) : M string :=
  let (lines, rest) := popLast (split (buffer ++ chunk)) in
  forEach (deliver onLogCb onPortDetected) lines >> ret rest.

Fixpoint readStream (onLogCb : Callback) (onPortDetected : option Callback)
  (buffer : string) (chunks : list string) : M unit :=
  match chunks with
  | [] => ret tt                            (* 'end': buffer goes out of scope *)
  | chunk :: chunks' =>
      let* buffer' := onData onLogCb onPortDetected buffer chunk in
      readStream onLogCb onPortDetected buffer' chunks'
  end.

(* One tick of the interval of startLogPolling, run to the 'end' of its
   stream.  [file] is the log file as the tick finds it ([None]: it does
   not exist); the stream hands it over in chunks of [highWaterMark]. *)
Definition logPollTick (file : option string) (highWaterMark : nat)
  (t : TimerId) (appId logFilePath : string) (onLogCb : Callback)
  (onPortDetected : option Callback) (lastPosition : Z) : M unit :=
  match file with
  | None => ret tt
  | Some content =>
      if (size content >? lastPosition)%Z then
        let delta := list_ascii_of_string (substringFrom lastPosition content) in
        readStream onLogCb onPortDetected ""
          (chunksOf (length delta) highWaterMark delta) >>
        modify (withTimers (fun ts =>
          match ts !! t with
          | Some _ =>
              <[t := LogPollTimer appId logFilePath onLogCb onPortDetected
                       (size content)]> ts
          | None => ts
          end))
      else ret tt
  end.

Definition startLogPolling (appId logFilePath : string) (onLogCb : Callback)
  (onPortDetected : option Callback) : M TimerId :=
  setTimer (LogPollTimer appId logFilePath onLogCb onPortDetected 0).

Definition setWatchInterval (h : HandleId) (w : option TimerId) : M unit :=
  modify (withHandles (fun hs =>
    match hs !! h with
    | Some obj => <[h := mkHandle (kind obj) (pid obj) w (listeners obj)]> hs
    | None => hs
    end)).

Definition stopWatch (h : HandleId) : M unit :=
  let* obj := gets (fun st => handles st !! h) in
  match obj ≫= watchInterval with
  | Some t => clearTimer t >> setWatchInterval h None
  | None => ret tt
  end.

Definition startWatch (h : HandleId) : M unit :=
  let* obj := gets (fun st => handles st !! h) in
  match obj ≫= watchInterval with
  | Some _ => ret tt                        (* Already watching *)
  | None =>
      let* t := setTimer (WatchTimer h) in
      setWatchInterval h (Some t)
  end.

Definition clearStopping (appId : string) : M unit :=
  let* timeout := gets (fun st => stoppingProcesses st !! appId) in
  match timeout with
  | Some t => clearTimer t >> modify (withStopping (delete appId))
  | None => ret tt
  end.

(* proc.on('close', (code, signal) => ...) *)
Definition onClose (h : HandleId) (l : Listeners) (exitCode : option Z)
  : M unit :=
  onLog (listenOnLog l) (ProcessExited exitCode) >>
  clearStopping (listenAppId l) >>
  (let* recovered := isRecovered h in
   if recovered then stopWatch h else ret tt) >>
  cleanupProcessResources (listenAppId l) >>
  notifyStopped (listenOnProcessStopped l).

(* proc.on('error', (error) => ...) *)
Definition onError (h : HandleId) (l : Listeners) (message : string)
  : M unit :=
  onLog (listenOnLog l) (ErrorProcess message) >>
  modify (withRunning (delete (listenAppId l))) >>
  clearStopping (listenAppId l) >>
  stopStatsMonitoring (listenAppId l) >>
  stopLogPolling (listenAppId l) >>
  (let* recovered := isRecovered h in
   if recovered then stopWatch h else ret tt) >>
  notifyStopped (listenOnProcessStopped l).

(* proc.emit('close', code, signal) and proc.emit('error', error) *)
Definition emitClose (h : HandleId) (exitCode : option Z) : M unit :=
  let* obj := gets (fun st => handles st !! h) in
  match obj ≫= listeners with
  | Some l => onClose h l exitCode
  | None => ret tt
  end.

Definition emitError (h : HandleId) (message : string) : M unit :=
  let* obj := gets (fun st => handles st !! h) in
  match obj ≫= listeners with
  | Some l => onError h l message
  | None => ret tt
  end.

(* One tick of the interval of RecoveredProcessHandle.startWatch. *)
Definition watchTick (alive : bool) (h : HandleId) : M unit :=
  if negb alive then stopWatch h >> emitClose h None else ret tt.

(** *** setupProcessHandlers *)

Definition setListeners (h : HandleId) (l : Listeners) : M unit :=
  modify (withHandles (fun hs =>
    match hs !! h with
    | Some obj =>
        <[h := mkHandle (kind obj) (pid obj) (watchInterval obj) (Some l)]> hs
    | None => hs
    end)).

(* processInfo.logPollInterval = logPollInterval, on the object that
   runningProcesses holds under appId *)
Definition setLogPollInterval (appId : string) (t : TimerId) : M unit :=
  modify (withRunning (alter (fun info =>
    mkProcessInfo (process info) (startTime info) (Runner.appId info)
      (installPath info) (Some t)) appId)).

Definition setupProcessHandlers (now : Z) (proc : HandleId)
  (appId installPath : string) (onLogCb : Callback)
  (onPortDetected onProcessStopped : option Callback)
  (logFilePath : option string) : M Result :=
  setListeners proc (mkListeners appId onLogCb onProcessStopped) >>
  modify (withRunning (<[appId :=
    mkProcessInfo proc now appId installPath None]>)) >>
  match logFilePath with
  | Some path =>
      if truthy path then
        let* logPoll := startLogPolling appId path onLogCb onPortDetected in
        setLogPollInterval appId logPoll
      else ret tt
  | None => ret tt
  end >>
  startStatsMonitoring appId onLogCb onProcessStopped >>
  (let* recovered := isRecovered proc in
   if recovered then startWatch proc else ret tt) >>
  let* p := pidOf proc in
  onLog onLogCb (ProcessStarted p) >>
  ret (Success p).

(** *** runApp *)

(* An entry of what shell-quote's parse returns: a word, or an object
   standing for an operator, a glob or a comment. *)
Inductive ParseEntry : Type :=
| Word (s : string)
| Operator (op : string).

(* What runApp finds outside the runner. *)
Record LaunchWorld : Type := mkLaunchWorld {
  detectStartCommand : string -> option string;   (* pyproject.toml *)
  parseShellCommand : string -> list ParseEntry;  (* shell-quote *)
  getUvCommand : string;
  getLogsDir : string;
  processEnv : gmap string string;                (* process.env *)
  launchThrows : option string;  (* mkdirSync, openSync or spawn throws *)
  spawnedPid : option Z;                          (* proc.pid *)
  launchTime : Z }.                                (* Date.now() *)

(* parsed.filter((arg) => typeof arg === 'string').map(arg => String(arg)) *)
Definition words (parsed : list ParseEntry) : list string :=
  omap (fun entry =>
    match entry with Word s => Some s | Operator _ => None end) parsed.

(* { ...target, ...source }: the keys of [source] win *)
Definition spread (target source : gmap string string) : gmap string string :=
  source ∪ target.

(* { ...process.env, PYTHONUNBUFFERED: '1', ...env } *)
Definition childEnv (w : LaunchWorld) (env : option (gmap string string))
  : gmap string string :=
  spread (<["PYTHONUNBUFFERED" := "1"]> (spread ∅ (processEnv w)))
         (default ∅ env).

Definition newHandle (k : HandleKind) (p : option Z) : M HandleId :=
  fun st =>
    let h := nextHandle st in
    (h, mkState (runningProcesses st) (stoppingProcesses st)
          (statsMonitoringTimers st) (timers st)
          (<[h := mkHandle k p None None]> (handles st)) (nextTimer st)
          (S h) (trace st)).

(* From getUvCommand() to the call of setupProcessHandlers: the same in
   the three places where runApp spawns. *)
Definition launch (w : LaunchWorld) (args : list string)
  (appId installPath : string) (env : option (gmap string string))
  (onLogCb : Callback) (onPortDetected onProcessStopped : option Callback)
  : M Result :=
  match launchThrows w with
  | Some message => ret (Failure (StartFailed message))
  | None =>
      let logFile := getLogsDir w +:+ "/" +:+ appId +:+ ".log" in
      emit (Spawn (getUvCommand w) args installPath (childEnv w env)) >>
      let* proc := newHandle ChildProcess (spawnedPid w) in
      setupProcessHandlers (launchTime w) proc appId installPath onLogCb
        onPortDetected onProcessStopped (Some logFile)
  end.

Definition runApp (w : LaunchWorld) (appId installPath : string)
  (runCommand : option string) (env : option (gmap string string))
  (onLogCb : Callback) (onPortDetected onProcessStopped : option Callback)
  : M Result :=
  let* present := gets (fun st => runningProcesses st !! appId) in
  match present with
  | Some _ => ret (Failure AlreadyRunning)
  | None =>
      let commandToRun :=
        match runCommand with
        | Some c => if truthy c then Some c else detectStartCommand w installPath
        | None => detectStartCommand w installPath
        end in
      match commandToRun with
      | None => ret (Failure NoCommand)
      | Some c =>
          if negb (truthy c) then ret (Failure NoCommand)
          else
            let commandArgs := words (parseShellCommand w c) in
            match commandArgs with
            | [] => ret (Failure EmptyCommand)
            | first :: rest =>
                if String.eqb first "uv" then
                  match rest with
                  | second :: rest' =>
                      if String.eqb second "run" then
                        (* Remove "uv run" if included *)
                        onLog onLogCb (CommandRun (join " " rest')) >>
                        launch w ("run" :: rest') appId installPath env
                          onLogCb onPortDetected onProcessStopped
                      else if String.eqb second "x" || String.eqb second "--with"
                      then
                        onLog onLogCb (CommandRun (join " " commandArgs)) >>
                        launch w rest appId installPath env
                          onLogCb onPortDetected onProcessStopped
                      else
                        onLog onLogCb (CommandRun (join " " commandArgs)) >>
                        launch w rest appId installPath env
                          onLogCb onPortDetected onProcessStopped
                  | [] =>
                      onLog onLogCb (CommandRun (join " " commandArgs)) >>
                      launch w rest appId installPath env
                        onLogCb onPortDetected onProcessStopped
                  end
                else
                  onLog onLogCb (CommandRun (join " " commandArgs)) >>
                  launch w ("run" :: commandArgs) appId installPath env
                    onLogCb onPortDetected onProcessStopped
            end
      end
  end.

(** *** stopApp *)

(* What tree-kill does with a signal: it calls back without an error, it
   calls back with an error, or it throws. *)
Inductive KillOutcome : Type :=
| Delivered
| KillError (message : string)
| KillThrows (message : string).

Record StopWorld : Type := mkStopWorld {
  isWindows : bool;                 (* process.platform === 'win32' *)
  sigterm : KillOutcome }.

(* await new Promise((resolve) => kill(pid, 'SIGTERM', (error) => ...)):
   [Some message] when the await throws *)
Definition sendSigterm (outcome : KillOutcome) (pid : Z) (onLogCb : Callback)
  : M (option string) :=
  emit (Kill pid SIGTERM) >>
  match outcome with
  | Delivered => onLog onLogCb (SigtermSent pid) >> ret None
  | KillError message => onLog onLogCb (SigtermWarning message) >> ret None
  | KillThrows message => ret (Some message)
  end.

(* The run of stopApp in which no other event is served while it awaits. *)
Definition stopApp (w : StopWorld) (appId : string) (onLogCb : Callback)
  : M Result :=
  let* processInfo := gets (fun st => runningProcesses st !! appId) in
  match processInfo with
  | None => ret (Failure NotRunning)
  | Some info =>
      let proc := process info in
      let* p := pidOf proc in
      match truthyPid p with
      | None => ret (Failure NoPid)
      | Some pid =>
          let* stopping := gets (fun st => stoppingProcesses st !! appId) in
          match stopping with
          | Some _ => ret (Failure AlreadyStopping)
          | None =>
              (* Stop health check polling *)
              stopStatsMonitoring appId >>
              onLog onLogCb ProcessStopping >>
              if isWindows w then
                onLog onLogCb WaitingForFlush >>
                (* await: 5000 ms *)
                let* thrown := sendSigterm (sigterm w) pid onLogCb in
                match thrown with
                | Some message => ret (Failure (StopFailed message))
                | None => onLog onLogCb StopRequested >> ret (Success None)
                end
              else
                let* thrown := sendSigterm (sigterm w) pid onLogCb in
                match thrown with
                | Some message => ret (Failure (StopFailed message))
                | None =>
                    let* timeout := setTimer (KillTimer appId proc onLogCb) in
                    modify (withStopping (<[appId := timeout]>)) >>
                    onLog onLogCb StopRequested >>
                    ret (Success None)
                end
          end
      end
  end.

(* The callback of the setTimeout of stopApp, PROCESS.SIGKILL_TIMEOUT_MS
   after it was armed. *)
Definition killTimeout (sigkill : KillOutcome) (appId : string)
  (proc : HandleId) (onLogCb : Callback) : M unit :=
  let* present := gets (fun st => runningProcesses st !! appId) in
  let* p := pidOf proc in
  match present, truthyPid p with
  | Some _, Some pid =>
      onLog onLogCb ForceKill >>
      emit (Kill pid SIGKILL) >>
      match sigkill with
      | Delivered =>
          onLog onLogCb ForceKilled >> modify (withStopping (delete appId))
      | KillError message =>
          onLog onLogCb (SigkillError message) >>
          modify (withStopping (delete appId))
      | KillThrows _ => ret tt
      end
  | _, _ => modify (withStopping (delete appId))
  end.

(** *** recoverProcess *)

Inductive LogFile : Type :=
| Missing                                   (* !fs.existsSync(logFile) *)
| Readable (content : string)
| Unreadable (message : string).            (* readFileSync throws *)

(* What recoverProcess finds outside the runner; getLogsDir() is taken
   to return, as in runApp when [launchThrows] is [None]. *)
Record RecoverWorld : Type := mkRecoverWorld {
  logsDir : string;                 (* getLogsDir() *)
  logFile : LogFile;                (* the file logsDir/appId.log *)
  recoverTime : Z }.                (* Date.now() *)

Definition recoverProcess (w : RecoverWorld) (appId : string) (pid : Z)
  (installPath : string) (onLogCb : Callback)
  (onPortDetected onProcessStopped : option Callback) : M unit :=
  let path := logsDir w +:+ "/" +:+ appId +:+ ".log" in
  match logFile w with
  | Readable existingLogs =>
      onLog onLogCb RecoveryLoading >>
      forEach (fun line =>
        if truthy (trim line) then onLog onLogCb (Line line) else ret tt)
        (split existingLogs) >>
      onLog onLogCb RecoveryLoaded
  | Unreadable message =>
      onLog onLogCb RecoveryLoading >>
      onLog onLogCb (RecoveryWarning message)
  | Missing => onLog onLogCb RecoveryNoFile
  end >>
  let* recoveredHandle := newHandle RecoveredProcessHandle (Some pid) in
  setupProcessHandlers (recoverTime w) recoveredHandle appId installPath
    onLogCb onPortDetected onProcessStopped (Some path) >>
  ret tt.

(* isRunning; [alive] is isProcessAlive *)
Definition isRunning (alive : Z -> bool) (appId : string) (st : State) : bool :=
  match runningProcesses st !! appId with
  | None => false
  | Some info =>
      match truthyPid (handles st !! process info ≫= pid) with
      | None => false
      | Some pid => alive pid
      end
  end.

(** *** The event loop *)

(* What a timer callback finds outside the runner when it fires. *)
Record Oracle : Type := mkOracle {
  processAlive : bool;                (* isProcessAlive(pid) *)
  dateNow : Z;                        (* Date.now() *)
  logContent : option string;         (* the log file *)
  highWaterMark : nat;                (* the chunk size of the read stream *)
  sigkill : KillOutcome }.

Definition fireTimer (o : Oracle) (t : TimerId) : M unit :=
  let* task := gets (fun st => timers st !! t) in
  match task with
  | None => ret tt                                        (* disarmed *)
  | Some (StatsTimer appId onLogCb onProcessStopped) =>
      statsTick (processAlive o) (dateNow o) appId onLogCb onProcessStopped
  | Some (LogPollTimer appId path onLogCb onPortDetected lastPosition) =>
      logPollTick (logContent o) (highWaterMark o) t appId path onLogCb
        onPortDetected lastPosition
  | Some (WatchTimer h) => watchTick (processAlive o) h
  | Some (KillTimer appId proc onLogCb) =>
      clearTimer t >>                                     (* a setTimeout *)
      killTimeout (sigkill o) appId proc onLogCb
  end.

Inductive Event : Type :=
| RunApp (w : LaunchWorld) (appId installPath : string)
         (runCommand : option string) (env : option (gmap string string))
         (onLogCb : Callback) (onPortDetected onProcessStopped : option Callback)
| StopApp (w : StopWorld) (appId : string) (onLogCb : Callback)
| RecoverProcess (w : RecoverWorld) (appId : string) (pid : Z)
         (installPath : string) (onLogCb : Callback)
         (onPortDetected onProcessStopped : option Callback)
| TimerFires (o : Oracle) (t : TimerId)
| ProcessCloses (h : HandleId) (exitCode : option Z)
| ProcessErrors (h : HandleId) (message : string).

Definition step (st : State) (e : Event) : State :=
  match e with
  | RunApp w appId installPath runCommand env onLogCb onPort onStopped =>
      snd (runApp w appId installPath runCommand env onLogCb onPort onStopped st)
  | StopApp w appId onLogCb => snd (stopApp w appId onLogCb st)
  | RecoverProcess w appId pid installPath onLogCb onPort onStopped =>
      snd (recoverProcess w appId pid installPath onLogCb onPort onStopped st)
  | TimerFires o t => snd (fireTimer o t st)
  | ProcessCloses h exitCode => snd (emitClose h exitCode st)
  | ProcessErrors h message => snd (emitError h message st)
  end.

Definition steps (st : State) (es : list Event) : State := foldl step st es.

(* How often a callback was told that its process stopped. *)
Definition isStopNotification (callback : Callback) (e : Effect) : bool :=
  match e with
  | OnProcessStopped c => String.eqb c callback
  | _ => false
  end.

Definition stopNotifications (callback : Callback) (tr : list Effect) : nat :=
  length (List.filter (isStopNotification callback) tr).
End Runner.

(** ** The main process: the start-up recovery loop (main/index.ts) and
    the persistence of the application list (storage/persistence.ts) *)
Module Main.

Inductive AppStatus : Type :=
| NotInstalled | Installing | Installed | Running | Error.

Inductive SourceType : Type := Zip | Github | Local.

Record AppInfo : Type := mkAppInfo {
  id : string;
  name : string;
  status : AppStatus;
  sourcePath : string;
  sourceType : SourceType;
  installPath : option string;
  runCommand : option string;
  env : option (gmap string string);
  secrets : option (gmap string string);
  secretRefs : option (gmap string string);
  errorMessage : option string;
  pid : option Z;
  port : option Z }.

(* Omit<AppInfo, 'status' | 'errorMessage'> *)
Record PersistedAppInfo : Type := mkPersistedAppInfo {
  persistedId : string;
  persistedName : string;
  persistedSourcePath : string;
  persistedSourceType : SourceType;
  persistedInstallPath : option string;
  persistedRunCommand : option string;
  persistedEnv : option (gmap string string);
  persistedSecrets : option (gmap string string);
  persistedSecretRefs : option (gmap string string);
  persistedPid : option Z;
  persistedPort : option Z }.

Section Startup.

(* Electron's safeStorage, through secure-storage.ts *)
Variable encryptSecret : string -> string.
Variable decryptSecret : string -> string.
(* isProcessAlive, on the process table the supervisor starts in *)
Variable isProcessAlive : Z -> bool.
(* the logs directory as recoverProcess finds it for each application *)
Variable recoverWorld : string -> Runner.RecoverWorld.

(* secure-storage.ts *)
Definition encryptSecrets (secrets : gmap string string) : gmap string string :=
  encryptSecret <$> secrets.

Definition decryptSecrets (encryptedSecrets : gmap string string)
  : gmap string string :=
  decryptSecret <$> encryptedSecrets.

(* saveApps: the content it writes to apps.json (a failed write is only
   logged by saveApps and is not modelled) *)
Definition saveApps (apps : gmap string AppInfo)
  : gmap string PersistedAppInfo :=
  omap (fun app =>
    match status app with
    | Installing => None                  (* Don't save while installing *)
    | _ =>
        Some (mkPersistedAppInfo (id app) (name app) (sourcePath app)
                (sourceType app) (installPath app) (runCommand app) (env app)
                (encryptSecrets <$> secrets app) (secretRefs app)
                (pid app) (port app))
    end) apps.

(* loadApps, on the entries of the object read from apps.json *)
Definition restore (persistedApp : PersistedAppInfo) : AppInfo :=
  mkAppInfo (persistedId persistedApp) (persistedName persistedApp) Installed
    (persistedSourcePath persistedApp) (persistedSourceType persistedApp)
    (persistedInstallPath persistedApp) (persistedRunCommand persistedApp)
    (persistedEnv persistedApp)
    (decryptSecrets <$> persistedSecrets persistedApp)
    (persistedSecretRefs persistedApp) None
    (persistedPid persistedApp) (persistedPort persistedApp).

Definition loadApps (file : list (string * PersistedAppInfo))
  : list (string * AppInfo) :=
  map (fun entry => (fst entry, restore (snd entry))) file.

(* { ...appInfo, status: 'running' } *)
Definition recovered (appInfo : AppInfo) : AppInfo :=
  mkAppInfo (id appInfo) (name appInfo) Running (sourcePath appInfo)
    (sourceType appInfo) (installPath appInfo) (runCommand appInfo)
    (env appInfo) (secrets appInfo) (secretRefs appInfo)
    (errorMessage appInfo) (pid appInfo) (port appInfo).

(* { ...appInfo, status: ..., pid: undefined, port: undefined } *)
Definition cleared (appInfo : AppInfo) : AppInfo :=
  mkAppInfo (id appInfo) (name appInfo)
    (match status appInfo with Running => Installed | s => s end)
    (sourcePath appInfo) (sourceType appInfo) (installPath appInfo)
    (runCommand appInfo) (env appInfo) (secrets appInfo) (secretRefs appInfo)
    (errorMessage appInfo) None None.

(* The state of the main process: the apps map and the runner. *)
Definition MainState : Type := gmap string AppInfo * Runner.State.

(* One turn of  for (const [id, appInfo] of persistedApps.entries()).
   The callbacks given to recoverProcess are the closures over [id]. *)
Definition recoverEntry (s : MainState) (entry : string * AppInfo)
  : MainState :=
  let (apps, runner) := s in
  let (id, appInfo) := entry in
  match pid appInfo with
  | Some p =>
      if isProcessAlive p then
        let runner' :=
          snd (Runner.recoverProcess (recoverWorld id) id p
                 (default "" (installPath appInfo)) id (Some id) (Some id)
                 runner) in
        (<[id := recovered appInfo]> apps, runner')
      else (<[id := cleared appInfo]> apps, runner)
  | None => (<[id := cleared appInfo]> apps, runner)
  end.

(* The recovery pass of app.whenReady(): the apps map, the runner and
   the file written by saveApps(apps) at its end. *)
Definition recoveryPass (file : list (string * PersistedAppInfo))
  : MainState * gmap string PersistedAppInfo :=
  let s := foldl recoverEntry (∅, Runner.init) (loadApps file) in
  (s, saveApps (fst s)).

End Startup.
End Main.

(** ** Sample worlds and observations, for the statements below *)
Module Samples.
Import Regex Text Runner.

(* A command line of plain words separated by blanks: on such a line
   shell-quote's parse returns the words. *)
Definition isBlank (c : ascii) : bool := (code c =? 32)%N.

Definition plainParse (command : string) : list ParseEntry :=
  omap (fun w =>
    match w with
    | [] => None
    | _ => Some (Word (string_of_list_ascii w))
    end) (splitOn isBlank (list_ascii_of_string command)).

Definition hostWorld : LaunchWorld :=
  mkLaunchWorld (fun _ => None) plainParse "uv" "/logs" ∅ None
    (Some 4242%Z) 1000%Z.

Definition nl : string := String (ascii_of_nat 10) "".

(* a tick that finds the process alive and the log file with [content] *)
Definition tickWithLog (content : string) : Oracle :=
  mkOracle true 2000%Z (Some content) (64 * 1024) Delivered.

(* a tick that finds the process gone *)
Definition tickDead : Oracle := mkOracle false 2000%Z None (64 * 1024) Delivered.

(* the argument vectors and the environments of the spawns of a trace *)
Definition spawnArgs (tr : list Effect) : list (list string) :=
  omap (fun e =>
    match e with Spawn _ args _ _ => Some args | _ => None end) tr.

Definition spawnEnvs (tr : list Effect) : list (gmap string string) :=
  omap (fun e =>
    match e with Spawn _ _ _ env => Some env | _ => None end) tr.

Definition deliveredLines (callback : Callback) (tr : list Effect)
  : list string :=
  omap (fun e =>
    match e with
    | OnLog c (Line l) => if String.eqb c callback then Some l else None
    | _ => None
    end) tr.

End Samples.

(** ** The invariant of the runner *)
Module Invariant.
Import Text Runner.

(* The registry is keyed by the appId of its entries, and the timer
   identities it remembers are identities the event loop has handed out,
   the health poll and the log poll of an entry being different timers. *)
Record Inv (st : State) : Prop := mkInv {
  inv_key : ∀ k info,
    runningProcesses st !! k = Some info → appId info = k;
  inv_timers : ∀ t task,
    timers st !! t = Some task → (t < nextTimer st)%nat;
  inv_stats : ∀ a t,
    statsMonitoringTimers st !! a = Some t → (t < nextTimer st)%nat;
  inv_logPoll : ∀ k info t,
    runningProcesses st !! k = Some info → logPollInterval info = Some t →
    (t < nextTimer st)%nat;
  inv_distinct : ∀ a k info t,
    statsMonitoringTimers st !! a = Some t →
    runningProcesses st !! k = Some info → logPollInterval info ≠ Some t }.

Definition keeps {A : Type} (m : M A) : Prop :=
  ∀ st, Inv st → Inv (snd (m st)).

End Invariant.

(** ** The queries of the runner: getAppHealth, getAllAppHealth *)
Module Queries.
Import Runner.

(* getAppHealth; [alive] is isProcessAlive and [now] is Date.now() *)
Definition getAppHealth (alive : Z -> bool) (now : Z) (appId : string)
  (st : State) : option ProcessStats :=
  match runningProcesses st !! appId with
  | None => None
  | Some info =>
      match truthyPid (handles st !! process info ≫= pid) with
      | None => None
      | Some p => Some (getProcessStats (alive p) now p (startTime info))
      end
  end.

(* getAllAppHealth, on the registry as one call finds it: the entries
   without a pid are left out *)
Definition getAllAppHealth (alive : Z -> bool) (now : Z) (st : State)
  : gmap string ProcessStats :=
  omap (fun info =>
    match truthyPid (handles st !! process info ≫= pid) with
    | None => None
    | Some p => Some (getProcessStats (alive p) now p (startTime info))
    end) (runningProcesses st).

(* what a trace holds of one kind of effect *)
Definition killsWith (signal : Signal) (tr : list Effect) : list Z :=
  omap (fun e =>
    match e, signal with
    | Kill p SIGTERM, SIGTERM => Some p
    | Kill p SIGKILL, SIGKILL => Some p
    | _, _ => None
    end) tr.

(* the ports reported through onPortDetected *)
Definition portsOf (tr : list Effect) : list Z :=
  omap (fun e =>
    match e with OnPortDetected _ port => Some port | _ => None end) tr.

(* the lines that pass if (line.trim()) *)
Definition nonBlank (lines : list string) : list string :=
  List.filter (fun line => Text.truthy (Text.trim line)) lines.

(* the lines passed to a log callback *)
Definition linesOf (tr : list Effect) : list string :=
  omap (fun e =>
    match e with OnLog _ (Line l) => Some l | _ => None end) tr.

End Queries.

(** ** A second invariant: every registry entry has its listeners *)
Module Link.
Import Runner.

(* The handle of an entry exists and carries the 'close' and 'error'
   listeners that setupProcessHandlers registered for the appId of the
   entry; handle identities are never reused. *)
Record Linked (st : State) : Prop := mkLinked {
  linked_fresh : ∀ h obj,
    handles st !! h = Some obj → (h < nextHandle st)%nat;
  linked_entry : ∀ a info,
    runningProcesses st !! a = Some info →
    ∃ obj l, handles st !! process info = Some obj
             ∧ listeners obj = Some l ∧ listenAppId l = a }.

Definition preserves {A : Type} (m : M A) : Prop :=
  ∀ st, Linked st → Linked (snd (m st)).

End Link.

(** ** A third invariant: what each remembered timer identity stands for *)
Module Tags.
Import Runner Invariant.

Inductive TimerKind : Type := StatsKind | LogPollKind | WatchKind | KillKind.

Definition timerKind (task : Timer) : TimerKind :=
  match task with
  | StatsTimer _ _ _ => StatsKind
  | LogPollTimer _ _ _ _ _ => LogPollKind
  | WatchTimer _ => WatchKind
  | KillTimer _ _ _ => KillKind
  end.

(* The identities kept in stoppingProcesses, in statsMonitoringTimers
   and in the handles are, as long as they are armed, those of a
   fallback kill, of a health poll and of a liveness watch; the log
   poll of a registry entry is armed, and it is the log poll that was
   started for the appId of the entry. *)
Record Tagged (st : State) : Prop := mkTagged {
  tagged_stopping_fresh : ∀ a t,
    stoppingProcesses st !! a = Some t → (t < nextTimer st)%nat;
  tagged_watch_fresh : ∀ h obj t,
    handles st !! h = Some obj → watchInterval obj = Some t →
    (t < nextTimer st)%nat;
  tagged_stats : ∀ a t task,
    statsMonitoringTimers st !! a = Some t → timers st !! t = Some task →
    timerKind task = StatsKind;
  tagged_stopping : ∀ a t task,
    stoppingProcesses st !! a = Some t → timers st !! t = Some task →
    timerKind task = KillKind;
  tagged_watch : ∀ h obj t task,
    handles st !! h = Some obj → watchInterval obj = Some t →
    timers st !! t = Some task → timerKind task = WatchKind;
  tagged_logPoll : ∀ k info t,
    runningProcesses st !! k = Some info → logPollInterval info = Some t →
    ∃ path cb1 cb2 pos,
      timers st !! t = Some (LogPollTimer k path cb1 cb2 pos) }.

Definition holds {A : Type} (m : M A) : Prop :=
  ∀ st, Inv st → Tagged st → Tagged (snd (m st)).

End Tags.

(** ** A fourth invariant: who may be sent SIGKILL *)
Module Signals.
Import Runner Queries.

(* An armed fallback kill belongs to a handle whose pid has been sent
   SIGTERM, and every pid that was sent SIGKILL had been sent SIGTERM;
   handle identities are never reused. *)
Record Asked (st : State) : Prop := mkAsked {
  asked_fresh : ∀ h obj,
    handles st !! h = Some obj → (h < nextHandle st)%nat;
  asked_kill : ∀ t a h cb,
    timers st !! t = Some (KillTimer a h cb) →
    ∃ p, truthyPid (handles st !! h ≫= pid) = Some p
         ∧ p ∈ killsWith SIGTERM (trace st);
  asked_sigkill : ∀ p,
    p ∈ killsWith SIGKILL (trace st) → p ∈ killsWith SIGTERM (trace st) }.

Definition asks {A : Type} (m : M A) : Prop :=
  ∀ st, Asked st → Asked (snd (m st)).

End Signals.

(** ** Properties of patterns *)
Module Patterns.
Import Regex PortSniffer.

(* the phrases of errorPatterns *)
Definition negativePhrases : list string :=
  [ "error"; "failed"; "refused"; "timeout"; "cannot"; "unable";
    "already in use"; "bind"; "connecting to"; "connect to"; "connection to" ].

(* two texts that differ at most in the case of ASCII letters *)
Definition sameLetters (s1 s2 : list ascii) : Prop :=
  Forall2 (fun c1 c2 => canon c1 = canon c2) s1 s2.

(* every match of the pattern consumes a decimal digit *)
Fixpoint needsDigit (r : regex) : bool :=
  match r with
  | Empty => false
  | Atom Digit => true
  | Atom _ => false
  | Cat r1 r2 => needsDigit r1 || needsDigit r2
  | Or r1 r2 => needsDigit r1 && needsDigit r2
  | Star _ _ => false
  | Capture r1 => needsDigit r1
  end.

Definition digitFree (s : list ascii) : Prop :=
  Forall (fun c => isDigit c = false) s.

End Patterns.

(** ** Secrets at rest (storage/secure-storage.ts) *)
Module SecureStorage.

Section SafeStorage.

(* Electron's safeStorage: isEncryptionAvailable(), and
   encryptString(plainText).toString('base64'),
   decryptString(Buffer.from(encrypted, 'base64')), [None] when it throws *)
Variable isEncryptionAvailable : bool.
Variable encryptString : string -> string.
Variable decryptString : string -> option string.

Definition encryptSecret (plainText : string) : string :=
  if negb isEncryptionAvailable then "plain:" +:+ plainText
  else encryptString plainText.

Definition decryptSecret (encrypted : string) : string :=
  if String.prefix "plain:" encrypted then Text.substringFrom 6 encrypted
  else if negb isEncryptionAvailable then ""
  else
    match decryptString encrypted with
    | Some plainText => plainText
    | None => ""
    end.

Definition encryptSecrets (secrets : gmap string string) : gmap string string :=
  encryptSecret <$> secrets.

Definition decryptSecrets (encryptedSecrets : gmap string string)
  : gmap string string :=
  decryptSecret <$> encryptedSecrets.

End SafeStorage.
End SecureStorage.

(** ** The global secrets (storage/secrets-storage.ts) *)
Module Secrets.

Record GlobalSecret : Type := mkGlobalSecret {
  id : string;
  name : string;
  value : string;
  description : option string;
  createdAt : Z;
  updatedAt : Z }.

(* Omit<GlobalSecret, 'id' | 'createdAt' | 'updatedAt'> *)
Record NewSecret : Type := mkNewSecret {
  newName : string;
  newValue : string;
  newDescription : option string }.

(* Partial<Pick<GlobalSecret, 'name' | 'value' | 'description'>> *)
Record Updates : Type := mkUpdates {
  updatesName : option string;
  updatesValue : option string;
  updatesDescription : option string }.

Inductive SecretError : Type :=
| DuplicateName (name : string)   (* A secret with the name ... already exists *)
| NotFound                        (* Secret not found *)
| EmptyValue                      (* Secret value cannot be empty *)
| Thrown (message : string).      (* String(error) of the catch block *)

(* { success: true, secretId? } or { success: false, error } *)
Inductive SecretResult : Type :=
| Ok (secretId : option string)
| Failed (error : SecretError).

(* The Map globalSecrets and the file secrets.json ([None]: no file). *)
Record Store : Type := mkStore {
  globalSecrets : gmap string GlobalSecret;
  secretsFile : option (gmap string GlobalSecret) }.

Definition empty : Store := mkStore ∅ None.

(* What a call finds outside the store: randomUUID(), Date.now(), and
   whether mkdirSync or writeFileSync throws (with String(error)). *)
Record SecretWorld : Type := mkSecretWorld {
  randomUUID : string;
  now : Z;
  writeFileSync : option string }.

Section Storage.

Variable encryptSecret : string -> string.
Variable decryptSecret : string -> string.

(* { ...secret, value } *)
Definition withValue (v : string) (secret : GlobalSecret) : GlobalSecret :=
  mkGlobalSecret (id secret) (name secret) v (description secret)
    (createdAt secret) (updatedAt secret).

(* Array.from(globalSecrets.values()).find(p) !== undefined *)
Definition find (p : GlobalSecret -> bool) (m : gmap string GlobalSecret)
  : bool :=
  existsb p (snd <$> map_to_list m).

(* initGlobalSecrets, on a file that parses *)
Definition initGlobalSecrets (st : Store) : Store :=
  match secretsFile st with
  | None => st
  | Some persistedSecrets =>
      mkStore
        (((fun secret => withValue (decryptSecret (value secret)) secret)
            <$> persistedSecrets) ∪ globalSecrets st)
        (secretsFile st)
  end.

(* saveGlobalSecrets: [Some message] when it throws *)
Definition saveGlobalSecrets (w : SecretWorld) (st : Store)
  : option string * Store :=
  match writeFileSync w with
  | Some message => (Some message, st)
  | None =>
      (None,
       mkStore (globalSecrets st)
         (Some ((fun secret => withValue (encryptSecret (value secret)) secret)
                  <$> globalSecrets st)))
  end.

Definition createGlobalSecret (w : SecretWorld) (secret : NewSecret)
  (st : Store) : SecretResult * Store :=
  if find (fun s => String.eqb (name s) (newName secret)) (globalSecrets st)
  then (Failed (DuplicateName (newName secret)), st)
  else
    let newSecret :=
      mkGlobalSecret (randomUUID w) (newName secret) (newValue secret)
        (newDescription secret) (now w) (now w) in
    let st1 :=
      mkStore (<[randomUUID w := newSecret]> (globalSecrets st))
        (secretsFile st) in
    match saveGlobalSecrets w st1 with
    | (Some message, st2) => (Failed (Thrown message), st2)
    | (None, st2) => (Ok (Some (randomUUID w)), st2)
    end.

Definition updateGlobalSecret (w : SecretWorld) (secretId : string)
  (updates : Updates) (st : Store) : SecretResult * Store :=
  match globalSecrets st !! secretId with
  | None => (Failed NotFound, st)
  | Some secret =>
      let duplicate :=
        match updatesName updates with
        | Some n =>
            if Text.truthy n && negb (String.eqb n (name secret)) then
              find (fun s => negb (String.eqb (id s) secretId)
                               && String.eqb (name s) n) (globalSecrets st)
            else false
        | None => false
        end in
      if duplicate
      then (Failed (DuplicateName (default "" (updatesName updates))), st)
      else
        let updatedSecret :=
          mkGlobalSecret (id secret)
            (default (name secret) (updatesName updates))
            (default (value secret) (updatesValue updates))
            (match updatesDescription updates with
             | Some d => Some d
             | None => description secret
             end)
            (createdAt secret) (now w) in
        if negb (Text.truthy (value updatedSecret))
        then (Failed EmptyValue, st)
        else
          let st1 :=
            mkStore (<[secretId := updatedSecret]> (globalSecrets st))
              (secretsFile st) in
          match saveGlobalSecrets w st1 with
          | (Some message, st2) => (Failed (Thrown message), st2)
          | (None, st2) => (Ok None, st2)
          end
  end.

Definition deleteGlobalSecret (w : SecretWorld) (secretId : string)
  (st : Store) : SecretResult * Store :=
  match globalSecrets st !! secretId with
  | None => (Failed NotFound, st)
  | Some _ =>
      let st1 :=
        mkStore (delete secretId (globalSecrets st)) (secretsFile st) in
      match saveGlobalSecrets w st1 with
      | (Some message, st2) => (Failed (Thrown message), st2)
      | (None, st2) => (Ok None, st2)
      end
  end.

(* globalSecrets.get(secretId)?.value *)
Definition resolveSecretValue (secretId : string) (st : Store)
  : option string :=
  value <$> globalSecrets st !! secretId.

(* listGlobalSecrets, keyed by id: the values are masked *)
Definition listGlobalSecrets (st : Store) : gmap string GlobalSecret :=
  withValue "********" <$> globalSecrets st.

(* The calls that change the store. *)
Inductive Call : Type :=
| Create (w : SecretWorld) (secret : NewSecret)
| Update (w : SecretWorld) (secretId : string) (updates : Updates)
| Delete (w : SecretWorld) (secretId : string).

Definition call (st : Store) (c : Call) : Store :=
  match c with
  | Create w secret => snd (createGlobalSecret w secret st)
  | Update w secretId updates => snd (updateGlobalSecret w secretId updates st)
  | Delete w secretId => snd (deleteGlobalSecret w secretId st)
  end.

Definition calls (st : Store) (cs : list Call) : Store := foldl call st cs.

(* what the call returns *)
Definition result (st : Store) (c : Call) : SecretResult :=
  match c with
  | Create w secret => fst (createGlobalSecret w secret st)
  | Update w secretId updates => fst (updateGlobalSecret w secretId updates st)
  | Delete w secretId => fst (deleteGlobalSecret w secretId st)
  end.

(* the content of secrets.json for a map: the values are encrypted *)
Definition sealed (m : gmap string GlobalSecret) : gmap string GlobalSecret :=
  (fun secret => withValue (encryptSecret (value secret)) secret) <$> m.

End Storage.

(* the same call in a world where the write does not throw *)
Definition writable (w : SecretWorld) : SecretWorld :=
  mkSecretWorld (randomUUID w) (now w) None.

Definition written (c : Call) : Call :=
  match c with
  | Create w secret => Create (writable w) secret
  | Update w secretId updates => Update (writable w) secretId updates
  | Delete w secretId => Delete (writable w) secretId
  end.

(* The entries carry their own key, and a name that is not empty is
   the name of one secret only. *)
Record Named (m : gmap string GlobalSecret) : Prop := mkNamed {
  named_key : ∀ i s, m !! i = Some s → id s = i;
  named_once : ∀ i j s t,
    m !! i = Some s → m !! j = Some t →
    name s = name t → name s ≠ "" → i = j }.

(* a store with two secrets, written with the "plain:" fallback *)
Definition plain : string -> string :=
  SecureStorage.encryptSecret false (fun s => s).

Definition unplain : string -> string :=
  SecureStorage.decryptSecret false (fun s => Some s).

Definition sampleStore : Store :=
  calls plain empty
    [Create (mkSecretWorld "id-1" 10 None) (mkNewSecret "TOKEN" "abc" None);
     Create (mkSecretWorld "id-2" 20 None) (mkNewSecret "KEY" "xyz" None)].

End Secrets.

(** ** The IPC handlers of the main process (main/index.ts) *)
Module Handlers.
Import Runner Main.

Inductive HandlerError : Type :=
| NotFound                          (* apps:error.not_found *)
| NotInstalledError                 (* apps:error.not_installed *)
| AlreadyRunningError               (* apps:error.already_running *)
| NotRunningError                   (* apps:error.not_running *)
| RunnerFailed (error : RunnerError).  (* result.error *)

(* { success: true } or { success: false, error } *)
Inductive Reply : Type :=
| Done
| Refused (error : HandlerError).

(* Partial<Pick<AppInfo, 'name' | 'runCommand' | 'env' | 'secrets' |
   'secretRefs'>>: [None] is a key that is absent *)
Record AppUpdates : Type := mkAppUpdates {
  updatesName : option string;
  updatesRunCommand : option string;
  updatesEnv : option (gmap string string);
  updatesSecrets : option (gmap string string);
  updatesSecretRefs : option (gmap string string) }.

(* The Map apps, the runner, apps.json as saveApps wrote it last, and
   whether the timer of debouncedSaveApps is armed.  sendAppUpdated and
   sendLog only talk to the window and are left out. *)
Record Supervisor : Type := mkSupervisor {
  apps : gmap string AppInfo;
  runner : Runner.State;
  appsFile : gmap string PersistedAppInfo;
  saveAppsTimer : bool }.

Section Ipc.

Variable encryptSecret : string -> string.
(* resolveSecretValue of secrets-storage, on the secrets of the session *)
Variable resolveSecretValue : string -> option string.
(* the text of result.error *)
Variable errorText : RunnerError -> string.
(* isProcessAlive *)
Variable isProcessAlive : Z -> bool.

(* { ...app, port } *)
Definition withPort (port : Z) (app : AppInfo) : AppInfo :=
  mkAppInfo (id app) (name app) (status app) (sourcePath app)
    (sourceType app) (installPath app) (runCommand app) (env app)
    (secrets app) (secretRefs app) (errorMessage app) (pid app) (Some port).

(* { ...app, status: 'installed', pid: undefined, port: undefined } *)
Definition stopped (app : AppInfo) : AppInfo :=
  mkAppInfo (id app) (name app) Installed (sourcePath app)
    (sourceType app) (installPath app) (runCommand app) (env app)
    (secrets app) (secretRefs app) (errorMessage app) None None.

(* { ...app, status: 'running', pid: result.pid } *)
Definition runningApp (p : option Z) (app : AppInfo) : AppInfo :=
  mkAppInfo (id app) (name app) Running (sourcePath app)
    (sourceType app) (installPath app) (runCommand app) (env app)
    (secrets app) (secretRefs app) (errorMessage app) p (port app).

(* { ...app, status: 'error', errorMessage: result.error } *)
Definition errorApp (message : string) (app : AppInfo) : AppInfo :=
  mkAppInfo (id app) (name app) Error (sourcePath app)
    (sourceType app) (installPath app) (runCommand app) (env app)
    (secrets app) (secretRefs app) (Some message) (pid app) (port app).

Definition handlePortDetected (appId : string) (port : Z) (s : Supervisor)
  : Supervisor :=
  match apps s !! appId with
  | Some app =>
      mkSupervisor (<[appId := withPort port app]> (apps s)) (runner s)
        (appsFile s) true                               (* debouncedSaveApps *)
  | None => s
  end.

Definition handleProcessStopped (appId : string) (s : Supervisor)
  : Supervisor :=
  match apps s !! appId with
  | Some app =>
      let apps' := <[appId := stopped app]> (apps s) in
      mkSupervisor apps' (runner s) (saveApps encryptSecret apps')
        (saveAppsTimer s)
  | None => s
  end.

(* the callback of the setTimeout of debouncedSaveApps *)
Definition saveAppsTick (s : Supervisor) : Supervisor :=
  if saveAppsTimer s then
    mkSupervisor (apps s) (runner s) (saveApps encryptSecret (apps s)) false
  else s.

(* The closures that run-app and the recovery loop hand to the runner
   are (message) => sendLog(appId, message),
   (port) => handlePortDetected(appId, port) and
   () => handleProcessStopped(appId): the callback token of the runner
   is the appId, and a call of a callback is served here. *)
Definition callback (s : Supervisor) (e : Effect) : Supervisor :=
  match e with
  | OnPortDetected appId port => handlePortDetected appId port s
  | OnProcessStopped appId => handleProcessStopped appId s
  | _ => s
  end.

(* An event of the runner (a timer, 'close', 'error'), with the
   callbacks it calls; the handlers do not touch the runner and the
   runner does not read the apps. *)
Definition runnerEvent (s : Supervisor) (e : Event) : Supervisor :=
  let runner' := step (runner s) e in
  foldl callback
    (mkSupervisor (apps s) runner' (appsFile s) (saveAppsTimer s))
    (drop (length (trace (runner s))) (trace runner')).

(* const value = resolveSecretValue(secretId); if (value) ... *)
Definition resolved (secretId : string) : option string :=
  match resolveSecretValue secretId with
  | Some v => if Text.truthy v then Some v else None
  | None => None
  end.

(* const mergedEnv = { ...app.env, ...app.secrets }, then the global
   secrets that resolve to a non-empty value *)
Definition mergedEnv (app : AppInfo) : gmap string string :=
  omap resolved (default ∅ (secretRefs app))
  ∪ (default ∅ (secrets app) ∪ default ∅ (env app)).

(* ipcMain.handle('run-app', ...) *)
Definition runAppHandler (w : LaunchWorld) (appId : string) (s : Supervisor)
  : Reply * Supervisor :=
  match apps s !! appId with
  | None => (Refused NotFound, s)
  | Some app =>
      match status app with
      | Installed =>
          if isRunning isProcessAlive appId (runner s)
          then (Refused AlreadyRunningError, s)
          else
            let (result, runner') :=
              runApp w appId (default "" (installPath app)) (runCommand app)
                (Some (mergedEnv app)) appId (Some appId) (Some appId)
                (runner s) in
            match result with
            | Success p =>
                let apps' := <[appId := runningApp p app]> (apps s) in
                (Done,
                 mkSupervisor apps' runner' (saveApps encryptSecret apps')
                   (saveAppsTimer s))
            | Failure error =>
                (Refused (RunnerFailed error),
                 mkSupervisor
                   (<[appId := errorApp (errorText error) app]> (apps s))
                   runner' (appsFile s) (saveAppsTimer s))
            end
      | _ => (Refused NotInstalledError, s)
      end
  end.

(* ipcMain.handle('stop-app', ...) *)
Definition stopAppHandler (w : StopWorld) (appId : string) (s : Supervisor)
  : Reply * Supervisor :=
  match apps s !! appId with
  | None => (Refused NotFound, s)
  | Some _ =>
      if isRunning isProcessAlive appId (runner s) then
        let (result, runner') := stopApp w appId appId (runner s) in
        (match result with
         | Success _ => Done
         | Failure error => Refused (RunnerFailed error)
         end,
         mkSupervisor (apps s) runner' (appsFile s) (saveAppsTimer s))
      else (Refused NotRunningError, s)
  end.

(* value && Object.keys(value).length === 0 ? undefined : value *)
Definition normalizeField (value : gmap string string)
  : option (gmap string string) :=
  if decide (value = ∅) then None else Some value.

(* ipcMain.handle('update-app', ...) *)
Definition updateAppHandler (appId : string) (updates : AppUpdates)
  (s : Supervisor) : Reply * Supervisor :=
  match apps s !! appId with
  | None => (Refused NotFound, s)
  | Some app =>
      let recover :=
        match updatesRunCommand updates, status app with
        | Some c, Error => Text.truthy c
        | _, _ => false
        end in
      let updatedApp :=
        mkAppInfo (id app)
          (default (name app) (updatesName updates))
          (if recover then Installed else status app)
          (sourcePath app) (sourceType app) (installPath app)
          (match updatesRunCommand updates with
           | Some c => Some c
           | None => runCommand app
           end)
          (match updatesEnv updates with
           | Some value => normalizeField value
           | None => env app
           end)
          (match updatesSecrets updates with
           | Some value => normalizeField value
           | None => secrets app
           end)
          (match updatesSecretRefs updates with
           | Some value => normalizeField value
           | None => secretRefs app
           end)
          (if recover then None else errorMessage app)
          (pid app) (port app) in
      let apps' := <[appId := updatedApp]> (apps s) in
      (Done,
       mkSupervisor apps' (runner s) (saveApps encryptSecret apps')
         (saveAppsTimer s))
  end.

End Ipc.


(* an installed application with an environment, secrets of its own
   and a reference to a global secret, in a supervisor that has just
   started *)
Definition sampleApp : AppInfo :=
  mkAppInfo "app" "App" Installed "/src" Local (Some "/apps/app")
    (Some "python main.py")
    (Some {[ "MODE" := "dev"; "TOKEN" := "from-env" ]})
    (Some {[ "TOKEN" := "from-secrets"; "KEY" := "own" ]})
    (Some {[ "KEY" := "id-2" ]}) None None None.

Definition sampleSupervisor : Supervisor :=
  mkSupervisor {[ "app" := sampleApp ]} Runner.init ∅ false.

(* secrets kept as they are, and errors shown by their message *)
Definition plainId (s : string) : string := s.

Definition plainError (error : RunnerError) : string :=
  match error with
  | AlreadyRunning => "already_running"
  | NoCommand => "no_command"
  | EmptyCommand => "empty_command"
  | StartFailed message => message
  | Runner.NotRunning => "not_running"
  | NoPid => "no_pid"
  | AlreadyStopping => "already_stopping"
  | StopFailed message => message
  end.

Definition sampleResolve (secretId : string) : option string :=
  Secrets.resolveSecretValue secretId Secrets.sampleStore.

End Handlers.

(** * Properties *)

(** ** The matcher: the fuel of a repetition is never used up *)
Section RegexFacts.
Import Regex.

Lemma iterate_ext (body : list ascii → captures → cont → option captures)
  greedy :
  (∀ s cap k1 k2, (∀ s' c', k1 s' c' = k2 s' c') →
     body s cap k1 = body s cap k2) →
  ∀ fuel k1 k2 s cap,
    (∀ s' c', k1 s' c' = k2 s' c') →
    iterate body greedy k1 fuel s cap = iterate body greedy k2 fuel s cap.
Proof.
  intros Hbody. induction fuel as [|fuel IH]; intros k1 k2 s cap Hk; simpl.
  - apply Hk.
  - rewrite (Hk s cap).
    rewrite (Hbody s cap
               (fun s' cap' =>
                  if (length s' <? length s)%nat
                  then iterate body greedy k1 fuel s' cap' else None)
               (fun s' cap' =>
                  if (length s' <? length s)%nat
                  then iterate body greedy k2 fuel s' cap' else None)).
    + reflexivity.
    + intros s' c'. destruct (length s' <? length s)%nat; [|reflexivity].
      apply IH, Hk.
Qed.

Lemma run_ext r :
  ∀ s cap k1 k2, (∀ s' c', k1 s' c' = k2 s' c') →
                 run r s cap k1 = run r s cap k2.
Proof.
  induction r as [|a|r1 IH1 r2 IH2|r1 IH1 r2 IH2|greedy r1 IH1|r1 IH1];
    intros s cap k1 k2 Hk; cbn [run].
  - apply Hk.
  - destruct s as [|c s']; [reflexivity|].
    destruct (atom_match a c); [apply Hk|reflexivity].
  - apply IH1. intros s' c'. apply IH2, Hk.
  - rewrite (IH1 s cap k1 k2 Hk), (IH2 s cap k1 k2 Hk). reflexivity.
  - apply iterate_ext; assumption.
  - apply IH1. intros s' c'. apply Hk.
Qed.

Lemma iterate_fuel (body : list ascii → captures → cont → option captures)
  greedy k :
  (∀ s cap k1 k2, (∀ s' c', k1 s' c' = k2 s' c') →
     body s cap k1 = body s cap k2) →
  ∀ fuel1 fuel2 s cap,
    (length s < fuel1)%nat → (length s < fuel2)%nat →
    iterate body greedy k fuel1 s cap = iterate body greedy k fuel2 s cap.
Proof.
  intros Hbody. induction fuel1 as [|fuel1 IH]; intros fuel2 s cap H1 H2.
  - lia.
  - destruct fuel2 as [|fuel2]; [lia|]. simpl.
    rewrite (Hbody s cap
               (fun s' cap' =>
                  if (length s' <? length s)%nat
                  then iterate body greedy k fuel1 s' cap' else None)
               (fun s' cap' =>
                  if (length s' <? length s)%nat
                  then iterate body greedy k fuel2 s' cap' else None)).
    + reflexivity.
    + intros s' c'. destruct (Nat.ltb_spec (length s') (length s));
        [|reflexivity].
      apply IH; lia.
Qed.

(* more fuel than [S (length s)] changes nothing: the bound on the rounds
   of a repetition does not cut the search *)
Lemma star_fuel_enough r greedy s cap k fuel :
  (length s < fuel)%nat →
  run (Star greedy r) s cap k = iterate (run r) greedy k fuel s cap.
Proof.
  intros H. cbn [run]. apply iterate_fuel; [apply run_ext|lia|exact H].
Qed.

End RegexFacts.

(** ** The port sniffer *)
Section PortSnifferFacts.
Import Regex PortSniffer.

Lemma candidate_range pattern message port :
  candidate pattern message = Some port → (1 ≤ port ≤ 65535)%Z.
Proof.
  unfold candidate, PORT_MIN, PORT_MAX.
  destruct (exec pattern message) as [[[|c ds]|]|]; try discriminate.
  destruct (parseInt (c :: ds)) as [n|]; try discriminate.
  destruct (1 <=? n)%Z eqn:Hlo; destruct (n <=? 65535)%Z eqn:Hhi;
    simpl; intros Heq; inversion Heq; subst. lia.
Qed.

Lemma firstPort_range patterns message port :
  firstPort patterns message = Some port → (1 ≤ port ≤ 65535)%Z.
Proof.
  induction patterns as [|pattern rest IH]; simpl; [discriminate|].
  destruct (candidate pattern message) as [n|] eqn:Hc; [|exact IH].
  intros Heq; inversion Heq; subst. eapply candidate_range; eassumption.
Qed.

Lemma firstPort_app ps qs message :
  firstPort (ps ++ qs) message =
  match firstPort ps message with
  | Some port => Some port
  | None => firstPort qs message
  end.
Proof.
  induction ps as [|p ps IH]; simpl; [reflexivity|].
  destruct (candidate p message); [reflexivity|exact IH].
Qed.


Lemma detectPortFromLog_ordered message :
  existsb (fun pattern => test pattern message) errorPatterns = false →
  detectPortFromLog message =
  firstPort (frameworkPatterns ++ positivePatterns ++ urlPatterns) message.
Proof.
  unfold detectPortFromLog. intros ->.
  rewrite !firstPort_app. reflexivity.
Qed.

Lemma detectPortFromLog_in_range message port :
  detectPortFromLog message = Some port → (1 ≤ port ≤ 65535)%Z.
Proof.
  unfold detectPortFromLog.
  destruct (existsb _ errorPatterns); [discriminate|].
  destruct (firstPort frameworkPatterns message) as [a|] eqn:Ha.
  { intros Heq; inversion Heq; subst. eapply firstPort_range; eassumption. }
  destruct (firstPort positivePatterns message) as [b|] eqn:Hb.
  { intros Heq; inversion Heq; subst. eapply firstPort_range; eassumption. }
  apply firstPort_range.
Qed.

(* the cases of tests/port-detection.spec.ts *)
Lemma port_detection_spec_ts :
  detectPortFromLog "Server running on port: 8000" = Some 8000%Z
  ∧ detectPortFromLog "Starting server on PORT 8000" = Some 8000%Z
  ∧ detectPortFromLog "Visit http://localhost:8000" = Some 8000%Z
  ∧ detectPortFromLog "Server at http://127.0.0.1:8000" = Some 8000%Z
  ∧ detectPortFromLog "Listening on http://0.0.0.0:8000" = Some 8000%Z
  ∧ detectPortFromLog "Server listening on *:8000" = Some 8000%Z
  ∧ detectPortFromLog " * Running on http://127.0.0.1:5000" = Some 5000%Z
  ∧ detectPortFromLog
      ("  You can now view your Streamlit app in your browser."
         +:+ Samples.nl +:+ Samples.nl
         +:+ "  Local URL: http://localhost:8501") = Some 8501%Z
  ∧ detectPortFromLog
      "INFO:     Uvicorn running on http://127.0.0.1:8000 (Press CTRL+C to quit)"
    = Some 8000%Z
  ∧ detectPortFromLog "Starting development server at http://127.0.0.1:8000/"
    = Some 8000%Z
  ∧ detectPortFromLog "port: 0" = None
  ∧ detectPortFromLog "port: 99999" = None
  ∧ detectPortFromLog "Server started successfully" = None
  ∧ detectPortFromLog "Error: Failed to bind to port 8000" = None
  ∧ detectPortFromLog "Connection refused on port 5432" = None
  ∧ detectPortFromLog "Connecting to database on localhost:5432" = None
  ∧ detectPortFromLog "Timeout connecting to port 8000" = None
  ∧ detectPortFromLog "Address already in use: port 8000" = None.
Proof. vm_compute. repeat split; reflexivity. Qed.



(** C5: every port the sniffer returns lies in 1..65535, so 0 and 65536
    are never returned, while 1 and 65535 are returned for some line; a
    pattern whose number is out of range is passed over and the later
    patterns, of the same class and of the classes after it, are still
    tried. *)
Theorem detectPortFromLog_port_range :
  (∀ message port, detectPortFromLog message = Some port →
     (1 ≤ port ≤ 65535)%Z)
  ∧ (∀ message, detectPortFromLog message ≠ Some 0%Z
                ∧ detectPortFromLog message ≠ Some 65536%Z)
  ∧ detectPortFromLog "listening on port 1" = Some 1%Z
  ∧ detectPortFromLog "listening on port 65535" = Some 65535%Z
  ∧ detectPortFromLog "listening on port 0" = None
  ∧ detectPortFromLog "listening on port 65536" = None
  ∧ (∀ pattern rest message,
       candidate pattern message = None →
       firstPort (pattern :: rest) message = firstPort rest message)
  ∧ (∀ message,
       existsb (fun pattern => test pattern message) errorPatterns = false →
       detectPortFromLog message =
       firstPort (frameworkPatterns ++ positivePatterns ++ urlPatterns) message)
  ∧ (Regex.exec (hd Regex.Empty frameworkPatterns)
       " * Running on x:0 http://localhost:8080" = Some (Some ["0"%char])
     ∧ firstPort frameworkPatterns " * Running on x:0 http://localhost:8080"
       = None
     ∧ detectPortFromLog " * Running on x:0 http://localhost:8080"
       = Some 8080%Z).
Proof.
  split; [exact detectPortFromLog_in_range|].
  split.
  { intros message; split; intros H;
      apply detectPortFromLog_in_range in H; lia. }
  split; [vm_compute; reflexivity|].
  split; [vm_compute; reflexivity|].
  split; [vm_compute; reflexivity|].
  split; [vm_compute; reflexivity|].
  split.
  { intros pattern rest message H. simpl. rewrite H. reflexivity. }
  split; [exact detectPortFromLog_ordered|].
  split; [vm_compute; reflexivity|].
  split; vm_compute; reflexivity.
Qed.

Lemma detectPortFromLog_port_range_witness : (1 ≤ 8000 ≤ 65535)%Z.
Proof.
  apply (proj1 detectPortFromLog_port_range "Visit http://localhost:8000").
  vm_compute; reflexivity.
Defined.

End PortSnifferFacts.

(** ** The invariant holds in every state the runner reaches *)
Module InvariantFacts.
Import Text Runner Invariant.

Create HintDb keeps discriminated.

Lemma Inv_init : Inv init.
Proof. split; simpl; intros *; rewrite ?lookup_empty; discriminate. Qed.

Lemma keeps_ret {A : Type} (a : A) : keeps (ret a).
Proof. intros st H. exact H. Qed.

Lemma keeps_bind {A B : Type} (m : M A) (f : A → M B) :
  keeps m → (∀ a, keeps (f a)) → keeps (bind m f).
Proof.
  intros Hm Hf st H. unfold bind.
  specialize (Hm st H). destruct (m st) as [a st']. simpl in Hm.
  apply Hf, Hm.
Qed.

Lemma keeps_gets {A : Type} (f : State → A) : keeps (gets f).
Proof. intros st H. exact H. Qed.

Lemma keeps_emit e : keeps (emit e).
Proof. intros st [? ? ? ? ?]. split; simpl; eauto. Qed.

Lemma keeps_setTimer task : keeps (setTimer task).
Proof.
  intros st [Hk Ht Hs Hl Hd]. split; simpl; eauto.
  - intros t task'. destruct (decide (nextTimer st = t)) as [->|Hne].
    + intros _. lia.
    + rewrite lookup_insert_ne by done. intros H. apply Ht in H. lia.
  - intros a t H. apply Hs in H. lia.
  - intros k info t H1 H2. specialize (Hl _ _ _ H1 H2). lia.
Qed.

Lemma keeps_clearTimer t : keeps (clearTimer t).
Proof.
  intros st [Hk Ht Hs Hl Hd]. split; simpl; eauto.
  intros t' task. destruct (decide (t = t')) as [->|Hne].
  - rewrite lookup_delete_eq. discriminate.
  - rewrite lookup_delete_ne by done. apply Ht.
Qed.

Lemma keeps_stats_delete a : keeps (modify (withStats (delete a))).
Proof.
  intros st [Hk Ht Hs Hl Hd]. split; simpl; eauto.
  - intros a' t. destruct (decide (a = a')) as [->|Hne].
    + rewrite lookup_delete_eq. discriminate.
    + rewrite lookup_delete_ne by done. apply Hs.
  - intros a' k info t. destruct (decide (a = a')) as [->|Hne].
    + rewrite lookup_delete_eq. discriminate.
    + rewrite lookup_delete_ne by done. exact (Hd a' k info t).
Qed.

Lemma keeps_stopping f : keeps (modify (withStopping f)).
Proof. intros st [? ? ? ? ?]. split; simpl; eauto. Qed.

Lemma keeps_running_delete a : keeps (modify (withRunning (delete a))).
Proof.
  intros st [Hk Ht Hs Hl Hd]. split; simpl; eauto.
  - intros k info. destruct (decide (a = k)) as [->|Hne].
    + rewrite lookup_delete_eq. discriminate.
    + rewrite lookup_delete_ne by done. apply Hk.
  - intros k info t. destruct (decide (a = k)) as [->|Hne].
    + rewrite lookup_delete_eq. discriminate.
    + rewrite lookup_delete_ne by done. apply Hl.
  - intros a' k info t Hst. destruct (decide (a = k)) as [->|Hne].
    + rewrite lookup_delete_eq. discriminate.
    + rewrite lookup_delete_ne by done. exact (Hd a' k info t Hst).
Qed.

(* an entry without a log poll, under its own appId *)
Lemma keeps_running_insert proc now a path :
  keeps (modify (withRunning (<[a := mkProcessInfo proc now a path None]>))).
Proof.
  intros st [Hk Ht Hs Hl Hd]. split; simpl; eauto.
  - intros k info. destruct (decide (a = k)) as [->|Hne].
    + rewrite lookup_insert_eq. intros [= <-]. reflexivity.
    + rewrite lookup_insert_ne by done. apply Hk.
  - intros k info t. destruct (decide (a = k)) as [->|Hne].
    + rewrite lookup_insert_eq. intros [= <-]. discriminate.
    + rewrite lookup_insert_ne by done. apply Hl.
  - intros a' k info t Hst. destruct (decide (a = k)) as [->|Hne].
    + rewrite lookup_insert_eq. intros [= <-]. discriminate.
    + rewrite lookup_insert_ne by done. exact (Hd a' k info t Hst).
Qed.

Lemma keeps_handles f : keeps (modify (withHandles f)).
Proof. intros st [? ? ? ? ?]. split; simpl; eauto. Qed.

Lemma keeps_newHandle k p : keeps (newHandle k p).
Proof. intros st [? ? ? ? ?]. split; simpl; eauto. Qed.

Hint Resolve keeps_ret keeps_gets keeps_emit keeps_setTimer keeps_clearTimer
  keeps_stats_delete keeps_stopping keeps_running_delete keeps_running_insert
  keeps_handles keeps_newHandle : keeps.

(* One step through a computation: binds are split, matches on values
   are taken apart. *)
Ltac keeps_step :=
  first
    [ solve [auto with keeps]
    | match goal with
      | |- keeps (bind _ _) => apply keeps_bind; [|intros ?]
      | |- keeps (match ?x with _ => _ end) => destruct x
      | |- keeps (if ?b then _ else _) => destruct b
      | |- keeps (let (_, _) := ?x in _) => destruct x
      end ].

Ltac keeps_auto := repeat keeps_step.


(* a computation that starts by reading the state may use the invariant
   on the state it reads *)
Lemma keeps_bind_gets {A B : Type} (g : State → A) (f : A → M B) :
  (∀ st, Inv st → Inv (snd (f (g st) st))) → keeps (bind (gets g) f).
Proof. intros H st HI. unfold bind, gets. apply H, HI. Qed.

Ltac at_state :=
  match goal with
  | HI : Inv ?st |- Inv (snd (?m ?st)) =>
      apply (fun K : keeps m => K st HI)
  end.

Lemma keeps_forEach {A : Type} (f : A → M unit) (l : list A) :
  (∀ x, keeps (f x)) → keeps (forEach f l).
Proof.
  intros Hf. induction l as [|x l IH]; simpl; keeps_auto.
Qed.

Lemma keeps_arm_stats a task :
  keeps (let* t := setTimer task in modify (withStats (<[a := t]>))).
Proof.
  intros st [Hk Ht Hs Hl Hd]. split; simpl; eauto.
  - intros t task'. destruct (decide (nextTimer st = t)) as [->|Hne].
    + intros _. lia.
    + rewrite lookup_insert_ne by done. intros H. apply Ht in H. lia.
  - intros a' t. destruct (decide (a = a')) as [->|Hne].
    + rewrite lookup_insert_eq. intros [= <-]. lia.
    + rewrite lookup_insert_ne by done. intros H. apply Hs in H. lia.
  - intros k info t H1 H2. specialize (Hl _ _ _ H1 H2). lia.
  - intros a' k info t. destruct (decide (a = a')) as [->|Hne].
    + rewrite lookup_insert_eq. intros [= <-] H1 H2.
      specialize (Hl _ _ _ H1 H2). lia.
    + rewrite lookup_insert_ne by done. exact (Hd a' k info t).
Qed.

Lemma keeps_arm_logPoll a path cb1 cb2 :
  keeps (let* logPoll := startLogPolling a path cb1 cb2 in
         setLogPollInterval a logPoll).
Proof.
  intros st [Hk Ht Hs Hl Hd]. split; simpl.
  - intros k info. rewrite lookup_alter. case_decide as Hka.
    + subst k. destruct (runningProcesses st !! a) as [old|] eqn:E; simpl;
        [|discriminate].
      intros [= <-]. simpl. eapply Hk, E.
    + apply Hk.
  - intros t task'. destruct (decide (nextTimer st = t)) as [->|Hne].
    + intros _. lia.
    + rewrite lookup_insert_ne by done. intros H. apply Ht in H. lia.
  - intros a' t H. apply Hs in H. lia.
  - intros k info t. rewrite lookup_alter. case_decide as Hka.
    + subst k. destruct (runningProcesses st !! a) as [old|] eqn:E; simpl;
        [|discriminate].
      intros [= <-]. simpl. intros [= <-]. lia.
    + intros H1 H2. specialize (Hl _ _ _ H1 H2). lia.
  - intros a' k info t Hst. rewrite lookup_alter. case_decide as Hka.
    + subst k. destruct (runningProcesses st !! a) as [old|] eqn:E; simpl;
        [|discriminate].
      intros [= <-]. simpl. intros [= <-]. apply Hs in Hst. lia.
    + exact (Hd a' k info t Hst).
Qed.

Lemma keeps_timers_update t task :
  keeps (modify (withTimers (fun ts =>
    match ts !! t with Some _ => <[t := task]> ts | None => ts end))).
Proof.
  intros st [Hk Ht Hs Hl Hd]. split; simpl; eauto.
  intros t' task'. destruct (timers st !! t) as [old|] eqn:E; [|apply Ht].
  destruct (decide (t = t')) as [->|Hne].
  - intros _. eapply Ht, E.
  - rewrite lookup_insert_ne by done. apply Ht.
Qed.

Hint Resolve keeps_arm_stats keeps_arm_logPoll keeps_timers_update : keeps.

Lemma keeps_stopLogPolling a : keeps (stopLogPolling a).
Proof.
  apply keeps_bind_gets. intros st HI.
  destruct (runningProcesses st !! a) as [info|] eqn:E; [|exact HI].
  destruct (logPollInterval info) as [t|]; [|exact HI].
  rewrite (inv_key _ HI _ _ E). at_state. keeps_auto.
Qed.

Lemma keeps_stopStatsMonitoring a : keeps (stopStatsMonitoring a).
Proof. unfold stopStatsMonitoring. keeps_auto. Qed.

Hint Resolve keeps_stopLogPolling keeps_stopStatsMonitoring : keeps.

Lemma keeps_cleanupProcessResources a : keeps (cleanupProcessResources a).
Proof. unfold cleanupProcessResources. keeps_auto. Qed.

Hint Resolve keeps_cleanupProcessResources : keeps.

Lemma keeps_onLog cb m : keeps (onLog cb m).
Proof. unfold onLog. keeps_auto. Qed.

Lemma keeps_notifyStopped cb : keeps (notifyStopped cb).
Proof. unfold notifyStopped. keeps_auto. Qed.

Lemma keeps_pidOf h : keeps (pidOf h).
Proof. unfold pidOf. keeps_auto. Qed.

Lemma keeps_isRecovered h : keeps (isRecovered h).
Proof. unfold isRecovered. keeps_auto. Qed.

Hint Resolve keeps_onLog keeps_notifyStopped keeps_pidOf keeps_isRecovered
  : keeps.

Lemma keeps_cleanupTerminatedProcess a r p cb1 cb2 :
  keeps (cleanupTerminatedProcess a r p cb1 cb2).
Proof. unfold cleanupTerminatedProcess. keeps_auto. Qed.

Lemma keeps_startStatsMonitoring a cb1 cb2 :
  keeps (startStatsMonitoring a cb1 cb2).
Proof. unfold startStatsMonitoring. keeps_auto. Qed.

Hint Resolve keeps_cleanupTerminatedProcess keeps_startStatsMonitoring : keeps.

Lemma keeps_statsTick alive now a cb1 cb2 :
  keeps (statsTick alive now a cb1 cb2).
Proof.
  unfold statsTick. keeps_auto.
Qed.

Lemma keeps_deliver cb1 cb2 line : keeps (deliver cb1 cb2 line).
Proof. unfold deliver. keeps_auto. Qed.

Hint Resolve keeps_deliver : keeps.

Lemma keeps_onData cb1 cb2 buffer chunk : keeps (onData cb1 cb2 buffer chunk).
Proof.
  unfold onData. keeps_auto. apply keeps_forEach. auto with keeps.
Qed.

Lemma keeps_readStream cb1 cb2 chunks :
  ∀ buffer, keeps (readStream cb1 cb2 buffer chunks).
Proof.
  induction chunks as [|chunk chunks IH]; intros buffer; simpl; keeps_auto.
  apply keeps_onData.
Qed.

Lemma keeps_logPollTick file hwm t a path cb1 cb2 pos :
  keeps (logPollTick file hwm t a path cb1 cb2 pos).
Proof. unfold logPollTick. keeps_auto. apply keeps_readStream. Qed.

Lemma keeps_setWatchInterval h w : keeps (setWatchInterval h w).
Proof. unfold setWatchInterval. keeps_auto. Qed.

Lemma keeps_setListeners h l : keeps (setListeners h l).
Proof. unfold setListeners. keeps_auto. Qed.

Hint Resolve keeps_setWatchInterval keeps_setListeners : keeps.

Lemma keeps_stopWatch h : keeps (stopWatch h).
Proof. unfold stopWatch. keeps_auto. Qed.

Lemma keeps_startWatch h : keeps (startWatch h).
Proof. unfold startWatch. keeps_auto. Qed.

Lemma keeps_clearStopping a : keeps (clearStopping a).
Proof. unfold clearStopping. keeps_auto. Qed.

Hint Resolve keeps_stopWatch keeps_startWatch keeps_clearStopping : keeps.

Lemma keeps_onClose h l code : keeps (onClose h l code).
Proof. unfold onClose. keeps_auto. Qed.

Lemma keeps_onError h l message : keeps (onError h l message).
Proof. unfold onError. keeps_auto. Qed.

Hint Resolve keeps_onClose keeps_onError : keeps.

Lemma keeps_emitClose h code : keeps (emitClose h code).
Proof. unfold emitClose. keeps_auto. Qed.

Lemma keeps_emitError h message : keeps (emitError h message).
Proof. unfold emitError. keeps_auto. Qed.

Hint Resolve keeps_emitClose keeps_emitError : keeps.

Lemma keeps_watchTick alive h : keeps (watchTick alive h).
Proof. unfold watchTick. keeps_auto. Qed.

Lemma keeps_setupProcessHandlers now proc a path cb1 cb2 cb3 logFilePath :
  keeps (setupProcessHandlers now proc a path cb1 cb2 cb3 logFilePath).
Proof. unfold setupProcessHandlers. keeps_auto. Qed.

Hint Resolve keeps_setupProcessHandlers : keeps.

Lemma keeps_launch w args a path env cb1 cb2 cb3 :
  keeps (launch w args a path env cb1 cb2 cb3).
Proof. unfold launch. keeps_auto. Qed.

Hint Resolve keeps_launch : keeps.

Lemma keeps_runApp w a path runCommand env cb1 cb2 cb3 :
  keeps (runApp w a path runCommand env cb1 cb2 cb3).
Proof. unfold runApp. keeps_auto. Qed.

Lemma keeps_sendSigterm outcome p cb : keeps (sendSigterm outcome p cb).
Proof. unfold sendSigterm. keeps_auto. Qed.

Hint Resolve keeps_sendSigterm : keeps.

Lemma keeps_stopApp w a cb : keeps (stopApp w a cb).
Proof. unfold stopApp. keeps_auto. Qed.

Lemma keeps_killTimeout outcome a proc cb : keeps (killTimeout outcome a proc cb).
Proof. unfold killTimeout. keeps_auto. Qed.

Lemma keeps_recoverProcess w a p path cb1 cb2 cb3 :
  keeps (recoverProcess w a p path cb1 cb2 cb3).
Proof.
  unfold recoverProcess. keeps_auto.
  apply keeps_forEach. intros line. keeps_auto.
Qed.

Lemma keeps_fireTimer o t : keeps (fireTimer o t).
Proof.
  unfold fireTimer. keeps_auto.
  - apply keeps_statsTick.
  - apply keeps_logPollTick.
  - apply keeps_watchTick.
  - apply keeps_killTimeout.
Qed.

Lemma Inv_step st e : Inv st → Inv (step st e).
Proof.
  destruct e; simpl.
  - apply keeps_runApp.
  - apply keeps_stopApp.
  - apply keeps_recoverProcess.
  - apply keeps_fireTimer.
  - apply keeps_emitClose.
  - apply keeps_emitError.
Qed.

Lemma Inv_steps es : ∀ st, Inv st → Inv (steps st es).
Proof.
  induction es as [|e es IH]; intros st HI; simpl; [exact HI|].
  apply IH, Inv_step, HI.
Qed.

(* every state the runner reaches from its initial state *)
Lemma Inv_reachable es : Inv (steps init es).
Proof. apply Inv_steps, Inv_init. Qed.

End InvariantFacts.

(** ** Termination paths and the log tailer, on concrete runs *)
Section Runs.
Import Runner Samples.

(** C2: an adopted process dies; the health poll sees it first and the
    liveness watch of the handle 300 ms later.  The stop callback is
    called by both, and the log poll of the entry stays armed. *)
Theorem adopted_process_stop_notified_twice :
  let st :=
    steps init
      [ RecoverProcess (mkRecoverWorld "/logs" Missing 1000%Z) "app" 4242%Z
          "/apps/app" "log" (Some "port") (Some "stopped");
        TimerFires tickDead 1%nat;        (* the health poll *)
        TimerFires tickDead 2%nat ]       (* the watch of the handle *)
  in
  runningProcesses st !! "app" = None
  ∧ stopNotifications "stopped" (trace st) = 2%nat
  ∧ timers st !! 0%nat =
      Some (LogPollTimer "app" "/logs/app.log" "log" (Some "port") 0%Z).
Proof. vm_compute. repeat split; reflexivity. Qed.

(** C2, the exit of a spawned child reported by the 'close' event alone:
    one notification, the entry removed, the health poll disarmed, and
    the log poll still armed. *)
Lemma spawned_process_close_leaves_log_poll :
  let st :=
    steps init
      [ RunApp hostWorld "app" "/apps/app" (Some "python main.py") None
          "log" (Some "port") (Some "stopped");
        ProcessCloses 0%nat (Some 0%Z) ]
  in
  runningProcesses st !! "app" = None
  ∧ stopNotifications "stopped" (trace st) = 1%nat
  ∧ statsMonitoringTimers st !! "app" = None
  ∧ timers st !! 1%nat = None
  ∧ timers st !! 0%nat =
      Some (LogPollTimer "app" "/logs/app.log" "log" (Some "port") 0%Z).
Proof. vm_compute. repeat split; reflexivity. Qed.

(** C8: the log file holds "hel" at one poll and "hello", "world" as two
    complete lines at the next.  The first poll delivers nothing and
    moves the offset past "hel"; the second delivers "lo" and "world":
    the head of the line is lost. *)
Theorem log_tailer_truncates_line_across_polls :
  let st :=
    steps init
      [ RunApp hostWorld "app" "/apps/app" (Some "python main.py") None
          "log" (Some "port") (Some "stopped");
        TimerFires (tickWithLog "hel") 0%nat;
        TimerFires (tickWithLog ("hello" +:+ nl +:+ "world" +:+ nl)) 0%nat ]
  in
  deliveredLines "log" (trace st) = ["lo"; "world"].
Proof. vm_compute. reflexivity. Qed.

End Runs.

(** ** The log tailer within one poll *)
Section TailerFacts.
Import Regex Text Runner.

Lemma splitOn_nonempty sep s : splitOn sep s ≠ [].
Proof.
  destruct s as [|c s]; simpl; [discriminate|].
  destruct (sep c); [discriminate|].
  destruct (splitOn sep s); discriminate.
Qed.

Lemma splitOn_app sep a b :
  splitOn sep (a ++ b) =
  (removelast (splitOn sep a)
     ++ (List.last (splitOn sep a) [] ++ hd [] (splitOn sep b))
        :: tl (splitOn sep b))%list.
Proof.
  induction a as [|c a IH].
  - simpl. destruct (splitOn sep b) eqn:E; [|reflexivity].
    exfalso. exact (splitOn_nonempty sep b E).
  - cbn [app splitOn]. destruct (sep c).
    + rewrite IH.
      destruct (splitOn sep a) as [|x xs] eqn:E;
        [exfalso; exact (splitOn_nonempty sep a E)|].
      reflexivity.
    + rewrite IH.
      destruct (splitOn sep a) as [|x xs] eqn:E;
        [exfalso; exact (splitOn_nonempty sep a E)|].
      destruct xs as [|y ys]; reflexivity.
Qed.

(* a piece of a split holds no separator, and splits into itself *)
Lemma splitOn_free sep s :
  forallb (fun c => negb (sep c)) s = true → splitOn sep s = [s].
Proof.
  induction s as [|c s IH]; simpl; [reflexivity|].
  destruct (sep c); simpl; [discriminate|].
  intros H. rewrite (IH H). reflexivity.
Qed.

Lemma splitOn_pieces sep s :
  ∀ piece, In piece (splitOn sep s) →
           forallb (fun c => negb (sep c)) piece = true.
Proof.
  induction s as [|c s IH]; simpl.
  - intros piece [<-|[]]. reflexivity.
  - destruct (sep c) eqn:Hc.
    + intros piece [<-|H]; [reflexivity|apply IH, H].
    + destruct (splitOn sep s) as [|x xs] eqn:E.
      * intros piece [<-|[]]. simpl. rewrite Hc. reflexivity.
      * intros piece [<-|H].
        -- simpl. rewrite Hc. simpl. apply IH. left. reflexivity.
        -- apply IH. right. exact H.
Qed.

Lemma list_ascii_of_append a b :
  list_ascii_of_string (a +:+ b)
  = (list_ascii_of_string a ++ list_ascii_of_string b)%list.
Proof.
  induction a as [|c a IH]; [reflexivity|].
  exact (f_equal (cons c) IH).
Qed.

Lemma string_of_list_app x y :
  string_of_list_ascii (x ++ y)
  = string_of_list_ascii x +:+ string_of_list_ascii y.
Proof.
  induction x as [|c x IH]; [reflexivity|].
  exact (f_equal (String c) IH).
Qed.

Lemma append_assoc (a b c : string) : (a +:+ b) +:+ c = a +:+ (b +:+ c).
Proof.
  induction a as [|x a IH]; [reflexivity|].
  exact (f_equal (String x) IH).
Qed.

Lemma append_empty (a : string) : a +:+ "" = a.
Proof.
  induction a as [|x a IH]; [reflexivity|].
  exact (f_equal (String x) IH).
Qed.

Lemma map_removelast {A B : Type} (f : A → B) l :
  map f (removelast l) = removelast (map f l).
Proof.
  induction l as [|x l IH]; [reflexivity|].
  destruct l as [|y l]; [reflexivity|].
  cbn [removelast map] in *. rewrite IH. reflexivity.
Qed.

Lemma last_map {A B : Type} (f : A → B) l d :
  List.last (map f l) (f d) = f (List.last l d).
Proof.
  induction l as [|x l IH]; [reflexivity|].
  destruct l as [|y l]; [reflexivity|].
  cbn [List.last map] in *. exact IH.
Qed.

Lemma split_app a b :
  split (a +:+ b) =
  (removelast (split a)
     ++ (List.last (split a) "" +:+ hd "" (split b)) :: tl (split b))%list.
Proof.
  unfold split. rewrite list_ascii_of_append, splitOn_app.
  rewrite map_app. cbn [map]. rewrite map_removelast.
  rewrite string_of_list_app.
  change "" with (string_of_list_ascii []) at 1 2.
  rewrite last_map.
  destruct (splitOn isNewline (list_ascii_of_string b)); reflexivity.
Qed.

Lemma split_piece s :
  split (List.last (split s) "") = [List.last (split s) ""].
Proof.
  unfold split at 2 3.
  change "" with (string_of_list_ascii []) at 1 2.
  rewrite !last_map.
  unfold split. rewrite list_ascii_of_string_of_list_ascii.
  rewrite splitOn_free; [reflexivity|].
  apply (splitOn_pieces isNewline (list_ascii_of_string s)).
  destruct (splitOn isNewline (list_ascii_of_string s)) as [|x xs] eqn:E;
    [exfalso; exact (splitOn_nonempty _ _ E)|].
  rewrite (app_removelast_last [] (l := x :: xs)) at 2 by discriminate.
  apply in_or_app. right. left. reflexivity.
Qed.

Lemma forEach_app {A : Type} (f : A → M unit) l1 l2 st :
  forEach f (l1 ++ l2) st = (forEach f l1 >> forEach f l2) st.
Proof.
  revert st. induction l1 as [|x l1 IH]; intros st; simpl.
  - reflexivity.
  - unfold bind in *. destruct (f x st) as [u st1]. apply IH.
Qed.

(* One poll delivers the complete lines of what it reads, whatever the
   chunks it is read in; what follows the last newline is held back
   between the chunks and dropped at the end of the stream. *)
Lemma readStream_delivers cb1 cb2 chunks :
  ∀ buffer st,
    split buffer = [buffer] →
    readStream cb1 cb2 buffer chunks st
    = forEach (deliver cb1 cb2)
        (removelast (split (buffer +:+ foldr String.append "" chunks))) st.
Proof.
  induction chunks as [|chunk chunks IH]; intros buffer st Hbuffer; simpl.
  - rewrite append_empty, Hbuffer. reflexivity.
  - rewrite <- append_assoc.
    rewrite (split_app (buffer +:+ chunk)).
    rewrite removelast_app by discriminate.
    rewrite forEach_app.
    unfold bind, onData, popLast.
    unfold bind, ret.
    destruct (forEach (deliver cb1 cb2)
                (removelast (split (buffer +:+ chunk))) st) as [u st1].
    rewrite (IH _ st1 (split_piece _)).
    rewrite (split_app (List.last (split (buffer +:+ chunk)) "")).
    rewrite split_piece. reflexivity.
Qed.

Lemma chunksOf_concat highWaterMark :
  (0 < highWaterMark)%nat →
  ∀ fuel s,
    (length s ≤ fuel)%nat →
    foldr String.append "" (chunksOf fuel highWaterMark s)
    = string_of_list_ascii s.
Proof.
  intros Hpos. induction fuel as [|fuel IH]; intros s Hlen.
  - destruct s as [|c s]; [reflexivity|]. simpl in Hlen. lia.
  - destruct s as [|c s]; [reflexivity|].
    cbn [chunksOf foldr]. rewrite IH.
    + rewrite <- string_of_list_app, take_drop. reflexivity.
    + rewrite length_drop. simpl in *. lia.
Qed.

(* What one poll does: it delivers the complete lines of the bytes after
   the remembered offset, and moves the offset to the end of the file. *)
Lemma logPollTick_delivers content highWaterMark t a path cb1 cb2 pos st :
  (0 < highWaterMark)%nat →
  (size content >? pos)%Z = true →
  logPollTick (Some content) highWaterMark t a path cb1 cb2 pos st
  = (forEach (deliver cb1 cb2)
       (removelast (split (substringFrom pos content))) >>
     modify (withTimers (fun ts =>
       match ts !! t with
       | Some _ => <[t := LogPollTimer a path cb1 cb2 (size content)]> ts
       | None => ts
       end))) st.
Proof.
  intros Hpos Hsize. unfold logPollTick. rewrite Hsize. unfold bind.
  rewrite readStream_delivers by reflexivity.
  rewrite chunksOf_concat by (exact Hpos || lia).
  rewrite string_of_list_ascii_of_string.
  reflexivity.
Qed.

End TailerFacts.

(** ** runApp: the guard, the argument vector, the environment *)
Section Launch.
Import Text Runner Invariant InvariantFacts Samples.

Ltac unfold_runner :=
  unfold runApp, launch, recoverProcess, setupProcessHandlers, stopApp,
    killTimeout, sendSigterm;
  unfold startStatsMonitoring, startWatch, stopWatch, startLogPolling,
    setLogPollInterval, setListeners, setWatchInterval, newHandle,
    stopStatsMonitoring, stopLogPolling, cleanupProcessResources,
    clearStopping, pidOf, isRecovered, notifyStopped, onLog, clearTimer;
  unfold bind, gets, modify, ret, emit, setTimer; simpl.

Lemma truthy_path dir a : truthy (dir +:+ "/" +:+ a +:+ ".log") = true.
Proof. destruct dir; reflexivity. Qed.

Lemma launch_spawns w args a path env cb1 cb2 cb3 st :
  launchThrows w = None →
  fst (launch w args a path env cb1 cb2 cb3 st) = Success (spawnedPid w)
  ∧ trace (snd (launch w args a path env cb1 cb2 cb3 st)) =
    (trace st ++ [Spawn (getUvCommand w) args path (childEnv w env);
                  OnLog cb1 (ProcessStarted (spawnedPid w))])%list.
Proof.
  intros Hthrow.
  unfold_runner. rewrite Hthrow, truthy_path. simpl.
  destruct (statsMonitoringTimers st !! a); simpl;
    repeat (rewrite lookup_insert_eq; simpl); rewrite <- app_assoc; done.
Qed.

Lemma launch_throws w args a path env cb1 cb2 cb3 st message :
  launchThrows w = Some message →
  launch w args a path env cb1 cb2 cb3 st = (Failure (StartFailed message), st).
Proof. intros H. unfold launch. rewrite H. reflexivity. Qed.

Lemma launch_effects w args a path env cb1 cb2 cb3 st p :
  fst (launch w args a path env cb1 cb2 cb3 st) = Success p →
  trace (snd (launch w args a path env cb1 cb2 cb3 st)) =
  (trace st ++ [Spawn (getUvCommand w) args path (childEnv w env);
                OnLog cb1 (ProcessStarted p)])%list.
Proof.
  destruct (launchThrows w) as [message|] eqn:Hthrow.
  - rewrite (launch_throws _ _ _ _ _ _ _ _ _ message Hthrow). discriminate.
  - destruct (launch_spawns w args a path env cb1 cb2 cb3 st Hthrow)
      as [Hr Ht].
    rewrite Hr, Ht. intros [= <-]. reflexivity.
Qed.

Lemma runApp_effects w a path runCommand env cb1 cb2 cb3 st p :
  fst (runApp w a path runCommand env cb1 cb2 cb3 st) = Success p →
  ∃ logged args,
    trace (snd (runApp w a path runCommand env cb1 cb2 cb3 st)) =
    (trace st ++ [OnLog cb1 (CommandRun logged);
                  Spawn (getUvCommand w) args path (childEnv w env);
                  OnLog cb1 (ProcessStarted p)])%list.
Proof.
  unfold runApp, bind, gets, onLog, emit. simpl.
  repeat case_match; simpl; try discriminate;
    intros Hsucc; do 2 eexists;
    rewrite (launch_effects _ _ _ _ _ _ _ _ _ _ Hsucc); simpl;
    rewrite <- app_assoc; reflexivity.
Qed.

Lemma runApp_already_running w a path runCommand env cb1 cb2 cb3 st :
  is_Some (runningProcesses st !! a) →
  runApp w a path runCommand env cb1 cb2 cb3 st = (Failure AlreadyRunning, st).
Proof.
  intros [info Hinfo]. unfold runApp, bind, gets. rewrite Hinfo. reflexivity.
Qed.


Lemma registry_keyed_by_appId es k1 k2 info1 info2 :
  runningProcesses (steps init es) !! k1 = Some info1 →
  runningProcesses (steps init es) !! k2 = Some info2 →
  appId info1 = appId info2 → k1 = k2 ∧ info1 = info2.
Proof.
  intros H1 H2 Heq.
  pose proof (inv_key _ (Inv_reachable es) _ _ H1) as E1.
  pose proof (inv_key _ (Inv_reachable es) _ _ H2) as E2.
  assert (k1 = k2) as -> by congruence.
  split; [reflexivity|congruence].
Qed.

(** C1: in every state the runner reaches, two registry entries for the
    same appId are one entry; and runApp, called while the registry has an
    entry for appId, fails with AlreadyRunning and leaves the whole state
    of the runner, registry, handles and timers, as it was. *)
Theorem launch_of_running_app_is_refused :
  (∀ es k1 k2 info1 info2,
     runningProcesses (steps init es) !! k1 = Some info1 →
     runningProcesses (steps init es) !! k2 = Some info2 →
     appId info1 = appId info2 → k1 = k2 ∧ info1 = info2)
  ∧ (∀ w a path runCommand env cb1 cb2 cb3 st,
       is_Some (runningProcesses st !! a) →
       runApp w a path runCommand env cb1 cb2 cb3 st
       = (Failure AlreadyRunning, st)).
Proof.
  split.
  - exact registry_keyed_by_appId.
  - intros. apply runApp_already_running. assumption.
Qed.

Lemma launch_of_running_app_is_refused_witness :
  let st :=
    steps init
      [RunApp hostWorld "app" "/apps/app" (Some "python main.py") None
         "log" None None] in
  (∃ info, runningProcesses st !! "app" = Some info ∧ appId info = "app")
  ∧ runApp hostWorld "app" "/apps/app" (Some "python other.py") None "log" None
      None st
    = (Failure AlreadyRunning, st).
Proof.
  intros st.
  assert (∃ info, runningProcesses st !! "app" = Some info) as [info Hinfo]
    by (vm_compute; eexists; reflexivity).
  split.
  - exists info. split; [exact Hinfo|].
    destruct (proj1 launch_of_running_app_is_refused
                [RunApp hostWorld "app" "/apps/app" (Some "python main.py") None
                   "log" None None]
                "app" (appId info) info info Hinfo) as [Hk _].
    + fold st. rewrite <- Hinfo. f_equal.
      vm_compute in Hinfo. injection Hinfo as <-. reflexivity.
    + reflexivity.
    + symmetry. exact Hk.
  - apply (proj2 launch_of_running_app_is_refused). exists info. exact Hinfo.
Defined.

Lemma spawnArgs_app tr1 tr2 :
  spawnArgs (tr1 ++ tr2) = (spawnArgs tr1 ++ spawnArgs tr2)%list.
Proof. apply omap_app. Qed.

Lemma spawnEnvs_app tr1 tr2 :
  spawnEnvs (tr1 ++ tr2) = (spawnEnvs tr1 ++ spawnEnvs tr2)%list.
Proof. apply omap_app. Qed.




Lemma childEnv_caller w env k v :
  default ∅ env !! k = Some v → childEnv w env !! k = Some v.
Proof.
  intros H. unfold childEnv, spread. apply lookup_union_Some_l. exact H.
Qed.

Lemma childEnv_inherited w env k :
  default ∅ env !! k = None → k ≠ "PYTHONUNBUFFERED" →
  childEnv w env !! k = processEnv w !! k.
Proof.
  intros H Hk. unfold childEnv, spread.
  rewrite lookup_union_r by exact H.
  rewrite lookup_insert_ne by (intros E; apply Hk; symmetry; exact E).
  rewrite lookup_union_l by apply lookup_empty. reflexivity.
Qed.

Lemma childEnv_unbuffered w env :
  default ∅ env !! "PYTHONUNBUFFERED" = None →
  childEnv w env !! "PYTHONUNBUFFERED" = Some "1".
Proof.
  intros H. unfold childEnv, spread.
  rewrite lookup_union_r by exact H. apply lookup_insert_eq.
Qed.

(** C10: a successful runApp spawns once, with the environment
    { ...process.env, PYTHONUNBUFFERED: '1', ...env }: a key of the caller
    has the caller's value; PYTHONUNBUFFERED is "1" unless the caller
    gives it; every other key has the supervisor's value, so that every
    key of the supervisor's environment reaches the child. *)
Theorem child_environment_precedence
  w a path runCommand env cb1 cb2 cb3 st p :
  fst (runApp w a path runCommand env cb1 cb2 cb3 st) = Success p →
  ∃ childenv,
    spawnEnvs (trace (snd (runApp w a path runCommand env cb1 cb2 cb3 st)))
    = (spawnEnvs (trace st) ++ [childenv])%list
    ∧ childenv = default ∅ env ∪ <["PYTHONUNBUFFERED" := "1"]> (processEnv w)
    ∧ (∀ k v, default ∅ env !! k = Some v → childenv !! k = Some v)
    ∧ (default ∅ env !! "PYTHONUNBUFFERED" = None →
       childenv !! "PYTHONUNBUFFERED" = Some "1")
    ∧ (∀ k, default ∅ env !! k = None → k ≠ "PYTHONUNBUFFERED" →
       childenv !! k = processEnv w !! k)
    ∧ (∀ k, is_Some (processEnv w !! k) → is_Some (childenv !! k)).
Proof.
  intros Hsucc. exists (childEnv w env).
  destruct (runApp_effects _ _ _ _ _ _ _ _ _ _ Hsucc) as (logged & args & Ht).
  split.
  { rewrite Ht, spawnEnvs_app. reflexivity. }
  split.
  { unfold childEnv, spread. rewrite (right_id_L ∅ (∪)). reflexivity. }
  split; [apply childEnv_caller|].
  split; [apply childEnv_unbuffered|].
  split; [apply childEnv_inherited|].
  intros k [v Hv].
  destruct (default ∅ env !! k) as [u|] eqn:Hu.
  - exists u. apply childEnv_caller, Hu.
  - destruct (decide (k = "PYTHONUNBUFFERED")) as [->|Hk].
    + exists "1". apply childEnv_unbuffered, Hu.
    + exists v. rewrite childEnv_inherited by assumption. exact Hv.
Qed.

Lemma child_environment_precedence_witness :
  let w :=
    mkLaunchWorld (fun _ => None) plainParse "uv" "/logs"
      {[ "PATH" := "/usr/bin"; "PYTHONUNBUFFERED" := "0"; "HOME" := "/root" ]}
      None (Some 4242%Z) 1000%Z in
  let env : gmap string string := {[ "HOME" := "/srv"; "PORT" := "8000" ]} in
  ∃ childenv,
    spawnEnvs (trace (snd (runApp w "app" "/apps/app" (Some "python main.py")
                             (Some env) "log" None None init)))
    = [childenv]
    ∧ childenv !! "HOME" = Some "/srv"
    ∧ childenv !! "PORT" = Some "8000"
    ∧ childenv !! "PYTHONUNBUFFERED" = Some "1"
    ∧ childenv !! "PATH" = Some "/usr/bin".
Proof.
  intros w env.
  destruct (child_environment_precedence w "app" "/apps/app"
              (Some "python main.py") (Some env) "log" None None init
              (Some 4242%Z)) as (childenv & Hs & _ & Hc & Hu & Hi & _).
  { vm_compute. reflexivity. }
  exists childenv. split; [exact Hs|].
  split; [apply Hc; vm_compute; reflexivity|].
  split; [apply Hc; vm_compute; reflexivity|].
  split; [apply Hu; vm_compute; reflexivity|].
  rewrite Hi; [vm_compute; reflexivity|vm_compute; reflexivity|discriminate].
Defined.

End Launch.

(** ** stopApp: what it stops, and what it does with a failed signal *)
Section Stop.
Import Text Runner Invariant InvariantFacts Samples.

Ltac unfold_stopApp :=
  unfold stopApp, sendSigterm, stopStatsMonitoring, pidOf, onLog, clearTimer;
  unfold bind, gets, modify, ret, emit, setTimer; simpl.





(** C7, as the code has it: when the kill primitive reports a failure
    through its callback, stopApp logs a warning with the platform
    message and returns success; only an exception thrown while
    signalling is wrapped and returned as a failure. *)
Theorem stopApp_logs_signal_failure w a cb st info p message :
  runningProcesses st !! a = Some info →
  truthyPid (handles st !! process info ≫= pid) = Some p →
  stoppingProcesses st !! a = None →
  (sigterm w = KillError message →
     fst (stopApp w a cb st) = Success None
     ∧ trace (snd (stopApp w a cb st))
       = (trace st ++ [OnLog cb ProcessStopping]
            ++ (if isWindows w then [OnLog cb WaitingForFlush] else [])
            ++ [Kill p SIGTERM; OnLog cb (SigtermWarning message);
                OnLog cb StopRequested])%list)
  ∧ (sigterm w = KillThrows message →
     fst (stopApp w a cb st) = Failure (StopFailed message)).
Proof.
  intros Hinfo Hpid Hstop.
  split; intros Hkill; unfold_stopApp; rewrite Hinfo; simpl;
    rewrite Hpid, Hstop; simpl;
    destruct (statsMonitoringTimers st !! a); simpl;
    destruct (isWindows w); simpl; rewrite Hkill; simpl;
    try reflexivity; split; try reflexivity;
    rewrite <- ?app_assoc; reflexivity.
Qed.

Lemma stopApp_logs_signal_failure_witness :
  let st :=
    steps init
      [RunApp hostWorld "app" "/apps/app" (Some "python main.py") None
         "log" (Some "port") (Some "stopped")] in
  fst (stopApp (mkStopWorld false (KillError "EPERM")) "app" "log" st)
  = Success None
  ∧ fst (stopApp (mkStopWorld false (KillThrows "EINVAL")) "app" "log" st)
    = Failure (StopFailed "EINVAL").
Proof.
  intros st.
  assert (∃ info, runningProcesses st !! "app" = Some info) as [info Hinfo]
    by (vm_compute; eexists; reflexivity).
  assert (truthyPid (handles st !! process info ≫= pid) = Some 4242%Z) as Hp.
  { vm_compute in Hinfo. injection Hinfo as <-. vm_compute. reflexivity. }
  assert (stoppingProcesses st !! "app" = None) as Hs
    by (vm_compute; reflexivity).
  split.
  - apply (proj1 (stopApp_logs_signal_failure
                    (mkStopWorld false (KillError "EPERM")) "app" "log" st
                    info 4242%Z "EPERM" Hinfo Hp Hs) eq_refl).
  - apply (proj2 (stopApp_logs_signal_failure
                    (mkStopWorld false (KillThrows "EINVAL")) "app" "log" st
                    info 4242%Z "EINVAL" Hinfo Hp Hs) eq_refl).
Defined.

(** C7, as stated, fails: the signal cannot be delivered (EPERM), and
    stopApp reports success; the failure only shows in the log. *)
Lemma stopApp_swallows_signal_failure :
  let st :=
    steps init
      [RunApp hostWorld "app" "/apps/app" (Some "python main.py") None
         "log" (Some "port") (Some "stopped")] in
  let after :=
    stopApp (mkStopWorld false (KillError "EPERM")) "app" "log" st in
  fst after = Success None
  ∧ trace (snd after)
    = (trace st ++ [OnLog "log" ProcessStopping; Kill 4242%Z SIGTERM;
                    OnLog "log" (SigtermWarning "EPERM");
                    OnLog "log" StopRequested])%list.
Proof. vm_compute. split; reflexivity. Qed.

End Stop.

(** ** The recovery pass *)
Section Recovery.
Import Text Runner.

Lemma replayed_lines_only_log cb lines :
  ∀ st, ∃ tr,
    forEach (fun line =>
      if truthy (trim line) then onLog cb (Line line) else ret tt) lines st
    = (tt, mkState (runningProcesses st) (stoppingProcesses st)
             (statsMonitoringTimers st) (timers st) (handles st)
             (nextTimer st) (nextHandle st) tr).
Proof.
  induction lines as [|line lines IH]; intros st; simpl.
  - exists (trace st). destruct st; reflexivity.
  - unfold bind. destruct (truthy (trim line)); simpl.
    + destruct (IH (snd (onLog cb (Line line) st))) as [tr Htr].
      exists tr. unfold onLog, emit in *. simpl in *. exact Htr.
    + destruct (IH st) as [tr Htr]. exists tr. exact Htr.
Qed.

(* the messages about the previous log file change the trace only *)
Lemma recovery_messages_only_log (w : RecoverWorld) cb st :
  ∃ tr,
    match logFile w with
    | Readable existingLogs =>
        onLog cb RecoveryLoading >>
        forEach (fun line =>
          if truthy (trim line) then onLog cb (Line line) else ret tt)
          (split existingLogs) >>
        onLog cb RecoveryLoaded
    | Unreadable message =>
        onLog cb RecoveryLoading >> onLog cb (RecoveryWarning message)
    | Missing => onLog cb RecoveryNoFile
    end st
    = (tt, mkState (runningProcesses st) (stoppingProcesses st)
             (statsMonitoringTimers st) (timers st) (handles st)
             (nextTimer st) (nextHandle st) tr).
Proof.
  destruct (logFile w) as [|existingLogs|message].
  - eexists. unfold onLog, emit. reflexivity.
  - unfold bind.
    destruct (onLog cb RecoveryLoading st) as [u s1] eqn:E1.
    destruct (replayed_lines_only_log cb (split existingLogs) s1) as [tr Htr].
    rewrite Htr. unfold onLog, emit in *. simpl.
    injection E1 as _ <-. simpl. eexists. reflexivity.
  - eexists. unfold bind, onLog, emit. simpl. reflexivity.
Qed.

(* what recoverProcess leaves in the registry and among the handles *)
Lemma recoverProcess_adopts w a p path cb1 cb2 cb3 st :
  let st' := snd (recoverProcess w a p path cb1 cb2 cb3 st) in
  runningProcesses st' !! a
  = Some (mkProcessInfo (nextHandle st) (recoverTime w) a path
            (Some (nextTimer st)))
  ∧ (∀ k, k ≠ a → runningProcesses st' !! k = runningProcesses st !! k)
  ∧ handles st' !! nextHandle st ≫= pid = Some p
  ∧ (∀ h, h ≠ nextHandle st → handles st' !! h = handles st !! h)
  ∧ nextHandle st' = S (nextHandle st).
Proof.
  intros st'. assert (st' = snd (recoverProcess w a p path cb1 cb2 cb3 st))
    as Hst' by reflexivity.
  clearbody st'. revert Hst'.
  unfold recoverProcess.
  destruct (recovery_messages_only_log w cb1 st) as [tr Htr].
  unfold bind at 1. rewrite Htr. clear Htr.
  unfold setupProcessHandlers, startStatsMonitoring, startWatch, stopWatch,
    startLogPolling, setLogPollInterval, setListeners, setWatchInterval,
    newHandle, pidOf, isRecovered, onLog.
  unfold bind, gets, modify, ret, emit, setTimer. simpl.
  rewrite truthy_path. simpl.
  rewrite lookup_insert_eq. simpl.
  destruct (statsMonitoringTimers st !! a); simpl;
    repeat (rewrite lookup_insert_eq; simpl); intros ->; simpl.
  all: repeat split.
  all: try (rewrite lookup_alter; rewrite decide_True by reflexivity;
            rewrite lookup_insert_eq; reflexivity).
  all: try (intros k Hk; rewrite lookup_alter_ne by congruence;
            rewrite lookup_insert_ne by congruence; reflexivity).
  all: try (intros h Hh; rewrite !lookup_insert_ne by congruence; reflexivity).
  all: try (rewrite lookup_insert_eq; reflexivity).
Qed.


Import Main.

Section Pass.

Variables encryptSecret decryptSecret : string → string.
Variable isProcessAlive : Z → bool.
Variable recoverWorld : string → RecoverWorld.

(* a turn of the loop for another application leaves this one alone *)
Lemma recoverEntry_other (s : MainState) (entry : string * AppInfo) id :
  fst entry ≠ id →
  let s' := recoverEntry isProcessAlive recoverWorld s entry in
  fst s' !! id = fst s !! id
  ∧ runningProcesses (snd s') !! id = runningProcesses (snd s) !! id
  ∧ (nextHandle (snd s) ≤ nextHandle (snd s'))%nat
  ∧ (∀ h, (h < nextHandle (snd s))%nat →
          handles (snd s') !! h = handles (snd s) !! h).
Proof.
  destruct s as [apps runner], entry as [id' appInfo]. simpl. intros Hne.
  destruct (Main.pid appInfo) as [p|]; [destruct (isProcessAlive p)|]; simpl.
  - destruct (recoverProcess_adopts (recoverWorld id') id' p
                (default "" (Main.installPath appInfo)) id' (Some id')
                (Some id') runner) as (_ & Hr & _ & Hh & Hn).
    rewrite lookup_insert_ne by exact Hne.
    repeat split.
    + apply Hr. congruence.
    + rewrite Hn. lia.
    + intros h Hlt. apply Hh. lia.
  - rewrite lookup_insert_ne by exact Hne. repeat split; reflexivity || lia.
  - rewrite lookup_insert_ne by exact Hne. repeat split; reflexivity || lia.
Qed.

Lemma recoverEntries_other (entries : list (string * AppInfo)) id :
  ∀ s : MainState,
    id ∉ entries.*1 →
    let s' := foldl (recoverEntry isProcessAlive recoverWorld) s entries in
    fst s' !! id = fst s !! id
    ∧ runningProcesses (snd s') !! id = runningProcesses (snd s) !! id
    ∧ (nextHandle (snd s) ≤ nextHandle (snd s'))%nat
    ∧ (∀ h, (h < nextHandle (snd s))%nat →
            handles (snd s') !! h = handles (snd s) !! h).
Proof.
  induction entries as [|entry entries IH]; intros s Hid; simpl.
  - repeat split; reflexivity || lia.
  - rewrite fmap_cons, not_elem_of_cons in Hid. destruct Hid as [Hne Hid].
    destruct (recoverEntry_other s entry id) as (A1 & R1 & N1 & H1);
      [congruence|].
    destruct (IH (recoverEntry isProcessAlive recoverWorld s entry) Hid)
      as (A2 & R2 & N2 & H2).
    repeat split.
    + rewrite A2. exact A1.
    + rewrite R2. exact R1.
    + lia.
    + intros h Hlt. rewrite H2 by lia. apply H1, Hlt.
Qed.

Lemma loadApps_keys (file : list (string * PersistedAppInfo)) :
  (loadApps decryptSecret file).*1 = file.*1.
Proof.
  unfold loadApps. induction file as [|[k v] file IH]; simpl; [reflexivity|].
  f_equal. exact IH.
Qed.

Lemma loadApps_entry (file : list (string * PersistedAppInfo)) id rec :
  (id, rec) ∈ file → (id, restore decryptSecret rec) ∈ loadApps decryptSecret file.
Proof.
  intros H. unfold loadApps.
  apply (list_elem_of_fmap_2
           (fun entry : string * PersistedAppInfo =>
              (fst entry, restore decryptSecret (snd entry))) file (id, rec)).
  exact H.
Qed.

(* the turn of the loop for this application decides what the pass
   leaves for it *)
Lemma recoverEntries_this (l1 l2 : list (string * AppInfo)) id appInfo p :
  id ∉ l1.*1 → id ∉ l2.*1 → Main.pid appInfo = Some p →
  let s :=
    foldl (recoverEntry isProcessAlive recoverWorld) (∅, init)
      (l1 ++ (id, appInfo) :: l2) in
  (isProcessAlive p = true →
     fst s !! id = Some (recovered appInfo)
     ∧ ∃ info, runningProcesses (snd s) !! id = Some info
               ∧ handles (snd s) !! process info ≫= Runner.pid = Some p)
  ∧ (isProcessAlive p = false →
     fst s !! id = Some (cleared appInfo)
     ∧ runningProcesses (snd s) !! id = None).
Proof.
  intros Hl1 Hl2 Hpid. rewrite foldl_app. simpl foldl.
  destruct (recoverEntries_other l1 id (∅, init) Hl1) as (A1 & R1 & _ & _).
  simpl in A1, R1. rewrite lookup_empty in A1.
  change (runningProcesses init) with (∅ : gmap string ProcessInfo) in R1.
  rewrite lookup_empty in R1.
  remember (foldl (recoverEntry isProcessAlive recoverWorld) (∅, init) l1)
    as s1 eqn:Hs1. clear Hs1. destruct s1 as [apps1 runner1].
  simpl in A1, R1.
  remember (recoverEntry isProcessAlive recoverWorld (apps1, runner1)
              (id, appInfo)) as s2 eqn:Hs2.
  destruct (recoverEntries_other l2 id s2 Hl2) as (A2 & R2 & _ & H2).
  remember (foldl (recoverEntry isProcessAlive recoverWorld) s2 l2)
    as s3 eqn:Hs3. clear Hs3.
  simpl in Hs2. rewrite Hpid in Hs2.
  split; intros Halive; rewrite Halive in Hs2; subst s2; simpl in *.
  - rewrite lookup_insert_eq in A2. split; [exact A2|].
    destruct (recoverProcess_adopts (recoverWorld id) id p
                (default "" (Main.installPath appInfo)) id (Some id)
                (Some id) runner1) as (Hr & _ & Hh & _ & Hn).
    rewrite Hr in R2. rewrite Hn in H2.
    specialize (H2 (nextHandle runner1) ltac:(lia)).
    eexists. split; [exact R2|].
    exact (eq_trans (f_equal (fun o => o ≫= Runner.pid) H2) Hh).
  - rewrite lookup_insert_eq in A2. split; [exact A2|].
    rewrite R2. exact R1.
Qed.

(** C3: after the recovery pass, an application whose persisted pid is
    alive is listed as running with that pid and the persisted port, has
    a registry entry whose handle carries the pid, and is saved with pid
    and port; an application whose persisted pid is dead is listed as
    installed with neither pid nor port, has no registry entry, and is
    saved with pid and port cleared. *)
Theorem recovery_pass_reconciles
  (file : list (string * PersistedAppInfo)) id rec p :
  NoDup file.*1 →
  (id, rec) ∈ file →
  persistedPid rec = Some p →
  let result :=
    recoveryPass encryptSecret decryptSecret isProcessAlive recoverWorld file in
  let apps := fst (fst result) in
  let runner := snd (fst result) in
  let saved := snd result in
  (isProcessAlive p = true →
     (∃ app, apps !! id = Some app ∧ status app = Running
             ∧ Main.pid app = Some p ∧ port app = persistedPort rec)
     ∧ (∃ info, runningProcesses runner !! id = Some info
                ∧ handles runner !! process info ≫= Runner.pid = Some p)
     ∧ (p ≠ 0%Z → isRunning isProcessAlive id runner = true)
     ∧ (∃ s, saved !! id = Some s ∧ persistedPid s = Some p
             ∧ persistedPort s = persistedPort rec))
  ∧ (isProcessAlive p = false →
     (∃ app, apps !! id = Some app ∧ status app = Installed
             ∧ Main.pid app = None ∧ port app = None)
     ∧ runningProcesses runner !! id = None
     ∧ isRunning isProcessAlive id runner = false
     ∧ (∃ s, saved !! id = Some s ∧ persistedPid s = None
             ∧ persistedPort s = None)).
Proof.
  intros Hnodup Hin Hpid. unfold recoveryPass. simpl.
  apply loadApps_entry in Hin. rewrite <- loadApps_keys in Hnodup.
  apply list_elem_of_split in Hin. destruct Hin as (l1 & l2 & Hsplit).
  rewrite Hsplit in *. clear Hsplit.
  rewrite fmap_app, fmap_cons in Hnodup. simpl in Hnodup.
  apply NoDup_app in Hnodup. destruct Hnodup as (_ & Hl1 & Hl2).
  apply NoDup_cons in Hl2. destruct Hl2 as [Hl2 _].
  assert (id ∉ l1.*1) as Hl1'.
  { intros Hx. apply (Hl1 _ Hx). apply list_elem_of_here. }
  clear Hl1.
  destruct (recoverEntries_this l1 l2 id (restore decryptSecret rec) p
              Hl1' Hl2 Hpid) as [Hlive Hdead].
  remember (foldl (recoverEntry isProcessAlive recoverWorld) (∅, init)
              (l1 ++ (id, restore decryptSecret rec) :: l2)) as s eqn:Hs.
  clear Hs. destruct s as [apps runner]. simpl in Hlive, Hdead.
  cbn [fst snd].
  split; intros Halive.
  - destruct (Hlive Halive) as (A & info & R & H).
    split; [|split; [|split]].
    + eexists. split; [exact A|]. simpl. auto.
    + eexists. split; [exact R|exact H].
    + intros Hp0. unfold isRunning. rewrite R, H. simpl.
      destruct (Z.eqb_spec p 0); [contradiction|]. exact Halive.
    + unfold saveApps. rewrite lookup_omap, A. simpl.
      eexists. split; [reflexivity|]. simpl. auto.
  - destruct (Hdead Halive) as (A & R).
    split; [|split; [|split]].
    + eexists. split; [exact A|]. simpl. auto.
    + exact R.
    + unfold isRunning. rewrite R. reflexivity.
    + unfold saveApps. rewrite lookup_omap, A. simpl.
      eexists. split; [reflexivity|]. simpl. auto.
Qed.

End Pass.

Lemma recovery_pass_reconciles_witness :
  let web :=
    mkPersistedAppInfo "web" "Web" "/src/web" Local (Some "/apps/web")
      (Some "python app.py") None None None (Some 4242%Z) (Some 8000%Z) in
  let job :=
    mkPersistedAppInfo "job" "Job" "/src/job" Local (Some "/apps/job")
      (Some "python job.py") None None None (Some 999%Z) (Some 5000%Z) in
  let alive := fun p : Z => (p =? 4242)%Z in
  let world := fun _ : string => mkRecoverWorld "/logs" Missing 1000%Z in
  let result :=
    recoveryPass (fun s => s) (fun s => s) alive world
      [("web", web); ("job", job)] in
  (∃ app, fst (fst result) !! "web" = Some app ∧ status app = Running
          ∧ Main.pid app = Some 4242%Z ∧ port app = Some 8000%Z)
  ∧ isRunning alive "web" (snd (fst result)) = true
  ∧ (∃ app, fst (fst result) !! "job" = Some app ∧ status app = Installed
            ∧ Main.pid app = None ∧ port app = None)
  ∧ (∃ s, snd result !! "job" = Some s ∧ persistedPid s = None
          ∧ persistedPort s = None).
Proof.
  intros web job alive world result.
  assert (NoDup [("web", web); ("job", job)].*1) as Hnodup.
  { apply (bool_decide_unpack _). vm_compute. exact I. }
  destruct (recovery_pass_reconciles (fun s => s) (fun s => s) alive world
              [("web", web); ("job", job)] "web" web 4242%Z Hnodup
              ltac:(apply list_elem_of_here) eq_refl) as [Hweb _].
  destruct (recovery_pass_reconciles (fun s => s) (fun s => s) alive world
              [("web", web); ("job", job)] "job" job 999%Z Hnodup
              ltac:(apply list_elem_of_further, list_elem_of_here) eq_refl)
    as [_ Hjob].
  destruct (Hweb eq_refl) as (W1 & _ & W3 & _).
  destruct (Hjob eq_refl) as (J1 & _ & _ & J4).
  split; [exact W1|]. split; [apply W3; discriminate|].
  split; [exact J1|exact J4].
Defined.

End Recovery.

(** * Further properties of the runner *)

(** ** What a launch leaves behind *)
Section LaunchOutcome.
Import Text Runner Samples.

Lemma launch_registers w args a path env cb1 cb2 cb3 st :
  launchThrows w = None →
  let st' := snd (launch w args a path env cb1 cb2 cb3 st) in
  runningProcesses st' !! a
  = Some (mkProcessInfo (nextHandle st) (launchTime w) a path
            (Some (nextTimer st)))
  ∧ handles st' !! nextHandle st
    = Some (mkHandle ChildProcess (spawnedPid w) None
              (Some (mkListeners a cb1 cb3)))
  ∧ timers st' !! nextTimer st
    = Some (LogPollTimer a (getLogsDir w +:+ "/" +:+ a +:+ ".log") cb1 cb2 0)
  ∧ is_Some (statsMonitoringTimers st' !! a)
  ∧ (statsMonitoringTimers st !! a = None →
     statsMonitoringTimers st' !! a = Some (S (nextTimer st))
     ∧ timers st' !! S (nextTimer st) = Some (StatsTimer a cb1 cb3)).
Proof.
  intros Hthrow st'.
  assert (st' = snd (launch w args a path env cb1 cb2 cb3 st)) as Hst'
    by reflexivity.
  clearbody st'. revert Hst'.
  unfold launch, setupProcessHandlers, startStatsMonitoring, startWatch,
    startLogPolling, setLogPollInterval, setListeners, setWatchInterval,
    newHandle, pidOf, isRecovered, onLog.
  unfold bind, gets, modify, ret, emit, setTimer. simpl.
  rewrite Hthrow, truthy_path. simpl.
  rewrite lookup_insert_eq. simpl.
  destruct (statsMonitoringTimers st !! a) as [t|] eqn:Hstats; simpl;
    repeat (rewrite lookup_insert_eq; simpl); intros ->; simpl.
  - split; [|split; [|split; [|split]]].
    + rewrite lookup_alter, decide_True by reflexivity.
      rewrite lookup_insert_eq. reflexivity.
    + rewrite insert_insert_eq. apply lookup_insert_eq.
    + apply lookup_insert_eq.
    + exists t. exact Hstats.
    + discriminate.
  - split; [|split; [|split; [|split]]].
    + rewrite lookup_alter, decide_True by reflexivity.
      rewrite lookup_insert_eq. reflexivity.
    + rewrite insert_insert_eq. apply lookup_insert_eq.
    + rewrite lookup_insert_ne by lia. apply lookup_insert_eq.
    + eexists. apply lookup_insert_eq.
    + intros _. split; apply lookup_insert_eq.
Qed.

Lemma launch_keeps_others w args a path env cb1 cb2 cb3 st :
  let st' := snd (launch w args a path env cb1 cb2 cb3 st) in
  (∀ k, k ≠ a → runningProcesses st' !! k = runningProcesses st !! k)
  ∧ (∀ h, h ≠ nextHandle st → handles st' !! h = handles st !! h)
  ∧ stoppingProcesses st' = stoppingProcesses st.
Proof.
  intros st'.
  assert (st' = snd (launch w args a path env cb1 cb2 cb3 st)) as Hst'
    by reflexivity.
  clearbody st'. revert Hst'.
  unfold launch.
  destruct (launchThrows w); [intros ->; simpl; auto|].
  unfold setupProcessHandlers, startStatsMonitoring, startWatch,
    startLogPolling, setLogPollInterval, setListeners, setWatchInterval,
    newHandle, pidOf, isRecovered, onLog.
  unfold bind, gets, modify, ret, emit, setTimer. simpl.
  rewrite truthy_path. simpl.
  rewrite lookup_insert_eq. simpl.
  destruct (statsMonitoringTimers st !! a) as [t|] eqn:Hstats; simpl;
    repeat (rewrite lookup_insert_eq; simpl); intros ->; simpl.
  all: split; [|split; [|reflexivity]].
  all: try (intros k Hk; rewrite lookup_alter_ne by congruence;
            rewrite lookup_insert_ne by congruence; reflexivity).
  all: intros h Hh; rewrite !lookup_insert_ne by congruence; reflexivity.
Qed.

(* runApp either fails before it does anything, or logs the command and
   goes on to spawn *)
Lemma runApp_cases w a path runCommand env cb1 cb2 cb3 st :
  (∃ e, runApp w a path runCommand env cb1 cb2 cb3 st = (Failure e, st))
  ∨ (∃ logged args,
       runningProcesses st !! a = None
       ∧ runApp w a path runCommand env cb1 cb2 cb3 st
         = launch w args a path env cb1 cb2 cb3
             (mkState (runningProcesses st) (stoppingProcesses st)
                (statsMonitoringTimers st) (timers st) (handles st)
                (nextTimer st) (nextHandle st)
                (trace st ++ [OnLog cb1 (CommandRun logged)]))).
Proof.
  unfold runApp, bind, gets, onLog, emit, ret. simpl.
  repeat case_match; simpl;
    first [ left; eexists; reflexivity
          | right; do 2 eexists; split; [reflexivity || assumption|reflexivity] ].
Qed.

(** X1: a runApp that fails leaves no partial state: the registry, the
    handles and every timer are as before the call (only the command
    may have been logged). *)
Theorem runApp_failure_leaves_no_entry
  w a path runCommand env cb1 cb2 cb3 st e :
  fst (runApp w a path runCommand env cb1 cb2 cb3 st) = Failure e →
  let st' := snd (runApp w a path runCommand env cb1 cb2 cb3 st) in
  runningProcesses st' = runningProcesses st
  ∧ stoppingProcesses st' = stoppingProcesses st
  ∧ statsMonitoringTimers st' = statsMonitoringTimers st
  ∧ timers st' = timers st
  ∧ handles st' = handles st
  ∧ nextTimer st' = nextTimer st
  ∧ nextHandle st' = nextHandle st
  ∧ spawnArgs (trace st') = spawnArgs (trace st).
Proof.
  destruct (runApp_cases w a path runCommand env cb1 cb2 cb3 st)
    as [[e' ->]|(logged & args & _ & ->)].
  - simpl. intros _. repeat split; reflexivity.
  - destruct (launchThrows w) as [message|] eqn:Hthrow.
    + rewrite (launch_throws _ _ _ _ _ _ _ _ _ message Hthrow). simpl.
      intros _. repeat split; try reflexivity.
      rewrite spawnArgs_app. simpl. apply app_nil_r.
    + match goal with
      | |- context [launch w args a path env cb1 cb2 cb3 ?s] =>
          rewrite (proj1 (launch_spawns w args a path env cb1 cb2 cb3 s
                            Hthrow))
      end.
      discriminate.
Qed.

Lemma runApp_failure_leaves_no_entry_witness :
  let w :=
    mkLaunchWorld (fun _ => None) plainParse "uv" "/logs" ∅
      (Some "EACCES") (Some 4242%Z) 1000%Z in
  runningProcesses
    (snd (runApp w "app" "/apps/app" (Some "python main.py") None "log"
            None None init)) = ∅.
Proof.
  intros w.
  apply (runApp_failure_leaves_no_entry w "app" "/apps/app"
           (Some "python main.py") None "log" None None init
           (StartFailed "EACCES")).
  vm_compute. reflexivity.
Defined.



End LaunchOutcome.

(** ** Every entry of a reachable registry has its handle and listeners *)
Module LinkFacts.
Import Text Runner Link.

Create HintDb linked discriminated.

Lemma Linked_init : Linked init.
Proof.
  split; simpl.
  - intros h obj. rewrite lookup_empty. discriminate.
  - intros a info. change (runningProcesses init) with (∅ : gmap string ProcessInfo).
    rewrite lookup_empty. discriminate.
Qed.

Lemma preserves_ret {A : Type} (a : A) : preserves (ret a).
Proof. intros st H. exact H. Qed.

Lemma preserves_bind {A B : Type} (m : M A) (f : A → M B) :
  preserves m → (∀ a, preserves (f a)) → preserves (bind m f).
Proof.
  intros Hm Hf st H. unfold bind.
  specialize (Hm st H). destruct (m st) as [a st']. simpl in Hm.
  apply Hf, Hm.
Qed.

Lemma preserves_gets {A : Type} (f : State → A) : preserves (gets f).
Proof. intros st H. exact H. Qed.

Lemma preserves_bind_gets {A B : Type} (g : State → A) (f : A → M B) :
  (∀ st, Linked st → Linked (snd (f (g st) st))) → preserves (bind (gets g) f).
Proof. intros H st HL. unfold bind, gets. apply H, HL. Qed.

Lemma preserves_emit e : preserves (emit e).
Proof. intros st [? ?]. split; simpl; eauto. Qed.

Lemma preserves_setTimer task : preserves (setTimer task).
Proof. intros st [? ?]. split; simpl; eauto. Qed.

Lemma preserves_timers f : preserves (modify (withTimers f)).
Proof. intros st [? ?]. split; simpl; eauto. Qed.

Lemma preserves_clearTimer t : preserves (clearTimer t).
Proof. apply preserves_timers. Qed.

Lemma preserves_stats f : preserves (modify (withStats f)).
Proof. intros st [? ?]. split; simpl; eauto. Qed.

Lemma preserves_stopping f : preserves (modify (withStopping f)).
Proof. intros st [? ?]. split; simpl; eauto. Qed.

Lemma preserves_running_delete a : preserves (modify (withRunning (delete a))).
Proof.
  intros st [Hf He]. split; simpl; eauto.
  intros k info. destruct (decide (a = k)) as [->|Hne].
  - rewrite lookup_delete_eq. discriminate.
  - rewrite lookup_delete_ne by done. apply He.
Qed.

Lemma preserves_setWatchInterval h w : preserves (setWatchInterval h w).
Proof.
  intros st [Hf He]. unfold setWatchInterval, modify. simpl.
  destruct (handles st !! h) as [old|] eqn:Hold;
    [|split; simpl; rewrite Hold; eauto].
  split; simpl; rewrite Hold.
  - intros h' obj. destruct (decide (h = h')) as [<-|Hne].
    + intros _. eapply Hf, Hold.
    + rewrite lookup_insert_ne by done. apply Hf.
  - intros a info Hinfo. destruct (He a info Hinfo) as (obj & l & H1 & H2 & H3).
    destruct (decide (h = process info)) as [->|Hne].
    + rewrite lookup_insert_eq. rewrite Hold in H1. injection H1 as ->.
      eexists _, l. split; [reflexivity|]. simpl. auto.
    + rewrite lookup_insert_ne by done. eauto.
Qed.

Lemma preserves_setLogPollInterval a t : preserves (setLogPollInterval a t).
Proof.
  intros st [Hf He]. split; simpl; eauto.
  intros k info. rewrite lookup_alter. case_decide as Hk.
  - subst k. destruct (runningProcesses st !! a) as [old|] eqn:Hold; simpl;
      [|discriminate].
    intros [= <-]. simpl. eapply He, Hold.
  - apply He.
Qed.

Hint Resolve preserves_ret preserves_gets preserves_emit preserves_setTimer
  preserves_timers preserves_clearTimer preserves_stats preserves_stopping
  preserves_running_delete preserves_setWatchInterval
  preserves_setLogPollInterval : linked.

Ltac linked_step :=
  first
    [ solve [auto with linked]
    | match goal with
      | |- preserves (bind _ _) => apply preserves_bind; [|intros ?]
      | |- preserves (match ?x with _ => _ end) => destruct x
      | |- preserves (if ?b then _ else _) => destruct b
      | |- preserves (let (_, _) := ?x in _) => destruct x
      end ].

Ltac linked_auto := repeat linked_step.

Lemma preserves_forEach {A : Type} (f : A → M unit) (l : list A) :
  (∀ x, preserves (f x)) → preserves (forEach f l).
Proof.
  intros Hf. induction l as [|x l IH]; simpl; linked_auto.
Qed.

Lemma preserves_stopLogPolling a : preserves (stopLogPolling a).
Proof.
  apply preserves_bind_gets. intros st HL.
  destruct (runningProcesses st !! a) as [info|] eqn:E; [|exact HL].
  destruct (logPollInterval info) as [t|]; [|exact HL].
  destruct HL as [Hf He]. split; simpl; eauto.
  intros k info'. destruct (decide (a = k)) as [<-|Hne].
  - rewrite lookup_insert_eq. intros [= <-]. simpl. eapply He, E.
  - rewrite lookup_insert_ne by done. apply He.
Qed.

Lemma preserves_stopStatsMonitoring a : preserves (stopStatsMonitoring a).
Proof. unfold stopStatsMonitoring. linked_auto. Qed.

Hint Resolve preserves_stopLogPolling preserves_stopStatsMonitoring : linked.

Lemma preserves_cleanupProcessResources a :
  preserves (cleanupProcessResources a).
Proof. unfold cleanupProcessResources. linked_auto. Qed.

Lemma preserves_onLog cb m : preserves (onLog cb m).
Proof. unfold onLog. linked_auto. Qed.

Lemma preserves_notifyStopped cb : preserves (notifyStopped cb).
Proof. unfold notifyStopped. linked_auto. Qed.

Lemma preserves_pidOf h : preserves (pidOf h).
Proof. unfold pidOf. linked_auto. Qed.

Lemma preserves_isRecovered h : preserves (isRecovered h).
Proof. unfold isRecovered. linked_auto. Qed.

Hint Resolve preserves_cleanupProcessResources preserves_onLog
  preserves_notifyStopped preserves_pidOf preserves_isRecovered : linked.

Lemma preserves_cleanupTerminatedProcess a r p cb1 cb2 :
  preserves (cleanupTerminatedProcess a r p cb1 cb2).
Proof. unfold cleanupTerminatedProcess. linked_auto. Qed.

Lemma preserves_startStatsMonitoring a cb1 cb2 :
  preserves (startStatsMonitoring a cb1 cb2).
Proof. unfold startStatsMonitoring. linked_auto. Qed.

Hint Resolve preserves_cleanupTerminatedProcess
  preserves_startStatsMonitoring : linked.

Lemma preserves_statsTick alive now a cb1 cb2 :
  preserves (statsTick alive now a cb1 cb2).
Proof. unfold statsTick. linked_auto. Qed.

Lemma preserves_deliver cb1 cb2 line : preserves (deliver cb1 cb2 line).
Proof. unfold deliver. linked_auto. Qed.

Hint Resolve preserves_deliver : linked.

Lemma preserves_onData cb1 cb2 buffer chunk :
  preserves (onData cb1 cb2 buffer chunk).
Proof.
  unfold onData. linked_auto. apply preserves_forEach. auto with linked.
Qed.

Lemma preserves_readStream cb1 cb2 chunks :
  ∀ buffer, preserves (readStream cb1 cb2 buffer chunks).
Proof.
  induction chunks as [|chunk chunks IH]; intros buffer; simpl; linked_auto.
  apply preserves_onData.
Qed.

Lemma preserves_logPollTick file hwm t a path cb1 cb2 pos :
  preserves (logPollTick file hwm t a path cb1 cb2 pos).
Proof. unfold logPollTick. linked_auto. apply preserves_readStream. Qed.

Lemma preserves_stopWatch h : preserves (stopWatch h).
Proof. unfold stopWatch. linked_auto. Qed.

Lemma preserves_startWatch h : preserves (startWatch h).
Proof. unfold startWatch. linked_auto. Qed.

Lemma preserves_clearStopping a : preserves (clearStopping a).
Proof. unfold clearStopping. linked_auto. Qed.

Hint Resolve preserves_stopWatch preserves_startWatch preserves_clearStopping
  : linked.

Lemma preserves_onClose h l code : preserves (onClose h l code).
Proof. unfold onClose. linked_auto. Qed.

Lemma preserves_onError h l message : preserves (onError h l message).
Proof. unfold onError. linked_auto. Qed.

Hint Resolve preserves_onClose preserves_onError : linked.

Lemma preserves_emitClose h code : preserves (emitClose h code).
Proof. unfold emitClose. linked_auto. Qed.

Lemma preserves_emitError h message : preserves (emitError h message).
Proof. unfold emitError. linked_auto. Qed.

Hint Resolve preserves_emitClose preserves_emitError : linked.

Lemma preserves_watchTick alive h : preserves (watchTick alive h).
Proof. unfold watchTick. linked_auto. Qed.

Lemma preserves_sendSigterm outcome p cb : preserves (sendSigterm outcome p cb).
Proof. unfold sendSigterm. linked_auto. Qed.

Hint Resolve preserves_sendSigterm : linked.

Lemma preserves_stopApp w a cb : preserves (stopApp w a cb).
Proof. unfold stopApp. linked_auto. Qed.

Lemma preserves_killTimeout outcome a proc cb :
  preserves (killTimeout outcome a proc cb).
Proof. unfold killTimeout. linked_auto. Qed.

Lemma preserves_fireTimer o t : preserves (fireTimer o t).
Proof.
  unfold fireTimer. linked_auto.
  - apply preserves_statsTick.
  - apply preserves_logPollTick.
  - apply preserves_watchTick.
  - apply preserves_killTimeout.
Qed.

Lemma launch_nextHandle w args a path env cb1 cb2 cb3 st :
  launchThrows w = None →
  nextHandle (snd (launch w args a path env cb1 cb2 cb3 st))
  = S (nextHandle st).
Proof.
  intros Hthrow.
  unfold launch, setupProcessHandlers, startStatsMonitoring, startWatch,
    startLogPolling, setLogPollInterval, setListeners, setWatchInterval,
    newHandle, pidOf, isRecovered, onLog.
  unfold bind, gets, modify, ret, emit, setTimer. simpl.
  rewrite Hthrow, truthy_path. simpl.
  rewrite lookup_insert_eq. simpl.
  destruct (statsMonitoringTimers st !! a); simpl;
    repeat (rewrite lookup_insert_eq; simpl); reflexivity.
Qed.

Lemma recoverProcess_listens w a p path cb1 cb2 cb3 st :
  ∃ obj,
    handles (snd (recoverProcess w a p path cb1 cb2 cb3 st)) !! nextHandle st
    = Some obj
    ∧ kind obj = RecoveredProcessHandle
    ∧ listeners obj = Some (mkListeners a cb1 cb3).
Proof.
  unfold recoverProcess.
  destruct (recovery_messages_only_log w cb1 st) as [tr Htr].
  unfold bind at 1. rewrite Htr. clear Htr.
  unfold setupProcessHandlers, startStatsMonitoring, startWatch, stopWatch,
    startLogPolling, setLogPollInterval, setListeners, setWatchInterval,
    newHandle, pidOf, isRecovered, onLog.
  unfold bind, gets, modify, ret, emit, setTimer. simpl.
  rewrite truthy_path. simpl.
  rewrite lookup_insert_eq. simpl.
  destruct (statsMonitoringTimers st !! a); simpl;
    repeat (rewrite lookup_insert_eq; simpl);
    eexists; (split; [reflexivity|split; reflexivity]).
Qed.

(* a new entry under a fresh handle that carries its listeners *)
Lemma Linked_registered st st' a info obj l :
  Linked st →
  runningProcesses st' !! a = Some info →
  process info = nextHandle st →
  (∀ k, k ≠ a → runningProcesses st' !! k = runningProcesses st !! k) →
  handles st' !! nextHandle st = Some obj →
  listeners obj = Some l → listenAppId l = a →
  (∀ h, h ≠ nextHandle st → handles st' !! h = handles st !! h) →
  nextHandle st' = S (nextHandle st) →
  Linked st'.
Proof.
  intros [Hf He] Ha Hp Hk Hh Hl Hla Hh' Hn. split.
  - intros h obj' Hobj'. rewrite Hn.
    destruct (decide (h = nextHandle st)) as [->|Hne]; [lia|].
    rewrite Hh' in Hobj' by done. apply Hf in Hobj'. lia.
  - intros k info' Hinfo'. destruct (decide (k = a)) as [->|Hne].
    + rewrite Ha in Hinfo'. injection Hinfo' as <-. rewrite Hp. eauto.
    + rewrite Hk in Hinfo' by done.
      destruct (He k info' Hinfo') as (obj' & l' & H1 & H2 & H3).
      pose proof (Hf _ _ H1). rewrite Hh' by lia. eauto.
Qed.

Lemma preserves_launch w args a path env cb1 cb2 cb3 :
  preserves (launch w args a path env cb1 cb2 cb3).
Proof.
  intros st HL. destruct (launchThrows w) as [message|] eqn:Hthrow.
  - rewrite (launch_throws _ _ _ _ _ _ _ _ _ message Hthrow). exact HL.
  - destruct (launch_registers w args a path env cb1 cb2 cb3 st Hthrow)
      as (Ha & Hh & _).
    destruct (launch_keeps_others w args a path env cb1 cb2 cb3 st)
      as (Hk & Hh' & _).
    apply (Linked_registered st _ a _ _ _ HL Ha eq_refl Hk Hh eq_refl eq_refl
             Hh').
    apply launch_nextHandle, Hthrow.
Qed.

Lemma preserves_recoverProcess w a p path cb1 cb2 cb3 :
  preserves (recoverProcess w a p path cb1 cb2 cb3).
Proof.
  intros st HL.
  destruct (recoverProcess_adopts w a p path cb1 cb2 cb3 st)
    as (Ha & Hk & _ & Hh' & Hn).
  destruct (recoverProcess_listens w a p path cb1 cb2 cb3 st)
    as (obj & Hh & _ & Hl).
  exact (Linked_registered st _ a _ _ _ HL Ha eq_refl Hk Hh Hl eq_refl Hh' Hn).
Qed.

Lemma preserves_runApp w a path runCommand env cb1 cb2 cb3 :
  preserves (runApp w a path runCommand env cb1 cb2 cb3).
Proof.
  intros st HL.
  destruct (runApp_cases w a path runCommand env cb1 cb2 cb3 st)
    as [[e ->]|(logged & args & _ & ->)]; [exact HL|].
  apply preserves_launch. destruct HL as [Hf He]. split; simpl; eauto.
Qed.

Lemma Linked_step st e : Linked st → Linked (step st e).
Proof.
  intros HL. destruct e; simpl.
  - apply preserves_runApp, HL.
  - apply preserves_stopApp, HL.
  - apply preserves_recoverProcess, HL.
  - apply preserves_fireTimer, HL.
  - apply preserves_emitClose, HL.
  - apply preserves_emitError, HL.
Qed.

Lemma Linked_steps es : ∀ st, Linked st → Linked (steps st es).
Proof.
  induction es as [|e es IH]; intros st HL; simpl; [exact HL|].
  apply IH, Linked_step, HL.
Qed.

Lemma Linked_reachable es : Linked (steps init es).
Proof. apply Linked_steps, Linked_init. Qed.

End LinkFacts.

(** ** Stopping, escalation and the end of a process *)
Section Lifecycle.
Import Text Runner Samples Queries Link LinkFacts.

Ltac unfold_events :=
  unfold emitClose, emitError, onClose, onError, clearStopping, isRecovered,
    stopWatch, setWatchInterval, cleanupTerminatedProcess,
    cleanupProcessResources, stopLogPolling, stopStatsMonitoring,
    notifyStopped, onLog, clearTimer, pidOf;
  unfold bind, gets, modify, ret, emit, setTimer; simpl.

Ltac disarmed :=
  repeat (apply lookup_delete_None; first [left; reflexivity | right]);
  try assumption.








(* the 'close' listener of the handle of an entry *)
Lemma emitClose_entry st a info obj l code :
  runningProcesses st !! a = Some info →
  handles st !! process info = Some obj →
  listeners obj = Some l → listenAppId l = a →
  let st' := snd (emitClose (process info) code st) in
  runningProcesses st' = delete a (runningProcesses st)
  ∧ stoppingProcesses st' !! a = None
  ∧ statsMonitoringTimers st' !! a = None
  ∧ (∀ t, stoppingProcesses st !! a = Some t → timers st' !! t = None)
  ∧ (∀ t, statsMonitoringTimers st !! a = Some t → timers st' !! t = None)
  ∧ trace st'
    = (trace st ++ OnLog (listenOnLog l) (ProcessExited code)
       :: match listenOnProcessStopped l with
          | Some callback => [OnProcessStopped callback]
          | None => []
          end)%list.
Proof.
  intros Hinfo Hobj Hl <- st'.
  assert (st' = snd (emitClose (process info) code st)) as Hst'
    by reflexivity.
  clearbody st'. revert Hst'.
  unfold_events. rewrite Hobj. simpl. rewrite Hl. simpl.
  destruct (stoppingProcesses st !! listenAppId l) as [tk|] eqn:Hk; simpl;
    rewrite ?Hobj; simpl;
    destruct (kind obj); simpl; rewrite ?Hobj; simpl;
    destruct (watchInterval obj) as [tw|]; simpl; rewrite ?Hobj; simpl;
    rewrite ?lookup_delete_eq; simpl;
    destruct (statsMonitoringTimers st !! listenAppId l) as [ts|] eqn:Hs;
    simpl; destruct (listenOnProcessStopped l); simpl; intros ->; simpl.
  all: rewrite <- ?app_assoc; simpl.
  all: repeat split; try reflexivity; try assumption.
  all: try apply lookup_delete_eq.
  all: try (intros t [= <-]); try discriminate.
  all: disarmed.
Qed.

(** X6: in every reachable state, the 'close' event of the process of
    a registered application removes its entry and leaves the other
    entries, disarms the fallback kill of a pending stopApp and the
    health poll, and calls onProcessStopped exactly once; the fallback
    timer, should it still fire, does nothing. *)
Theorem close_event_cleans_up es a info code :
  let st := steps init es in
  runningProcesses st !! a = Some info →
  let st' := step st (ProcessCloses (process info) code) in
  runningProcesses st' = delete a (runningProcesses st)
  ∧ stoppingProcesses st' !! a = None
  ∧ statsMonitoringTimers st' !! a = None
  ∧ (∀ t o, stoppingProcesses st !! a = Some t →
            fireTimer o t st' = (tt, st'))
  ∧ ∃ l, handles st !! process info ≫= listeners = Some l
         ∧ listenAppId l = a
         ∧ trace st'
           = (trace st ++ OnLog (listenOnLog l) (ProcessExited code)
              :: match listenOnProcessStopped l with
                 | Some callback => [OnProcessStopped callback]
                 | None => []
                 end)%list.
Proof.
  intros st Hinfo st'.
  destruct (linked_entry _ (Linked_reachable es) a info Hinfo)
    as (obj & l & Hobj & Hl & Ha).
  destruct (emitClose_entry st a info obj l code Hinfo Hobj Hl Ha)
    as (H1 & H2 & H3 & H4 & _ & H6).
  split; [exact H1|]. split; [exact H2|]. split; [exact H3|]. split.
  - intros t o Ht. unfold fireTimer, bind, gets.
    change (timers st' !! t) with
      (timers (snd (emitClose (process info) code st)) !! t).
    rewrite (H4 t Ht). reflexivity.
  - exists l. split; [|split; [exact Ha|exact H6]].
    unfold st. rewrite Hobj. exact Hl.
Qed.

Lemma close_event_cleans_up_witness :
  let es :=
    [RunApp hostWorld "app" "/apps/app" (Some "python main.py") None
       "log" (Some "port") (Some "stopped");
     StopApp (mkStopWorld false Delivered) "app" "log"] in
  let st' := step (steps init es) (ProcessCloses 0%nat (Some 0%Z)) in
  runningProcesses st' = delete "app" (runningProcesses (steps init es))
  ∧ stoppingProcesses st' !! "app" = None
  ∧ stopNotifications "stopped" (trace st') = 1%nat.
Proof.
  intros es st'.
  destruct (close_event_cleans_up es "app"
              (mkProcessInfo 0%nat 1000%Z "app" "/apps/app" (Some 0%nat))
              (Some 0%Z))
    as (H1 & H2 & _ & _ & _).
  { vm_compute. reflexivity. }
  split; [exact H1|]. split; [exact H2|].
  vm_compute. reflexivity.
Defined.

(** X7: a health-poll tick.  While the process is alive the tick
    changes nothing.  When it is gone, the tick removes the entry,
    disarms the health poll, logs "zombie" if the process had been
    started more than 5000 ms before and "terminated" otherwise, and
    calls onProcessStopped once. *)
Theorem health_tick_outcome o t a cb1 cb3 info p st :
  timers st !! t = Some (StatsTimer a cb1 cb3) →
  runningProcesses st !! a = Some info →
  truthyPid (handles st !! process info ≫= pid) = Some p →
  let st' := snd (fireTimer o t st) in
  if processAlive o then st' = st
  else
    runningProcesses st' = delete a (runningProcesses st)
    ∧ statsMonitoringTimers st' !! a = None
    ∧ (∀ ts, statsMonitoringTimers st !! a = Some ts → timers st' !! ts = None)
    ∧ trace st'
      = (trace st ++
         OnLog cb1 (if (dateNow o - startTime info >? 5000)%Z
                    then ProcessZombie p else ProcessTerminated p)
         :: match cb3 with
            | Some callback => [OnProcessStopped callback]
            | None => []
            end)%list.
Proof.
  intros Ht Hinfo Hp st'.
  assert (st' = snd (fireTimer o t st)) as Hst' by reflexivity.
  clearbody st'. revert Hst'.
  unfold fireTimer, statsTick, getProcessStats. unfold_events.
  rewrite Ht. simpl. rewrite Hinfo. simpl. rewrite Hp. simpl.
  destruct (processAlive o); simpl; [intros ->; reflexivity|].
  destruct (dateNow o - startTime info >? 5000)%Z; simpl;
    rewrite ?lookup_delete_eq; simpl;
    destruct (statsMonitoringTimers st !! a) as [ts|] eqn:Hs; simpl;
    destruct cb3; simpl; intros ->; simpl.
  all: rewrite <- ?app_assoc; simpl.
  all: repeat split; try reflexivity; try assumption.
  all: try apply lookup_delete_eq.
  all: try (intros t' [= <-]); try discriminate.
  all: disarmed.
Qed.

Lemma health_tick_outcome_witness :
  let st :=
    steps init
      [RunApp hostWorld "app" "/apps/app" (Some "python main.py") None
         "log" (Some "port") (Some "stopped")] in
  let st' := snd (fireTimer tickDead 1%nat st) in
  runningProcesses st' = delete "app" (runningProcesses st)
  ∧ statsMonitoringTimers st' !! "app" = None
  ∧ (∀ ts, statsMonitoringTimers st !! "app" = Some ts →
           timers st' !! ts = None)
  ∧ trace st'
    = (trace st ++
       [OnLog "log" (ProcessTerminated 4242); OnProcessStopped "stopped"])%list.
Proof.
  intros st st'.
  apply (health_tick_outcome tickDead 1%nat "app" "log" (Some "stopped")
           (mkProcessInfo 0%nat 1000%Z "app" "/apps/app" (Some 0%nat)) 4242%Z
           st); vm_compute; reflexivity.
Defined.

(** X8: an entry whose process has no pid (spawn returned a handle
    without one).  The application counts as not running and has no
    health record, yet it cannot be launched again (already_running)
    nor stopped (no_pid), and a health-poll tick leaves it alone: only
    a 'close' or 'error' event of the handle removes it. *)
Theorem entry_without_pid alive now o t a cb1 cb3 info st :
  runningProcesses st !! a = Some info →
  truthyPid (handles st !! process info ≫= pid) = None →
  timers st !! t = Some (StatsTimer a cb1 cb3) →
  isRunning alive a st = false
  ∧ getAppHealth alive now a st = None
  ∧ getAllAppHealth alive now st !! a = None
  ∧ (∀ w path runCommand env c1 c2 c3,
       runApp w a path runCommand env c1 c2 c3 st
       = (Failure AlreadyRunning, st))
  ∧ (∀ w cb, stopApp w a cb st = (Failure NoPid, st))
  ∧ fireTimer o t st = (tt, st).
Proof.
  intros Hinfo Hp Ht.
  split; [unfold isRunning; rewrite Hinfo, Hp; reflexivity|].
  split; [unfold getAppHealth; rewrite Hinfo, Hp; reflexivity|].
  split; [unfold getAllAppHealth; rewrite lookup_omap, Hinfo; simpl;
          rewrite Hp; reflexivity|].
  split; [|split].
  - intros. unfold runApp, bind, gets, ret. simpl. rewrite Hinfo. reflexivity.
  - intros. unfold stopApp, pidOf, bind, gets, ret. simpl.
    rewrite Hinfo, Hp. reflexivity.
  - unfold fireTimer, statsTick, pidOf, bind, gets, ret. simpl.
    rewrite Ht. simpl. rewrite Hinfo, Hp. reflexivity.
Qed.

Lemma entry_without_pid_witness :
  let w := mkLaunchWorld (fun _ => None) plainParse "uv" "/logs" ∅ None
             None 1000%Z in
  let st :=
    steps init
      [RunApp w "app" "/apps/app" (Some "python main.py") None
         "log" (Some "port") (Some "stopped")] in
  isRunning (fun _ => true) "app" st = false
  ∧ stopApp (mkStopWorld false Delivered) "app" "log" st = (Failure NoPid, st).
Proof.
  intros w st.
  destruct (entry_without_pid (fun _ => true) 2000%Z tickDead 1%nat "app"
              "log" (Some "stopped")
              (mkProcessInfo 0%nat 1000%Z "app" "/apps/app" (Some 0%nat)) st)
    as (H1 & _ & _ & _ & H5 & _);
    [vm_compute; reflexivity | vm_compute; reflexivity
    | vm_compute; reflexivity |].
  split; [exact H1|apply H5].
Defined.


(* what a listener leaves of its own handle *)
Lemma stopWatch_listeners h h' st :
  handles (snd (stopWatch h st)) !! h' ≫= listeners
  = handles st !! h' ≫= listeners.
Proof.
  unfold stopWatch, setWatchInterval, clearTimer.
  unfold bind, gets, modify, ret. simpl.
  destruct (handles st !! h) as [obj|] eqn:Hobj; simpl; [|reflexivity].
  destruct (watchInterval obj); simpl; [|reflexivity].
  rewrite Hobj. destruct (decide (h = h')) as [<-|Hne].
  - rewrite lookup_insert_eq, Hobj. reflexivity.
  - rewrite lookup_insert_ne by done. reflexivity.
Qed.

Lemma listener_event st h obj l :
  handles st !! h = Some obj → listeners obj = Some l →
  (∀ code,
     let st' := snd (emitClose h code st) in
     trace st'
     = (trace st ++ OnLog (listenOnLog l) (ProcessExited code)
        :: match listenOnProcessStopped l with
           | Some callback => [OnProcessStopped callback]
           | None => []
           end)%list
     ∧ runningProcesses st' = delete (listenAppId l) (runningProcesses st)
     ∧ handles st' !! h ≫= listeners = Some l)
  ∧ (∀ message,
       let st' := snd (emitError h message st) in
       trace st'
       = (trace st ++ OnLog (listenOnLog l) (ErrorProcess message)
          :: match listenOnProcessStopped l with
             | Some callback => [OnProcessStopped callback]
             | None => []
             end)%list
       ∧ runningProcesses st' = delete (listenAppId l) (runningProcesses st)
       ∧ handles st' !! h ≫= listeners = Some l).
Proof.
  intros Hobj Hl. split.
  - intros code st'.
    assert (st' = snd (emitClose h code st)) as Hst' by reflexivity.
    clearbody st'. revert Hst'.
    unfold_events. rewrite Hobj. simpl. rewrite Hl. simpl.
    destruct (stoppingProcesses st !! listenAppId l) as [tk|] eqn:Hk; simpl;
      rewrite ?Hobj; simpl;
      destruct (kind obj); simpl; rewrite ?Hobj; simpl;
      destruct (watchInterval obj) as [tw|]; simpl; rewrite ?Hobj; simpl;
      rewrite ?lookup_delete_eq; simpl;
      destruct (statsMonitoringTimers st !! listenAppId l) as [ts|] eqn:Hs;
      simpl; destruct (listenOnProcessStopped l); simpl; intros ->; simpl.
    all: rewrite <- ?app_assoc; simpl.
    all: repeat split; try reflexivity.
    all: repeat first [rewrite Hobj | rewrite lookup_insert_eq | progress simpl].
    all: exact Hl.
  - intros message st'.
    assert (st' = snd (emitError h message st)) as Hst' by reflexivity.
    clearbody st'. revert Hst'.
    unfold_events. rewrite Hobj. simpl. rewrite Hl. simpl.
    destruct (stoppingProcesses st !! listenAppId l) as [tk|] eqn:Hk; simpl;
      destruct (statsMonitoringTimers st !! listenAppId l) as [ts|] eqn:Hs;
      simpl; rewrite ?lookup_delete_eq; simpl; rewrite ?Hobj; simpl;
      destruct (kind obj); simpl; rewrite ?Hobj; simpl;
      destruct (watchInterval obj) as [tw|]; simpl; rewrite ?Hobj; simpl;
      destruct (listenOnProcessStopped l); simpl; intros ->; simpl.
    all: rewrite <- ?app_assoc; simpl.
    all: repeat split; try reflexivity.
    all: repeat first [rewrite Hobj | rewrite lookup_insert_eq | progress simpl].
    all: exact Hl.
Qed.

(** X12: the listeners act on every event.  Each 'close' and each
    'error' event of a handle on which setupProcessHandlers has
    registered its listeners logs the event, removes whatever entry
    is registered under the appId of the listeners, and calls
    onProcessStopped, whether or not that entry is still the one of
    this handle; the listeners stay on the handle.  So an 'error'
    followed by the 'close' of the same process calls
    onProcessStopped twice. *)
Theorem listeners_act_on_every_event st h obj l message code :
  handles st !! h = Some obj → listeners obj = Some l →
  let notification :=
    match listenOnProcessStopped l with
    | Some callback => [OnProcessStopped callback]
    | None => []
    end in
  let st1 := snd (emitError h message st) in
  let st2 := snd (emitClose h code st1) in
  trace st1
  = (trace st ++ OnLog (listenOnLog l) (ErrorProcess message)
     :: notification)%list
  ∧ trace st2
    = (trace st1 ++ OnLog (listenOnLog l) (ProcessExited code)
       :: notification)%list
  ∧ runningProcesses st1 = delete (listenAppId l) (runningProcesses st)
  ∧ runningProcesses st2 = delete (listenAppId l) (runningProcesses st1).
Proof.
  intros Hobj Hl notification st1 st2.
  destruct (proj2 (listener_event st h obj l Hobj Hl) message)
    as (H1 & H2 & H3).
  fold st1 in H1, H2, H3.
  destruct (handles st1 !! h) as [obj1|] eqn:Hobj1; [|discriminate].
  destruct (proj1 (listener_event st1 h obj1 l Hobj1 H3) code)
    as (H4 & H5 & _).
  auto.
Qed.

Lemma listeners_act_on_every_event_witness :
  let w := mkLaunchWorld (fun _ => None) plainParse "uv" "/logs" ∅ None
             None 1000%Z in
  let st :=
    steps init
      [RunApp w "app" "/apps/app" (Some "python main.py") None
         "log" (Some "port") (Some "stopped")] in
  let st2 := steps st [ProcessErrors 0%nat "ENOENT"; ProcessCloses 0%nat None] in
  stopNotifications "stopped" (trace st2) = 2%nat.
Proof.
  intros w st st2.
  destruct (listeners_act_on_every_event st 0%nat
              (mkHandle ChildProcess None None
                 (Some (mkListeners "app" "log" (Some "stopped"))))
              (mkListeners "app" "log" (Some "stopped")) "ENOENT" None)
    as (H1 & H2 & _);
    [vm_compute; reflexivity | vm_compute; reflexivity |].
  change (trace st2) with
    (trace (snd (emitClose 0%nat None (snd (emitError 0%nat "ENOENT" st))))).
  rewrite H2, H1. vm_compute. reflexivity.
Defined.

End Lifecycle.

(** ** What a log poll delivers *)
Section Polls.
Import PortSniffer Text Runner Samples Queries.

(* the effects of the delivery of some lines *)
Lemma forEach_deliver cb1 cb2 lines :
  ∀ st, ∃ tr,
    forEach (deliver cb1 cb2) lines st
    = (tt, mkState (runningProcesses st) (stoppingProcesses st)
             (statsMonitoringTimers st) (timers st) (handles st)
             (nextTimer st) (nextHandle st) (trace st ++ tr))
    ∧ linesOf tr = nonBlank lines
    ∧ portsOf tr
      = match cb2 with
        | Some _ => omap detectPortFromLog (nonBlank lines)
        | None => []
        end
    ∧ Forall (fun e =>
        match e with
        | OnLog c (Line _) => c = cb1
        | OnPortDetected c _ => cb2 = Some c
        | _ => False
        end) tr.
Proof.
  induction lines as [|line lines IH]; intros st.
  - exists []. simpl. rewrite app_nil_r. destruct st, cb2; auto.
  - cbn [forEach]. unfold bind at 1.
    assert (∃ tr1,
      deliver cb1 cb2 line st
      = (tt, mkState (runningProcesses st) (stoppingProcesses st)
               (statsMonitoringTimers st) (timers st) (handles st)
               (nextTimer st) (nextHandle st) (trace st ++ tr1))
      ∧ linesOf tr1 = nonBlank [line]
      ∧ portsOf tr1
        = match cb2 with
          | Some _ => omap detectPortFromLog (nonBlank [line])
          | None => []
          end
      ∧ Forall (fun e =>
          match e with
          | OnLog c (Line _) => c = cb1
          | OnPortDetected c _ => cb2 = Some c
          | _ => False
          end) tr1) as (tr1 & -> & Hl1 & Hp1 & Hf1).
    { unfold deliver, nonBlank. simpl.
      destruct (truthy (trim line)); simpl.
      - destruct cb2 as [c|]; simpl.
        + destruct (detectPortFromLog line) as [port|] eqn:Hport; simpl.
          * pose proof (detectPortFromLog_in_range _ _ Hport) as Hrange.
            destruct (port =? 0)%Z eqn:Hz; [lia|].
            exists [OnLog cb1 (Line line); OnPortDetected c port].
            unfold bind, onLog, emit, ret. simpl.
            rewrite <- app_assoc. simpl. repeat split; auto.
          * exists [OnLog cb1 (Line line)].
            unfold bind, onLog, emit, ret. simpl. repeat split; auto.
        + exists [OnLog cb1 (Line line)].
          unfold bind, onLog, emit, ret. simpl. repeat split; auto.
      - exists []. unfold ret. rewrite app_nil_r.
        destruct st, cb2; repeat split; auto. }
    match goal with
    | |- context [forEach _ lines ?s] =>
        destruct (IH s) as (tr2 & -> & Hl2 & Hp2 & Hf2)
    end.
    simpl. exists (tr1 ++ tr2)%list. rewrite <- app_assoc.
    split; [reflexivity|]. split; [|split].
    + unfold linesOf in *. rewrite omap_app, Hl1, Hl2.
      unfold nonBlank. simpl. destruct (truthy (trim line)); reflexivity.
    + unfold portsOf in *. rewrite omap_app, Hp1, Hp2.
      destruct cb2; [|reflexivity].
      unfold nonBlank. simpl.
      destruct (truthy (trim line)); simpl; [|reflexivity].
      destruct (detectPortFromLog line); reflexivity.
    + apply Forall_app. auto.
Qed.

Lemma substringFrom_0 s : substringFrom 0 s = s.
Proof.
  unfold substringFrom. simpl. rewrite drop_0.
  apply string_of_list_ascii_of_string.
Qed.

(* a tick that finds the file grown *)
Lemma log_poll_fires o t a path cb1 cb2 pos st content :
  (0 < highWaterMark o)%nat →
  timers st !! t = Some (LogPollTimer a path cb1 cb2 pos) →
  logContent o = Some content →
  (size content >? pos)%Z = true →
  ∃ tr,
    snd (fireTimer o t st)
    = mkState (runningProcesses st) (stoppingProcesses st)
        (statsMonitoringTimers st)
        (<[t := LogPollTimer a path cb1 cb2 (size content)]> (timers st))
        (handles st) (nextTimer st) (nextHandle st) (trace st ++ tr)
    ∧ linesOf tr = nonBlank (removelast (split (substringFrom pos content)))
    ∧ portsOf tr
      = match cb2 with
        | Some _ =>
            omap detectPortFromLog
              (nonBlank (removelast (split (substringFrom pos content))))
        | None => []
        end
    ∧ Forall (fun e =>
        match e with
        | OnLog c (Line _) => c = cb1
        | OnPortDetected c _ => cb2 = Some c
        | _ => False
        end) tr.
Proof.
  intros Hhwm Ht Hlog Hsize.
  unfold fireTimer. unfold bind at 1. unfold gets at 1. rewrite Ht, Hlog.
  rewrite logPollTick_delivers by assumption.
  unfold bind.
  destruct (forEach_deliver cb1 cb2
              (removelast (split (substringFrom pos content))) st)
    as (tr & -> & Hl & Hp & Hf).
  unfold modify, withTimers. simpl. rewrite Ht.
  exists tr. auto.
Qed.



(* the replay of the previous log by recoverProcess *)
Lemma replay_trace cb lines :
  ∀ st,
    forEach (fun line =>
      if truthy (trim line) then onLog cb (Line line) else ret tt) lines st
    = (tt, mkState (runningProcesses st) (stoppingProcesses st)
             (statsMonitoringTimers st) (timers st) (handles st)
             (nextTimer st) (nextHandle st)
             (trace st ++ map (fun l => OnLog cb (Line l)) (nonBlank lines))).
Proof.
  induction lines as [|line lines IH]; intros st.
  - simpl. rewrite app_nil_r. destruct st; reflexivity.
  - cbn [forEach]. unfold bind, nonBlank. simpl.
    destruct (truthy (trim line)); simpl.
    + rewrite IH. unfold nonBlank. simpl. rewrite <- app_assoc. reflexivity.
    + unfold ret. rewrite IH. reflexivity.
Qed.

Lemma recoverProcess_replays w a p path cb1 cb2 cb3 st content :
  logFile w = Readable content →
  let st1 := snd (recoverProcess w a p path cb1 cb2 cb3 st) in
  timers st1 !! nextTimer st
  = Some (LogPollTimer a (logsDir w +:+ "/" +:+ a +:+ ".log") cb1 cb2 0)
  ∧ trace st1
    = (trace st ++ OnLog cb1 RecoveryLoading
       :: map (fun l => OnLog cb1 (Line l)) (nonBlank (split content))
       ++ [OnLog cb1 RecoveryLoaded; OnLog cb1 (ProcessStarted (Some p))])%list.
Proof.
  intros Hfile st1.
  assert (st1 = snd (recoverProcess w a p path cb1 cb2 cb3 st)) as Hst1
    by reflexivity.
  clearbody st1. revert Hst1.
  unfold recoverProcess. rewrite Hfile.
  unfold bind at 1. unfold bind at 1. unfold bind at 1.
  unfold onLog at 1. unfold emit at 1. cbn [fst snd].
  rewrite replay_trace. cbn [fst snd runningProcesses stoppingProcesses
    statsMonitoringTimers timers handles nextTimer nextHandle trace].
  unfold setupProcessHandlers, startStatsMonitoring, startWatch, stopWatch,
    startLogPolling, setLogPollInterval, setListeners, setWatchInterval,
    newHandle, pidOf, isRecovered, onLog.
  unfold bind, gets, modify, ret, emit, setTimer. simpl.
  rewrite truthy_path. simpl.
  rewrite lookup_insert_eq. simpl.
  destruct (statsMonitoringTimers st !! a); simpl;
    repeat (rewrite lookup_insert_eq; simpl); intros ->; simpl.
  all: split;
    [rewrite ?lookup_insert_ne by lia; apply lookup_insert_eq
    |rewrite <- !app_assoc; simpl; rewrite <- ?app_assoc; reflexivity].
Qed.

Lemma linesOf_replay cb lines :
  linesOf (map (fun l => OnLog cb (Line l)) lines) = lines.
Proof.
  induction lines as [|l lines IH]; [reflexivity|].
  exact (f_equal (cons l) IH).
Qed.

Lemma portsOf_replay cb lines :
  portsOf (map (fun l => OnLog cb (Line l)) lines) = [].
Proof.
  induction lines as [|l lines IH]; [reflexivity|]. exact IH.
Qed.

(** X11: recovery reads the log twice.  recoverProcess passes every
    non-blank line of the existing log file to onLog without looking
    for a port; the log poll it then starts begins at offset 0, so its
    first tick passes the complete lines of the same file to onLog a
    second time, and it is this tick that reports their ports. *)
Theorem recovery_replays_log_twice w o a p path cb1 cb2 cb3 st content :
  logFile w = Readable content →
  logContent o = Some content →
  (0 < highWaterMark o)%nat →
  (0 < size content)%Z →
  let st1 := snd (recoverProcess w a p path cb1 cb2 cb3 st) in
  let st2 := snd (fireTimer o (nextTimer st) st1) in
  linesOf (trace st1) = (linesOf (trace st) ++ nonBlank (split content))%list
  ∧ portsOf (trace st1) = portsOf (trace st)
  ∧ linesOf (trace st2)
    = (linesOf (trace st1) ++ nonBlank (removelast (split content)))%list
  ∧ portsOf (trace st2)
    = (portsOf (trace st1) ++
       match cb2 with
       | Some _ => omap detectPortFromLog (nonBlank (removelast (split content)))
       | None => []
       end)%list.
Proof.
  intros Hfile Hlog Hhwm Hsize st1 st2.
  destruct (recoverProcess_replays w a p path cb1 cb2 cb3 st content Hfile)
    as [Htimer Htrace].
  fold st1 in Htimer, Htrace.
  assert (st2 = snd (fireTimer o (nextTimer st) st1)) as Hst2
    by reflexivity.
  clearbody st2 st1. revert Hst2.
  unfold fireTimer. unfold bind at 1. unfold gets at 1.
  rewrite Htimer, Hlog.
  rewrite logPollTick_delivers by (assumption || (apply Z.gtb_lt; lia)).
  rewrite substringFrom_0. unfold bind.
  destruct (forEach_deliver cb1 cb2 (removelast (split content)) st1)
    as (tr & -> & Hl & Hp & _).
  unfold modify, withTimers. simpl. intros ->. simpl.
  rewrite Htrace.
  unfold linesOf, portsOf in *.
  rewrite !omap_app. simpl. rewrite !omap_app. simpl.
  fold (linesOf (map (λ l, OnLog cb1 (Line l)) (nonBlank (split content)))).
  fold (portsOf (map (λ l, OnLog cb1 (Line l)) (nonBlank (split content)))).
  rewrite linesOf_replay, portsOf_replay, Hl, Hp.
  rewrite !app_nil_r. auto.
Qed.

Lemma recovery_replays_log_twice_witness :
  let content := "Listening on port 8080" +:+ nl +:+ "half" in
  let w := mkRecoverWorld "/logs" (Readable content) 1000%Z in
  let st1 :=
    snd (recoverProcess w "app" 4242%Z "/apps/app" "log" (Some "port")
           (Some "stopped") init) in
  let st2 := snd (fireTimer (tickWithLog content) 0%nat st1) in
  linesOf (trace st1) = ["Listening on port 8080"; "half"]
  ∧ portsOf (trace st1) = []
  ∧ linesOf (trace st2)
    = ["Listening on port 8080"; "half"; "Listening on port 8080"]
  ∧ portsOf (trace st2) = [8080%Z].
Proof.
  intros content w st1 st2.
  destruct (recovery_replays_log_twice w (tickWithLog content) "app" 4242%Z
              "/apps/app" "log" (Some "port") (Some "stopped") init content)
    as (H1 & H2 & H3 & H4).
  - reflexivity.
  - reflexivity.
  - change (0 < 64 * 1024)%nat. lia.
  - vm_compute. reflexivity.
  - split; [|split; [|split]].
    + refine (eq_trans H1 _). vm_compute. reflexivity.
    + refine (eq_trans H2 _). vm_compute. reflexivity.
    + refine (eq_trans H3 _). vm_compute. reflexivity.
    + refine (eq_trans H4 _). vm_compute. reflexivity.
Defined.

End Polls.

(** ** Further properties of the port sniffer *)
Section SnifferFacts.
Import Regex PortSniffer Patterns.

Lemma errorPatterns_phrases : errorPatterns = map literal negativePhrases.
Proof. reflexivity. Qed.

(* a literal matches its own text in any letter case *)
Lemma run_literal_of cs :
  ∀ cs' rest cap k,
    sameLetters cs cs' →
    run (literal_of cs) (cs' ++ rest)%list cap k = k rest cap.
Proof.
  induction cs as [|c cs IH]; intros cs' rest cap k Hsame.
  - inversion Hsame; subst. reflexivity.
  - inversion Hsame as [|c1 c2 l1 l2 Hc Hrest]; subst.
    assert (atom_match (Lit c) c2 = true) as Hm.
    { simpl. rewrite Hc. apply N.eqb_refl. }
    destruct cs as [|d cs].
    + inversion Hrest; subst. simpl in *. rewrite Hm. reflexivity.
    + change (literal_of (c :: d :: cs))
        with (Cat (Atom (Lit c)) (literal_of (d :: cs))).
      change ((c2 :: l2) ++ rest)%list with (c2 :: (l2 ++ rest))%list.
      cbn [run]. rewrite Hm. apply IH, Hrest.
Qed.

(* a match somewhere in the text is found by the search *)
Lemma search_finds r pre s cap :
  run r s None (fun _ cap' => Some cap') = Some cap →
  is_Some (search r (pre ++ s)%list).
Proof.
  intros Hrun. induction pre as [|c pre IH]; simpl.
  - destruct s; simpl; rewrite Hrun; eauto.
  - destruct (run r (c :: pre ++ s) None _); eauto.
Qed.

Lemma test_literal phrase pre phrase' post :
  sameLetters (list_ascii_of_string phrase) phrase' →
  test (literal phrase)
    (string_of_list_ascii (pre ++ phrase' ++ post)%list) = true.
Proof.
  intros Hsame. unfold test, exec, literal.
  rewrite list_ascii_of_string_of_list_ascii.
  destruct (search_finds (literal_of (list_ascii_of_string phrase)) pre
              (phrase' ++ post)%list None) as [cap ->]; [|reflexivity].
  apply run_literal_of, Hsame.
Qed.

(** X13: a line that contains one of the eleven negative phrases
    (error, failed, refused, timeout, cannot, unable, already in use,
    bind, connecting to, connect to, connection to), in any letter
    case and at any place, yields no port, whatever else it says. *)
Theorem negative_phrase_blocks_detection phrase pre phrase' post :
  In phrase negativePhrases →
  sameLetters (list_ascii_of_string phrase) phrase' →
  detectPortFromLog (string_of_list_ascii (pre ++ phrase' ++ post)%list)
  = None.
Proof.
  intros Hin Hsame. unfold detectPortFromLog.
  rewrite errorPatterns_phrases.
  assert (existsb
            (fun pattern =>
               test pattern
                 (string_of_list_ascii (pre ++ phrase' ++ post)%list))
            (map literal negativePhrases) = true) as ->; [|reflexivity].
  apply existsb_exists. exists (literal phrase). split.
  - apply in_map, Hin.
  - apply test_literal, Hsame.
Qed.

Lemma negative_phrase_blocks_detection_witness :
  detectPortFromLog "Server running on http://localhost:8080 (Bind ok)" = None.
Proof.
  apply (negative_phrase_blocks_detection "bind"
           (list_ascii_of_string "Server running on http://localhost:8080 (")
           (list_ascii_of_string "Bind")
           (list_ascii_of_string " ok)")).
  - vm_compute. tauto.
  - repeat constructor.
Defined.

(* a pattern that needs a digit finds nothing in a text without one *)
Lemma iterate_digitFree body greedy k :
  (∀ s cap k',
     digitFree s →
     (∀ s' cap', digitFree s' → k' s' cap' = None) →
     body s cap k' = None) →
  (∀ s' cap', digitFree s' → k s' cap' = None) →
  ∀ fuel s cap, digitFree s → iterate body greedy k fuel s cap = None.
Proof.
  intros Hbody Hk. induction fuel as [|fuel IH]; intros s cap Hs; simpl.
  - apply Hk, Hs.
  - assert (body s cap
              (fun s' cap' =>
                 if (length s' <? length s)%nat
                 then iterate body greedy k fuel s' cap' else None) = None)
      as Hround.
    { apply Hbody; [exact Hs|]. intros s' cap' Hs'.
      destruct (length s' <? length s)%nat; [apply IH, Hs'|reflexivity]. }
    destruct greedy; rewrite Hround, (Hk s cap Hs); reflexivity.
Qed.

Lemma run_digitFree r :
  ∀ s cap k,
    digitFree s →
    needsDigit r = true ∨ (∀ s' cap', digitFree s' → k s' cap' = None) →
    run r s cap k = None.
Proof.
  induction r as [|a|r1 IH1 r2 IH2|r1 IH1 r2 IH2|greedy r1 IH1|r1 IH1];
    intros s cap k Hs Hor; cbn [run].
  - destruct Hor as [Hn|Hk]; [discriminate|apply Hk, Hs].
  - destruct s as [|c s]; [reflexivity|].
    inversion Hs as [|? ? Hc Hs']; subst.
    destruct (atom_match a c) eqn:Hm; [|reflexivity].
    destruct Hor as [Hn|Hk]; [|apply Hk, Hs'].
    destruct a; try discriminate. simpl in Hm. congruence.
  - apply IH1; [exact Hs|].
    destruct Hor as [Hn|Hk].
    + simpl in Hn. apply orb_true_iff in Hn as [Hn|Hn]; [left; exact Hn|].
      right. intros s' cap' Hs'. apply IH2; auto.
    + right. intros s' cap' Hs'. apply IH2; auto.
  - assert (needsDigit r1 = true ∧ needsDigit r2 = true
            ∨ (∀ s' cap', digitFree s' → k s' cap' = None)) as Hor'.
    { destruct Hor as [Hn|Hk]; [left|right; exact Hk].
      simpl in Hn. apply andb_true_iff in Hn. exact Hn. }
    rewrite IH1 by (destruct Hor' as [[? ?]|?]; auto).
    apply IH2; destruct Hor' as [[? ?]|?]; auto.
  - destruct Hor as [Hn|Hk]; [discriminate|].
    apply iterate_digitFree; auto.
  - apply IH1; [exact Hs|].
    destruct Hor as [Hn|Hk]; [left; exact Hn|].
    right. intros s' cap' Hs'. apply Hk, Hs'.
Qed.

Lemma search_digitFree r s :
  needsDigit r = true → digitFree s → search r s = None.
Proof.
  intros Hn. induction s as [|c s IH]; intros Hs; simpl.
  - rewrite run_digitFree by auto. reflexivity.
  - rewrite run_digitFree by auto.
    inversion Hs; subst. auto.
Qed.

Lemma firstPort_digitFree patterns message :
  forallb needsDigit patterns = true →
  digitFree (list_ascii_of_string message) →
  firstPort patterns message = None.
Proof.
  intros Hall Hs. induction patterns as [|pattern rest IH]; [reflexivity|].
  simpl in Hall. apply andb_true_iff in Hall as [Hn Hrest].
  simpl. unfold candidate, exec.
  rewrite search_digitFree by assumption. auto.
Qed.

(** X14: a line without a decimal digit yields no port: every pattern
    of the three lists ends in the group (\d+), which cannot match. *)
Theorem line_without_digit_has_no_port message :
  digitFree (list_ascii_of_string message) →
  detectPortFromLog message = None.
Proof.
  intros Hs. unfold detectPortFromLog.
  destruct (existsb _ errorPatterns); [reflexivity|].
  rewrite !firstPort_digitFree by (assumption || reflexivity).
  reflexivity.
Qed.

Lemma line_without_digit_has_no_port_witness :
  detectPortFromLog "Server listening on port :http" = None.
Proof.
  apply line_without_digit_has_no_port.
  repeat constructor.
Defined.

End SnifferFacts.

(** ** Secrets at rest *)
Section SecureStorageFacts.
Import Text SecureStorage.

Lemma substringFrom_plain s : substringFrom 6 ("plain:" +:+ s) = s.
Proof.
  unfold substringFrom.
  change (string_of_list_ascii (list_ascii_of_string s) = s).
  apply string_of_list_ascii_of_string.
Qed.

Lemma prefix_plain s : String.prefix "plain:" ("plain:" +:+ s) = true.
Proof. destruct s; reflexivity. Qed.

(* the fallback form is read back whether or not encryption is available *)
Lemma decrypt_plain available decryptString s :
  decryptSecret available decryptString ("plain:" +:+ s) = s.
Proof.
  unfold decryptSecret. rewrite prefix_plain. apply substringFrom_plain.
Qed.




End SecureStorageFacts.

(** ** The global secrets *)
Section SecretsFacts.
Import Text Secrets.

Variable encryptSecret : string → string.

Lemma find_true p (m : gmap string GlobalSecret) :
  find p m = true ↔ ∃ i s, m !! i = Some s ∧ p s = true.
Proof.
  unfold find. rewrite existsb_exists. split.
  - intros (s & Hin & Hp). apply list_elem_of_In in Hin.
    apply list_elem_of_fmap in Hin as ([i s'] & -> & Hin).
    apply elem_of_map_to_list in Hin. eauto.
  - intros (i & s & Hs & Hp). exists s. split; [|exact Hp].
    apply list_elem_of_In, list_elem_of_fmap. exists (i, s).
    split; [reflexivity|]. apply elem_of_map_to_list, Hs.
Qed.

Lemma find_false p (m : gmap string GlobalSecret) i s :
  find p m = false → m !! i = Some s → p s = false.
Proof.
  intros Hfind Hs. destruct (p s) eqn:Hp; [|reflexivity].
  rewrite <- Hfind. symmetry. apply find_true. eauto.
Qed.

Lemma saveGlobalSecrets_memory w st :
  globalSecrets (snd (saveGlobalSecrets encryptSecret w st)) = globalSecrets st.
Proof. unfold saveGlobalSecrets. destruct (writeFileSync w); reflexivity. Qed.

(* the in-memory map after each call *)
Lemma createGlobalSecret_memory w secret st :
  globalSecrets (snd (createGlobalSecret encryptSecret w secret st))
  = if find (fun s => String.eqb (name s) (newName secret)) (globalSecrets st)
    then globalSecrets st
    else <[randomUUID w :=
             mkGlobalSecret (randomUUID w) (newName secret) (newValue secret)
               (newDescription secret) (now w) (now w)]> (globalSecrets st).
Proof.
  unfold createGlobalSecret, saveGlobalSecrets.
  destruct (find _ _); [reflexivity|].
  destruct (writeFileSync w); reflexivity.
Qed.

Lemma Named_empty : Named ∅.
Proof. split; intros *; rewrite lookup_empty; discriminate. Qed.

Lemma Named_create w secret st :
  Named (globalSecrets st) →
  Named (globalSecrets (snd (createGlobalSecret encryptSecret w secret st))).
Proof.
  intros [Hkey Honce]. rewrite createGlobalSecret_memory.
  destruct (find _ _) eqn:Hfind; [split; assumption|].
  split.
  - intros i s. destruct (decide (randomUUID w = i)) as [<-|Hne].
    + rewrite lookup_insert_eq. intros [= <-]. reflexivity.
    + rewrite lookup_insert_ne by done. apply Hkey.
  - intros i j s t.
    destruct (decide (randomUUID w = i)) as [<-|Hi];
      destruct (decide (randomUUID w = j)) as [<-|Hj];
      rewrite ?lookup_insert_eq, ?lookup_insert_ne by done.
    + reflexivity.
    + intros [= <-] Ht Hname _. simpl in Hname.
      pose proof (find_false _ _ _ _ Hfind Ht) as Hp. simpl in Hp.
      rewrite Hname, String.eqb_refl in Hp. discriminate.
    + intros Hs [= <-] Hname _. simpl in Hname.
      pose proof (find_false _ _ _ _ Hfind Hs) as Hp. simpl in Hp.
      rewrite Hname, String.eqb_refl in Hp. discriminate.
    + apply Honce.
Qed.

Lemma Named_update w secretId updates st :
  Named (globalSecrets st) →
  Named (globalSecrets
           (snd (updateGlobalSecret encryptSecret w secretId updates st))).
Proof.
  intros HN. pose proof HN as [Hkey Honce]. unfold updateGlobalSecret.
  destruct (globalSecrets st !! secretId) as [secret|] eqn:Hsecret;
    [|exact HN].
  match goal with |- context [if ?d then _ else _] =>
    destruct d eqn:Hdup end; [exact HN|].
  match goal with |- context [if negb (truthy ?v) then _ else _] =>
    destruct (truthy v) end; simpl; [|exact HN].
  match goal with |- context [saveGlobalSecrets _ _ ?s] =>
    pose proof (saveGlobalSecrets_memory w s) as Hmem;
    destruct (saveGlobalSecrets encryptSecret w s) as [[message|] st2]
  end; simpl in *; rewrite Hmem; clear Hmem.
  all: split.
  all: try (intros i s; destruct (decide (secretId = i)) as [<-|Hne];
            [rewrite lookup_insert_eq; intros [= <-]; simpl;
             eapply Hkey, Hsecret
            |rewrite lookup_insert_ne by done; apply Hkey]).
  all: intros i j s t;
    destruct (decide (secretId = i)) as [<-|Hi];
    destruct (decide (secretId = j)) as [<-|Hj];
    rewrite ?lookup_insert_eq, ?lookup_insert_ne by done;
    [reflexivity| | |apply Honce].
  all: destruct (updatesName updates) as [n|] eqn:Hn; simpl in *.
  all: try (intros [= <-] Ht Hname Hne; simpl in *;
            apply (Honce _ _ _ _ Hsecret Ht Hname Hne)).
  all: try (intros Hs [= <-] Hname Hne; simpl in *;
            apply (Honce _ _ _ _ Hs Hsecret Hname Hne)).
  all: try (intros [= <-] Ht Hname Hne; simpl in *;
            destruct (String.eqb n (name secret)) eqn:Hsame;
            [apply String.eqb_eq in Hsame; subst n;
             apply (Honce _ _ _ _ Hsecret Ht Hname Hne)|];
            destruct n as [|c n]; [congruence|]; simpl in Hdup;
            pose proof (find_false _ _ _ _ Hdup Ht) as Hp; simpl in Hp;
            rewrite <- Hname, String.eqb_refl, andb_true_r in Hp;
            apply negb_false_iff, String.eqb_eq in Hp;
            rewrite (Hkey _ _ Ht) in Hp; congruence).
  all: try (intros Hs [= <-] Hname Hne; simpl in *;
            destruct (String.eqb n (name secret)) eqn:Hsame;
            [apply String.eqb_eq in Hsame; subst n;
             apply (Honce _ _ _ _ Hs Hsecret Hname Hne)|];
            destruct n as [|c n]; [congruence|]; simpl in Hdup;
            pose proof (find_false _ _ _ _ Hdup Hs) as Hp; simpl in Hp;
            rewrite Hname, String.eqb_refl, andb_true_r in Hp;
            apply negb_false_iff, String.eqb_eq in Hp;
            rewrite (Hkey _ _ Hs) in Hp; congruence).
Qed.

Lemma Named_delete w secretId st :
  Named (globalSecrets st) →
  Named (globalSecrets (snd (deleteGlobalSecret encryptSecret w secretId st))).
Proof.
  intros HN. pose proof HN as [Hkey Honce]. unfold deleteGlobalSecret.
  destruct (globalSecrets st !! secretId) as [secret|] eqn:Hsecret;
    [|exact HN].
  match goal with |- context [saveGlobalSecrets _ _ ?s] =>
    pose proof (saveGlobalSecrets_memory w s) as Hmem;
    destruct (saveGlobalSecrets encryptSecret w s) as [[message|] st2]
  end; simpl in *; rewrite Hmem; clear Hmem.
  all: split.
  all: try (intros i s Hs; apply lookup_delete_Some in Hs as [_ Hs];
            apply Hkey, Hs).
  all: intros i j s t Hs Ht;
    apply lookup_delete_Some in Hs as [_ Hs];
    apply lookup_delete_Some in Ht as [_ Ht];
    apply (Honce _ _ _ _ Hs Ht).
Qed.

(** X16: names stay unique.  In every store reached from the empty
    one by createGlobalSecret, updateGlobalSecret and
    deleteGlobalSecret calls (whatever randomUUID and Date.now
    answer, and whether or not the write to secrets.json fails), each
    secret is stored under its own id and no two secrets have the
    same non-empty name. *)
Theorem secret_names_stay_unique cs :
  Named (globalSecrets (calls encryptSecret Secrets.empty cs)).
Proof.
  assert (∀ st, Named (globalSecrets st) →
                Named (globalSecrets (calls encryptSecret st cs))) as Hall.
  { induction cs as [|c cs IH]; intros st HN; simpl; [exact HN|].
    apply IH. destruct c; simpl.
    - apply Named_create, HN.
    - apply Named_update, HN.
    - apply Named_delete, HN. }
  apply Hall, Named_empty.
Qed.

Variable decryptSecret : string → string.

(** X17: what resolveSecretValue answers after a call.  After a
    successful createGlobalSecret the new id resolves to the given
    value; after a successful updateGlobalSecret the id resolves to
    the new value if one was given and to the old one otherwise, and
    that value is never empty; after a successful deleteGlobalSecret
    the id resolves to nothing.  No call changes what another id
    resolves to. *)
Theorem resolve_after_call w st st' :
  (∀ secret i,
     createGlobalSecret encryptSecret w secret st = (Ok (Some i), st') →
     i = randomUUID w
     ∧ resolveSecretValue i st' = Some (newValue secret)
     ∧ ∀ j, j ≠ i → resolveSecretValue j st' = resolveSecretValue j st)
  ∧ (∀ i updates r,
       updateGlobalSecret encryptSecret w i updates st = (Ok r, st') →
       ∃ v, resolveSecretValue i st' = Some v
            ∧ v ≠ ""
            ∧ Some v = (match updatesValue updates with
                        | Some new => Some new
                        | None => resolveSecretValue i st
                        end)
            ∧ ∀ j, j ≠ i → resolveSecretValue j st' = resolveSecretValue j st)
  ∧ (∀ i r,
       deleteGlobalSecret encryptSecret w i st = (Ok r, st') →
       resolveSecretValue i st' = None
       ∧ ∀ j, j ≠ i → resolveSecretValue j st' = resolveSecretValue j st).
Proof.
  unfold resolveSecretValue. split; [|split].
  - intros secret i. unfold createGlobalSecret, saveGlobalSecrets.
    destruct (find _ _); [discriminate|].
    destruct (writeFileSync w); [discriminate|].
    intros [= <- <-]. simpl. split; [reflexivity|]. split.
    + rewrite lookup_insert_eq. reflexivity.
    + intros j Hj. rewrite lookup_insert_ne by done. reflexivity.
  - intros i updates r. unfold updateGlobalSecret, saveGlobalSecrets.
    destruct (globalSecrets st !! i) as [secret|] eqn:Hsecret;
      [|discriminate].
    match goal with |- context [if ?d then _ else _] =>
      destruct d end; [discriminate|].
    simpl.
    destruct (truthy (default (value secret) (updatesValue updates)))
      eqn:Hvalue; simpl; [|discriminate].
    destruct (writeFileSync w); [discriminate|].
    intros [= <- <-]. simpl.
    exists (default (value secret) (updatesValue updates)).
    rewrite lookup_insert_eq. simpl. split; [reflexivity|]. split; [|split].
    + intros Hempty. rewrite Hempty in Hvalue. discriminate.
    + destruct (updatesValue updates); reflexivity.
    + intros j Hj. rewrite lookup_insert_ne by done. reflexivity.
  - intros i r. unfold deleteGlobalSecret, saveGlobalSecrets.
    destruct (globalSecrets st !! i) as [secret|] eqn:Hsecret;
      [|discriminate].
    destruct (writeFileSync w); [discriminate|].
    intros [= <- <-]. simpl. split.
    + rewrite lookup_delete_eq. reflexivity.
    + intros j Hj. rewrite lookup_delete_ne by done. reflexivity.
Qed.

Lemma init_sealed m :
  (∀ v, decryptSecret (encryptSecret v) = v) →
  globalSecrets
    (initGlobalSecrets decryptSecret
       (mkStore ∅ (Some (sealed encryptSecret m))))
  = m.
Proof.
  intros Hround. unfold initGlobalSecrets, sealed. simpl.
  rewrite (right_id_L ∅ (∪)), <- map_fmap_compose.
  rewrite <- (map_fmap_id m) at 2.
  apply map_fmap_ext. intros i [] _. simpl. unfold withValue. simpl.
  rewrite Hround. reflexivity.
Qed.

(* a call that reports success has written the map it leaves *)
Lemma call_saved c st r :
  result encryptSecret st c = Ok r →
  secretsFile (call encryptSecret st c)
  = Some (sealed encryptSecret (globalSecrets (call encryptSecret st c))).
Proof.
  destruct c as [w secret|w i updates|w i]; simpl.
  - unfold createGlobalSecret, saveGlobalSecrets.
    destruct (find _ _); [discriminate|].
    destruct (writeFileSync w); [discriminate|]. reflexivity.
  - unfold updateGlobalSecret, saveGlobalSecrets.
    destruct (globalSecrets st !! i); [|discriminate].
    match goal with |- context [if ?d then _ else _] =>
      destruct d end; [discriminate|].
    match goal with |- context [if ?d then _ else _] =>
      destruct d end; [discriminate|].
    destruct (writeFileSync w); [discriminate|]. reflexivity.
  - unfold deleteGlobalSecret, saveGlobalSecrets.
    destruct (globalSecrets st !! i); [|discriminate].
    destruct (writeFileSync w); [discriminate|]. reflexivity.
Qed.

(** X18: the secrets survive a restart.  When decryptSecret undoes
    encryptSecret, a createGlobalSecret, updateGlobalSecret or
    deleteGlobalSecret that reports success has written a file in
    which every value is the encrypted one, and from which
    initGlobalSecrets, run on the empty map of a new session,
    restores exactly the secrets that are in memory. *)
Theorem secrets_survive_restart c st r :
  (∀ v, decryptSecret (encryptSecret v) = v) →
  result encryptSecret st c = Ok r →
  let st' := call encryptSecret st c in
  (∀ i secret,
     globalSecrets st' !! i = Some secret →
     (secretsFile st' ≫= (.!! i))
     = Some (withValue (encryptSecret (value secret)) secret))
  ∧ globalSecrets
      (initGlobalSecrets decryptSecret (mkStore ∅ (secretsFile st')))
    = globalSecrets st'.
Proof.
  intros Hround Hok st'. subst st'.
  rewrite (call_saved c st r Hok). split.
  - intros i secret Hsecret. simpl. unfold sealed.
    rewrite lookup_fmap, Hsecret. reflexivity.
  - apply init_sealed, Hround.
Qed.

(** X19: a failed write is not rolled back.  When writing
    secrets.json throws, createGlobalSecret, updateGlobalSecret and
    deleteGlobalSecret report the failure and leave the file as it
    was, but the map in memory has already been changed exactly as by
    the call that succeeds: the secret resolves (or no longer
    resolves) until the supervisor restarts. *)
Theorem failed_write_is_not_rolled_back c st message :
  result encryptSecret st c = Failed (Thrown message) →
  secretsFile (call encryptSecret st c) = secretsFile st
  ∧ globalSecrets (call encryptSecret st c)
    = globalSecrets (call encryptSecret st (written c))
  ∧ ∃ r, result encryptSecret st (written c) = Ok r.
Proof.
  destruct c as [w secret|w i updates|w i]; simpl.
  - unfold createGlobalSecret, saveGlobalSecrets. simpl.
    destruct (find _ _); [discriminate|].
    destruct (writeFileSync w); [|discriminate].
    intros _. simpl. eauto.
  - unfold updateGlobalSecret, saveGlobalSecrets. simpl.
    destruct (globalSecrets st !! i); [|discriminate].
    match goal with |- context [if ?d then _ else _] =>
      destruct d end; [discriminate|].
    match goal with |- context [if ?d then _ else _] =>
      destruct d end; [discriminate|].
    destruct (writeFileSync w); [|discriminate].
    intros _. simpl. eauto.
  - unfold deleteGlobalSecret, saveGlobalSecrets. simpl.
    destruct (globalSecrets st !! i); [|discriminate].
    destruct (writeFileSync w); [|discriminate].
    intros _. simpl. eauto.
Qed.

(** X20: the check for a duplicate name is skipped for the empty
    name.  updateGlobalSecret with name '' succeeds on any secret
    whose value is not empty, whatever the names of the other
    secrets, while createGlobalSecret with a name that is taken, the
    empty one included, is refused and changes nothing. *)
Theorem empty_name_is_not_checked w st i secret other j :
  globalSecrets st !! i = Some secret →
  value secret ≠ "" →
  writeFileSync w = None →
  globalSecrets st !! j = Some other →
  let updates := mkUpdates (Some "") None None in
  let st' := snd (updateGlobalSecret encryptSecret w i updates st) in
  fst (updateGlobalSecret encryptSecret w i updates st) = Ok None
  ∧ name <$> globalSecrets st' !! i = Some ""
  ∧ (∀ v d,
       createGlobalSecret encryptSecret w (mkNewSecret (name other) v d) st
       = (Failed (DuplicateName (name other)), st)).
Proof.
  intros Hsecret Hvalue Hwrite Hother updates st'. subst st' updates.
  unfold updateGlobalSecret, saveGlobalSecrets. rewrite Hsecret, Hwrite.
  simpl. destruct (value secret) eqn:Hv; [congruence|]. simpl.
  rewrite lookup_insert_eq. simpl. split; [reflexivity|].
  split; [reflexivity|].
  intros v d. unfold createGlobalSecret. simpl.
  assert (find (λ s, String.eqb (name s) (name other)) (globalSecrets st)
          = true) as ->; [|reflexivity].
  apply find_true. exists j, other. split; [exact Hother|].
  apply String.eqb_refl.
Qed.

End SecretsFacts.

Section SecretsWitnesses.
Import Text Secrets.

Lemma resolve_after_call_witness :
  let w := mkSecretWorld "id-3" 30 None in
  resolveSecretValue "id-3"
    (snd (createGlobalSecret plain w (mkNewSecret "NEW" "v" None) sampleStore))
  = Some "v".
Proof.
  intros w.
  apply (proj1 (resolve_after_call plain w sampleStore
                  (snd (createGlobalSecret plain w (mkNewSecret "NEW" "v" None)
                          sampleStore)))
           (mkNewSecret "NEW" "v" None) "id-3").
  vm_compute. reflexivity.
Defined.

Lemma secrets_survive_restart_witness :
  let c := Update (mkSecretWorld "" 30 None) "id-1"
             (mkUpdates None (Some "def") None) in
  let st' := call plain sampleStore c in
  globalSecrets (initGlobalSecrets unplain (mkStore ∅ (secretsFile st')))
  = globalSecrets st'.
Proof.
  intros c st'.
  apply (secrets_survive_restart plain unplain c sampleStore None).
  - intros v. apply decrypt_plain.
  - vm_compute. reflexivity.
Defined.

Lemma failed_write_is_not_rolled_back_witness :
  let c := Delete (mkSecretWorld "" 30 (Some "EACCES")) "id-1" in
  secretsFile (call plain sampleStore c) = secretsFile sampleStore
  ∧ globalSecrets (call plain sampleStore c)
    = globalSecrets (call plain sampleStore (written c))
  ∧ ∃ r, result plain sampleStore (written c) = Ok r.
Proof.
  intros c.
  apply (failed_write_is_not_rolled_back plain c sampleStore "EACCES").
  vm_compute. reflexivity.
Defined.

Lemma empty_name_is_not_checked_witness :
  let w := mkSecretWorld "id-3" 30 None in
  fst (updateGlobalSecret plain w "id-1" (mkUpdates (Some "") None None)
         sampleStore) = Ok None
  ∧ createGlobalSecret plain w (mkNewSecret "KEY" "v" None) sampleStore
    = (Failed (DuplicateName "KEY"), sampleStore).
Proof.
  intros w.
  destruct (empty_name_is_not_checked plain w sampleStore "id-1"
              (mkGlobalSecret "id-1" "TOKEN" "abc" None 10 10)
              (mkGlobalSecret "id-2" "KEY" "xyz" None 20 20) "id-2")
    as (H1 & _ & H3);
    [vm_compute; reflexivity | discriminate | reflexivity
    | vm_compute; reflexivity |].
  split; [exact H1|apply H3].
Defined.

End SecretsWitnesses.

(** ** The handlers of the main process *)
Section HandlerFacts.
Import Text Runner Main Handlers Samples.

Variable encryptSecret : string → string.
Variable resolveSecretValue : string → option string.
Variable errorText : RunnerError → string.
Variable isProcessAlive : Z → bool.

Lemma stopped_stopped app : stopped (stopped app) = stopped app.
Proof. reflexivity. Qed.

(** X21: handleProcessStopped.  For a known application it sets the
    status to 'installed', clears pid and port, leaves every other
    application as it was and writes apps.json at once; for an unknown
    one it does nothing.  A second call for the same application
    changes nothing more, so a stop that is reported twice leaves the
    list as a stop that is reported once. *)
Theorem stop_notification_twice_is_once a s :
  handleProcessStopped encryptSecret a (handleProcessStopped encryptSecret a s)
  = handleProcessStopped encryptSecret a s
  ∧ (apps s !! a = None → handleProcessStopped encryptSecret a s = s)
  ∧ (∀ app,
       apps s !! a = Some app →
       let s' := handleProcessStopped encryptSecret a s in
       apps s' !! a = Some (stopped app)
       ∧ (∀ b, b ≠ a → apps s' !! b = apps s !! b)
       ∧ appsFile s' = saveApps encryptSecret (apps s')
       ∧ runner s' = runner s).
Proof.
  unfold handleProcessStopped.
  destruct (apps s !! a) as [app|] eqn:Happ; simpl.
  - rewrite lookup_insert_eq, insert_insert_eq.
    split; [reflexivity|]. split; [discriminate|].
    intros app' [= <-].
    repeat split; try reflexivity.
    intros b Hb. rewrite lookup_insert_ne by done. reflexivity.
  - rewrite Happ. split; [reflexivity|]. split; [reflexivity|]. discriminate.
Qed.

(** X22: a launch that fails.  When run-app returns the error of the
    runner, the application is left in status 'error' with the text of
    that error, and apps.json is not written.  From then on run-app
    answers not_installed without calling the runner, until update-app
    is given a run command, which sets the status back to 'installed'
    and clears the message. *)
Theorem failed_launch_needs_update w a s error s1 :
  runAppHandler encryptSecret resolveSecretValue errorText isProcessAlive
    w a s = (Refused (RunnerFailed error), s1) →
  ∃ app,
    apps s !! a = Some app
    ∧ apps s1 !! a = Some (errorApp (errorText error) app)
    ∧ appsFile s1 = appsFile s
    ∧ (∀ w',
         runAppHandler encryptSecret resolveSecretValue errorText
           isProcessAlive w' a s1 = (Refused NotInstalledError, s1))
    ∧ (∀ c,
         truthy c = true →
         let s2 :=
           snd (updateAppHandler encryptSecret a
                  (mkAppUpdates None (Some c) None None None) s1) in
         ∃ app2,
           apps s2 !! a = Some app2
           ∧ status app2 = Installed
           ∧ errorMessage app2 = None
           ∧ runCommand app2 = Some c
           ∧ appsFile s2 = saveApps encryptSecret (apps s2)).
Proof.
  unfold runAppHandler.
  destruct (apps s !! a) as [app|] eqn:Happ; [|discriminate].
  destruct (status app) eqn:Hstatus; try discriminate.
  destruct (isRunning isProcessAlive a (runner s)); [discriminate|].
  destruct (runApp w a _ _ _ a (Some a) (Some a) (runner s))
    as [[p|e] runner'] eqn:Hrun; [discriminate|].
  intros [= <- <-]. exists app. simpl.
  rewrite lookup_insert_eq. simpl.
  split; [reflexivity|]. split; [reflexivity|]. split; [reflexivity|].
  split; [reflexivity|].
  intros c Hc. unfold updateAppHandler. simpl.
  rewrite lookup_insert_eq. simpl. rewrite Hc.
  eexists. rewrite lookup_insert_eq. repeat split; reflexivity.
Qed.



Lemma runAppHandler_done w a s s1 :
  runAppHandler encryptSecret resolveSecretValue errorText isProcessAlive
    w a s = (Done, s1) →
  ∃ app p,
    apps s !! a = Some app
    ∧ status app = Installed
    ∧ runApp w a (default "" (installPath app)) (runCommand app)
        (Some (mergedEnv resolveSecretValue app)) a (Some a) (Some a)
        (runner s) = (Success p, runner s1)
    ∧ apps s1 = <[a := runningApp p app]> (apps s)
    ∧ appsFile s1 = saveApps encryptSecret (apps s1).
Proof.
  unfold runAppHandler.
  destruct (apps s !! a) as [app|] eqn:Happ; [|discriminate].
  destruct (status app) eqn:Hstatus; try discriminate.
  destruct (isRunning isProcessAlive a (runner s)); [discriminate|].
  destruct (runApp w a _ _ _ a (Some a) (Some a) (runner s))
    as [[p|e] runner'] eqn:Hrun; [|discriminate].
  intros [= <-]. exists app, p. simpl. auto.
Qed.


(** X25: from run-app to the exit.  When run-app succeeds, the
    application is 'running' with the pid of the child and apps.json
    holds that pid; when the 'close' event of the child arrives, the
    runner drops its entry and calls the stop callback, which sets the
    application back to 'installed', clears pid and port and writes
    apps.json again. *)
Theorem exit_returns_app_to_installed w a s s1 code :
  runAppHandler encryptSecret resolveSecretValue errorText isProcessAlive
    w a s = (Done, s1) →
  let s2 :=
    runnerEvent encryptSecret s1 (ProcessCloses (nextHandle (runner s)) code) in
  ∃ app,
    apps s !! a = Some app
    ∧ apps s1 !! a = Some (runningApp (spawnedPid w) app)
    ∧ appsFile s1 = saveApps encryptSecret (apps s1)
    ∧ apps s2 !! a = Some (stopped app)
    ∧ (∀ b, b ≠ a → apps s2 !! b = apps s !! b)
    ∧ appsFile s2 = saveApps encryptSecret (apps s2)
    ∧ runningProcesses (runner s2) !! a = None.
Proof.
  intros Hdone s2.
  destruct (runAppHandler_done _ _ _ _ Hdone)
    as (app & p & Happ & _ & Hrun & Happs & Hfile).
  destruct (runApp_cases w a (default "" (installPath app)) (runCommand app)
              (Some (mergedEnv resolveSecretValue app)) a (Some a) (Some a)
              (runner s)) as [[e He]|(logged & args & _ & Hlaunch)];
    [rewrite He in Hrun; discriminate|].
  rewrite Hlaunch in Hrun.
  destruct (launchThrows w) as [message|] eqn:Hthrow;
    [rewrite (launch_throws _ _ _ _ _ _ _ _ _ message Hthrow) in Hrun;
     discriminate|].
  match type of Hrun with
  | launch w args a ?path ?env a (Some a) (Some a) ?st0 = _ =>
      pose proof (launch_spawns w args a path env a (Some a) (Some a) st0
                    Hthrow) as [Hp _];
      pose proof (launch_registers w args a path env a (Some a) (Some a) st0
                    Hthrow) as (_ & Hhandle & _)
  end.
  rewrite Hrun in Hp, Hhandle. simpl in Hp, Hhandle. injection Hp as ->.
  destruct (proj1 (listener_event (runner s1) (nextHandle (runner s)) _ _
                     Hhandle eq_refl) code) as (Htrace & Hreg & _).
  simpl in Htrace, Hreg.
  assert (s2 = handleProcessStopped encryptSecret a
                 (mkSupervisor (apps s1)
                    (snd (emitClose (nextHandle (runner s)) code (runner s1)))
                    (appsFile s1) (saveAppsTimer s1))) as Hs2.
  { unfold s2, runnerEvent. simpl. rewrite Htrace.
    rewrite drop_app_length. reflexivity. }
  clearbody s2. subst s2.
  exists app. unfold handleProcessStopped. simpl.
  rewrite Happs, lookup_insert_eq. simpl.
  split; [exact Happ|]. split; [reflexivity|].
  split; [rewrite <- Happs; exact Hfile|].
  rewrite ?lookup_insert_eq, ?insert_insert_eq.
  split; [reflexivity|]. split; [|split; [reflexivity|]].
  - intros b Hb. rewrite lookup_insert_ne by done. reflexivity.
  - rewrite Hreg. apply lookup_delete_eq.
Qed.

End HandlerFacts.

Section HandlerWitnesses.
Import Text Runner Main Handlers Samples.

Lemma stop_notification_twice_is_once_witness :
  let s' := handleProcessStopped plainId "app" sampleSupervisor in
  apps s' !! "app" = Some (stopped sampleApp)
  ∧ handleProcessStopped plainId "app" s' = s'.
Proof.
  intros s'.
  destruct (stop_notification_twice_is_once plainId "app" sampleSupervisor)
    as (H1 & _ & H3).
  destruct (H3 sampleApp) as (H4 & _); [vm_compute; reflexivity|].
  split; [exact H4|exact H1].
Defined.

Lemma failed_launch_needs_update_witness :
  let w := mkLaunchWorld (fun _ => None) plainParse "uv" "/logs" ∅
             (Some "EACCES") (Some 4242%Z) 1000%Z in
  let s1 :=
    snd (runAppHandler plainId sampleResolve plainError (fun _ => true) w "app"
           sampleSupervisor) in
  status <$> apps s1 !! "app" = Some Error
  ∧ runAppHandler plainId sampleResolve plainError (fun _ => true) hostWorld
      "app" s1 = (Refused NotInstalledError, s1).
Proof.
  intros w s1.
  destruct (failed_launch_needs_update plainId sampleResolve plainError
              (fun _ => true) w "app" sampleSupervisor (StartFailed "EACCES")
              s1) as (app & _ & H2 & _ & H4 & _).
  { vm_compute. reflexivity. }
  split; [rewrite H2; reflexivity|apply H4].
Defined.



Lemma exit_returns_app_to_installed_witness :
  let s1 :=
    snd (runAppHandler plainId sampleResolve plainError (fun _ => true)
           hostWorld "app" sampleSupervisor) in
  let s2 := runnerEvent plainId s1 (ProcessCloses 0%nat (Some 0%Z)) in
  apps s1 !! "app" = Some (runningApp (Some 4242%Z) sampleApp)
  ∧ apps s2 !! "app" = Some (stopped sampleApp)
  ∧ runningProcesses (runner s2) !! "app" = None.
Proof.
  intros s1 s2.
  destruct (exit_returns_app_to_installed plainId sampleResolve plainError
              (fun _ => true) hostWorld "app" sampleSupervisor s1 (Some 0%Z))
    as (app & Happ & H1 & _ & H2 & _ & _ & H3).
  { vm_compute. reflexivity. }
  assert (Some sampleApp = Some app) as [= <-] by exact Happ.
  split; [exact H1|]. split; [exact H2|exact H3].
Defined.

End HandlerWitnesses.

(** ** The log poll outlives the process *)
Module TagFacts.
Import Text Runner Invariant InvariantFacts Tags.

Create HintDb tagged discriminated.

(* lookups in maps that were inserted into or deleted from *)
Ltac map_cases :=
  repeat match goal with
  | H : context [<[?i := _]> _ !! ?j] |- _ =>
      destruct (decide (i = j));
      [subst; rewrite lookup_insert_eq in H
      |rewrite lookup_insert_ne in H by done]
  | H : context [delete ?i _ !! ?j] |- _ =>
      destruct (decide (i = j));
      [subst; rewrite lookup_delete_eq in H
      |rewrite lookup_delete_ne in H by done]
  | |- context [<[?i := _]> _ !! ?j] =>
      destruct (decide (i = j));
      [subst; rewrite lookup_insert_eq
      |rewrite lookup_insert_ne by done]
  | |- context [delete ?i _ !! ?j] =>
      destruct (decide (i = j));
      [subst; rewrite lookup_delete_eq
      |rewrite lookup_delete_ne by done]
  end.

Lemma Tagged_init : Tagged init.
Proof.
  split; simpl; intros *;
    change (runningProcesses init) with (∅ : gmap string ProcessInfo);
    rewrite ?lookup_empty; discriminate.
Qed.

Lemma holds_ret {A : Type} (a : A) : holds (ret a).
Proof. intros st _ H. exact H. Qed.

Lemma holds_gets {A : Type} (f : State → A) : holds (gets f).
Proof. intros st _ H. exact H. Qed.

Lemma holds_bind {A B : Type} (m : M A) (f : A → M B) :
  keeps m → holds m → (∀ a, holds (f a)) → holds (bind m f).
Proof.
  intros Hk Hm Hf st HI HT. unfold bind.
  specialize (Hk st HI). specialize (Hm st HI HT).
  destruct (m st) as [a st']. simpl in *. apply Hf; assumption.
Qed.

Lemma holds_bind_gets {A B : Type} (g : State → A) (f : A → M B) :
  (∀ st, Inv st → Tagged st → Tagged (snd (f (g st) st))) →
  holds (bind (gets g) f).
Proof. intros H st HI HT. unfold bind, gets. apply H; assumption. Qed.

Lemma holds_emit e : holds (emit e).
Proof. intros st _ [? ? ? ? ? ?]. split; simpl; eauto. Qed.

Lemma holds_setTimer task : holds (setTimer task).
Proof.
  intros st [Hk Ht Hs Hl Hd] [H1 H2 H3 H4 H5 H6]. split; simpl.
  - intros a t H. apply H1 in H. lia.
  - intros h obj t Ha Hb. specialize (H2 _ _ _ Ha Hb). lia.
  - intros a t task' Ha Hb. pose proof (Hs _ _ Ha).
    rewrite lookup_insert_ne in Hb by lia. eauto.
  - intros a t task' Ha Hb. pose proof (H1 _ _ Ha).
    rewrite lookup_insert_ne in Hb by lia. eauto.
  - intros h obj t task' Ha Hb Hc. pose proof (H2 _ _ _ Ha Hb).
    rewrite lookup_insert_ne in Hc by lia. eauto.
  - intros k info t Ha Hb. pose proof (Hl _ _ _ Ha Hb).
    rewrite lookup_insert_ne by lia. eauto.
Qed.

(* a timer that is not the log poll of an entry may be disarmed *)
Lemma Tagged_clearTimer st t :
  Tagged st →
  (∀ task, timers st !! t = Some task → timerKind task ≠ LogPollKind) →
  Tagged (snd (clearTimer t st)).
Proof.
  intros [H1 H2 H3 H4 H5 H6] Hkind. split; simpl; eauto.
  - intros a t' task Ha Hb. map_cases; [discriminate|]. eauto.
  - intros a t' task Ha Hb. map_cases; [discriminate|]. eauto.
  - intros h obj t' task Ha Hb Hc. map_cases; [discriminate|]. eauto.
  - intros k info t' Ha Hb.
    destruct (H6 _ _ _ Ha Hb) as (path & cb1 & cb2 & pos & Hc).
    map_cases; [|eauto].
    exfalso. eapply Hkind; [exact Hc|reflexivity].
Qed.

Lemma holds_stats_delete a : holds (modify (withStats (delete a))).
Proof.
  intros st _ [H1 H2 H3 H4 H5 H6]. split; simpl; eauto.
  intros a' t task Ha. map_cases; [discriminate|]. eauto.
Qed.

Lemma holds_stopping_delete a : holds (modify (withStopping (delete a))).
Proof.
  intros st _ [H1 H2 H3 H4 H5 H6]. split; simpl; eauto.
  - intros a' t Ha. map_cases; [discriminate|]. eauto.
  - intros a' t task Ha. map_cases; [discriminate|]. eauto.
Qed.

Lemma holds_running_delete a : holds (modify (withRunning (delete a))).
Proof.
  intros st _ [H1 H2 H3 H4 H5 H6]. split; simpl; eauto.
  intros k info t Ha. map_cases; [discriminate|]. eauto.
Qed.

Lemma holds_running_insert proc now a path :
  holds (modify (withRunning (<[a := mkProcessInfo proc now a path None]>))).
Proof.
  intros st _ [H1 H2 H3 H4 H5 H6]. split; simpl; eauto.
  intros k info t Ha. map_cases; [|eauto].
  injection Ha as <-. discriminate.
Qed.

Lemma holds_newHandle k p : holds (newHandle k p).
Proof.
  intros st _ [H1 H2 H3 H4 H5 H6]. split; simpl; eauto.
  - intros h obj t Ha. map_cases; [|eauto]. injection Ha as <-. discriminate.
  - intros h obj t task Ha. map_cases; [|eauto].
    injection Ha as <-. discriminate.
Qed.

Lemma holds_setListeners h l : holds (setListeners h l).
Proof.
  intros st _ [H1 H2 H3 H4 H5 H6]. unfold setListeners, modify.
  split; simpl; eauto.
  - intros h' obj t. destruct (handles st !! h) as [old|] eqn:Hold; [|eauto].
    intros Ha. map_cases; [|eauto]. injection Ha as <-. simpl. eauto.
  - intros h' obj t task.
    destruct (handles st !! h) as [old|] eqn:Hold; [|eauto].
    intros Ha. map_cases; [|eauto]. injection Ha as <-. simpl. eauto.
Qed.

Lemma holds_unwatch h : holds (setWatchInterval h None).
Proof.
  intros st _ [H1 H2 H3 H4 H5 H6]. unfold setWatchInterval, modify.
  split; simpl; eauto.
  - intros h' obj t. destruct (handles st !! h) as [old|] eqn:Hold; [|eauto].
    intros Ha. map_cases; [|eauto]. injection Ha as <-. discriminate.
  - intros h' obj t task.
    destruct (handles st !! h) as [old|] eqn:Hold; [|eauto].
    intros Ha. map_cases; [|eauto]. injection Ha as <-. discriminate.
Qed.

Lemma holds_arm_stats a cb1 cb3 :
  holds (let* t := setTimer (StatsTimer a cb1 cb3) in
         modify (withStats (<[a := t]>))).
Proof.
  intros st [Hk Ht Hs Hl Hd] [H1 H2 H3 H4 H5 H6]. split; simpl.
  - intros a' t H. apply H1 in H. lia.
  - intros h obj t Ha Hb. specialize (H2 _ _ _ Ha Hb). lia.
  - intros a' t task Ha Hb.
    map_cases; simplify_eq; try reflexivity; eauto;
      try (pose proof (Hs _ _ Ha); lia); try (pose proof (Ht _ _ Hb); lia).
  - intros a' t task Ha Hb. pose proof (H1 _ _ Ha).
    rewrite lookup_insert_ne in Hb by lia. eauto.
  - intros h obj t task Ha Hb Hc. pose proof (H2 _ _ _ Ha Hb).
    rewrite lookup_insert_ne in Hc by lia. eauto.
  - intros k info t Ha Hb. pose proof (Hl _ _ _ Ha Hb).
    rewrite lookup_insert_ne by lia. eauto.
Qed.

Lemma holds_arm_stopping a proc cb :
  holds (let* t := setTimer (KillTimer a proc cb) in
         modify (withStopping (<[a := t]>))).
Proof.
  intros st [Hk Ht Hs Hl Hd] [H1 H2 H3 H4 H5 H6]. split; simpl.
  - intros a' t Ha. map_cases; simplify_eq; [lia|]. apply H1 in Ha. lia.
  - intros h obj t Ha Hb. specialize (H2 _ _ _ Ha Hb). lia.
  - intros a' t task Ha Hb. pose proof (Hs _ _ Ha).
    rewrite lookup_insert_ne in Hb by lia. eauto.
  - intros a' t task Ha Hb.
    map_cases; simplify_eq; try reflexivity; eauto;
      try (pose proof (H1 _ _ Ha); lia); try (pose proof (Ht _ _ Hb); lia).
  - intros h obj t task Ha Hb Hc. pose proof (H2 _ _ _ Ha Hb).
    rewrite lookup_insert_ne in Hc by lia. eauto.
  - intros k info t Ha Hb. pose proof (Hl _ _ _ Ha Hb).
    rewrite lookup_insert_ne by lia. eauto.
Qed.

Lemma holds_arm_logPoll a path cb1 cb2 :
  holds (let* logPoll := startLogPolling a path cb1 cb2 in
         setLogPollInterval a logPoll).
Proof.
  intros st [Hk Ht Hs Hl Hd] [H1 H2 H3 H4 H5 H6]. split; simpl.
  - intros a' t H. apply H1 in H. lia.
  - intros h obj t Ha Hb. specialize (H2 _ _ _ Ha Hb). lia.
  - intros a' t task Ha Hb. pose proof (Hs _ _ Ha).
    rewrite lookup_insert_ne in Hb by lia. eauto.
  - intros a' t task Ha Hb. pose proof (H1 _ _ Ha).
    rewrite lookup_insert_ne in Hb by lia. eauto.
  - intros h obj t task Ha Hb Hc. pose proof (H2 _ _ _ Ha Hb).
    rewrite lookup_insert_ne in Hc by lia. eauto.
  - intros k info t. rewrite lookup_alter. case_decide as Hka.
    + subst k. destruct (runningProcesses st !! a) as [old|] eqn:E; simpl;
        [|discriminate].
      intros [= <-]. simpl. intros [= <-].
      rewrite lookup_insert_eq. eauto.
    + intros Ha Hb. pose proof (Hl _ _ _ Ha Hb).
      rewrite lookup_insert_ne by lia. eauto.
Qed.

Lemma holds_arm_watch h :
  holds (let* t := setTimer (WatchTimer h) in setWatchInterval h (Some t)).
Proof.
  intros st [Hk Ht Hs Hl Hd] [H1 H2 H3 H4 H5 H6].
  unfold bind, setTimer, setWatchInterval, modify. simpl.
  destruct (handles st !! h) as [old|] eqn:Hold; split; simpl;
    rewrite ?Hold.
  all: try (intros a t H; apply H1 in H; lia).
  all: try (intros a t task Ha Hb; pose proof (Hs _ _ Ha);
            rewrite lookup_insert_ne in Hb by lia; eauto; fail).
  all: try (intros a t task Ha Hb; pose proof (H1 _ _ Ha);
            rewrite lookup_insert_ne in Hb by lia; eauto; fail).
  all: try (intros k info t Ha Hb; pose proof (Hl _ _ _ Ha Hb);
            rewrite lookup_insert_ne by lia; eauto; fail).
  - intros h' obj t Ha Hb. destruct (decide (h = h')) as [<-|Hne].
    + rewrite lookup_insert_eq in Ha. simplify_eq/=. lia.
    + rewrite lookup_insert_ne in Ha by done.
      specialize (H2 _ _ _ Ha Hb). lia.
  - intros h' obj t task Ha Hb Hc.
    destruct (decide (h = h')) as [<-|Hne].
    + rewrite lookup_insert_eq in Ha. simplify_eq/=.
      rewrite lookup_insert_eq in Hc. simplify_eq. reflexivity.
    + rewrite lookup_insert_ne in Ha by done.
      pose proof (H2 _ _ _ Ha Hb).
      rewrite lookup_insert_ne in Hc by lia. eauto.
  - intros h' obj t Ha Hb. specialize (H2 _ _ _ Ha Hb). lia.
  - intros h' obj t task Ha Hb Hc. pose proof (H2 _ _ _ Ha Hb).
    rewrite lookup_insert_ne in Hc by lia. eauto.
Qed.

Hint Resolve holds_ret holds_gets holds_emit holds_setTimer holds_stats_delete
  holds_stopping_delete holds_running_delete holds_running_insert
  holds_newHandle holds_setListeners holds_unwatch holds_arm_stats
  holds_arm_stopping holds_arm_logPoll holds_arm_watch : tagged.

Ltac holds_step :=
  first
    [ solve [auto with tagged]
    | match goal with
      | |- holds (bind _ _) =>
          apply holds_bind;
          [first [solve [auto with keeps] | solve [keeps_auto]]| |intros ?]
      | |- holds (match ?x with _ => _ end) => destruct x
      | |- holds (if ?b then _ else _) => destruct b
      | |- holds (let (_, _) := ?x in _) => destruct x
      end ].

Ltac holds_auto := repeat holds_step.

Ltac holds_at :=
  match goal with
  | HI : Inv ?st, HT : Tagged ?st |- Tagged (snd (?m ?st)) =>
      apply (fun K : holds m => K st HI HT)
  end.

Lemma holds_forEach {A : Type} (f : A → M unit) (l : list A) :
  (∀ x, keeps (f x)) → (∀ x, holds (f x)) → holds (forEach f l).
Proof.
  intros Hk Hf. induction l as [|x l IH]; simpl; holds_auto.
Qed.

Lemma holds_onLog cb m : holds (onLog cb m).
Proof. unfold onLog. holds_auto. Qed.

Lemma holds_notifyStopped cb : holds (notifyStopped cb).
Proof. unfold notifyStopped. holds_auto. Qed.

Lemma holds_pidOf h : holds (pidOf h).
Proof. unfold pidOf. holds_auto. Qed.

Lemma holds_isRecovered h : holds (isRecovered h).
Proof. unfold isRecovered. holds_auto. Qed.

Hint Resolve holds_onLog holds_notifyStopped holds_pidOf holds_isRecovered
  : tagged.

(* the four places where a timer is disarmed *)
Lemma holds_stopLogPolling a : holds (stopLogPolling a).
Proof.
  apply holds_bind_gets. intros st HI HT.
  destruct (runningProcesses st !! a) as [info|] eqn:E; [|exact HT].
  destruct (logPollInterval info) as [t|] eqn:Et; [|exact HT].
  pose proof HT as [H1 H2 H3 H4 H5 H6].
  destruct (H6 _ _ _ E Et) as (path & cb1 & cb2 & pos & Htimer).
  unfold bind, clearTimer, modify. split; simpl; eauto.
  - intros a' t' task Ha Hb. map_cases; [discriminate|]. eauto.
  - intros a' t' task Ha Hb. map_cases; [discriminate|]. eauto.
  - intros h obj t' task Ha Hb Hc. map_cases; [discriminate|]. eauto.
  - intros k info' t' Ha Hb.
    destruct (decide (a = k)) as [<-|Hne].
    + rewrite lookup_insert_eq in Ha. injection Ha as <-. discriminate.
    + rewrite lookup_insert_ne in Ha by done.
      destruct (H6 _ _ _ Ha Hb) as (path' & cb1' & cb2' & pos' & Hc).
      map_cases; [|eauto]. congruence.
Qed.

Lemma holds_stopStatsMonitoring a : holds (stopStatsMonitoring a).
Proof.
  apply holds_bind_gets. intros st HI HT.
  destruct (statsMonitoringTimers st !! a) as [t|] eqn:E; [|exact HT].
  unfold bind.
  assert (Tagged (snd (clearTimer t st))) as HT'.
  { apply Tagged_clearTimer; [exact HT|].
    intros task Htask Hkind.
    rewrite (tagged_stats _ HT _ _ _ E Htask) in Hkind. discriminate. }
  pose proof (keeps_clearTimer t st HI) as HI'.
  destruct (clearTimer t st) as [u st1]. simpl in *.
  exact (holds_stats_delete a st1 HI' HT').
Qed.

Lemma holds_clearStopping a : holds (clearStopping a).
Proof.
  apply holds_bind_gets. intros st HI HT.
  destruct (stoppingProcesses st !! a) as [t|] eqn:E; [|exact HT].
  unfold bind.
  assert (Tagged (snd (clearTimer t st))) as HT'.
  { apply Tagged_clearTimer; [exact HT|].
    intros task Htask Hkind.
    rewrite (tagged_stopping _ HT _ _ _ E Htask) in Hkind. discriminate. }
  pose proof (keeps_clearTimer t st HI) as HI'.
  destruct (clearTimer t st) as [u st1]. simpl in *.
  exact (holds_stopping_delete a st1 HI' HT').
Qed.

Lemma holds_stopWatch h : holds (stopWatch h).
Proof.
  apply holds_bind_gets. intros st HI HT.
  destruct (handles st !! h) as [obj|] eqn:E; [|exact HT]. simpl.
  destruct (watchInterval obj) as [t|] eqn:Et; [|exact HT].
  unfold bind.
  assert (Tagged (snd (clearTimer t st))) as HT'.
  { apply Tagged_clearTimer; [exact HT|].
    intros task Htask Hkind.
    rewrite (tagged_watch _ HT _ _ _ _ E Et Htask) in Hkind. discriminate. }
  pose proof (keeps_clearTimer t st HI) as HI'.
  destruct (clearTimer t st) as [u st1]. simpl in *.
  exact (holds_unwatch h st1 HI' HT').
Qed.

Hint Resolve holds_stopLogPolling holds_stopStatsMonitoring
  holds_clearStopping holds_stopWatch : tagged.

Lemma holds_cleanupProcessResources a : holds (cleanupProcessResources a).
Proof. unfold cleanupProcessResources. holds_auto. Qed.

Hint Resolve holds_cleanupProcessResources : tagged.

Lemma holds_cleanupTerminatedProcess a r p cb1 cb2 :
  holds (cleanupTerminatedProcess a r p cb1 cb2).
Proof. unfold cleanupTerminatedProcess. holds_auto. Qed.

Lemma holds_startStatsMonitoring a cb1 cb2 :
  holds (startStatsMonitoring a cb1 cb2).
Proof. unfold startStatsMonitoring. holds_auto. Qed.

Hint Resolve holds_cleanupTerminatedProcess holds_startStatsMonitoring
  : tagged.

Lemma holds_statsTick alive now a cb1 cb2 :
  holds (statsTick alive now a cb1 cb2).
Proof. unfold statsTick. holds_auto. Qed.

Lemma holds_deliver cb1 cb2 line : holds (deliver cb1 cb2 line).
Proof. unfold deliver. holds_auto. Qed.

Hint Resolve holds_deliver : tagged.

Lemma holds_onData cb1 cb2 buffer chunk : holds (onData cb1 cb2 buffer chunk).
Proof.
  unfold onData. destruct (popLast _) as [lines rest].
  apply holds_bind.
  - apply keeps_forEach. auto with keeps.
  - apply holds_forEach; auto with keeps tagged.
  - intros u. apply holds_ret.
Qed.

Lemma holds_readStream cb1 cb2 chunks :
  ∀ buffer, holds (readStream cb1 cb2 buffer chunks).
Proof.
  induction chunks as [|chunk chunks IH]; intros buffer; simpl;
    [apply holds_ret|].
  apply holds_bind; [apply keeps_onData|apply holds_onData|].
  intros buffer'. apply IH.
Qed.

(* what is read from the log changes no timer *)
Lemma readStream_timers cb1 cb2 chunks :
  ∀ buffer st, timers (snd (readStream cb1 cb2 buffer chunks st)) = timers st.
Proof.
  assert (∀ lines st,
            timers (snd (forEach (deliver cb1 cb2) lines st)) = timers st)
    as Hlines.
  { induction lines as [|line lines IH]; intros st; [reflexivity|].
    simpl. unfold bind.
    destruct (deliver cb1 cb2 line st) as [u st1] eqn:E.
    rewrite IH. replace st1 with (snd (deliver cb1 cb2 line st))
      by (rewrite E; reflexivity).
    unfold deliver, bind, onLog, emit, ret.
    repeat case_match; reflexivity. }
  induction chunks as [|chunk chunks IH]; intros buffer st; [reflexivity|].
  simpl. unfold bind at 1.
  destruct (onData cb1 cb2 buffer chunk st) as [buffer' st1] eqn:E.
  rewrite IH. replace st1 with (snd (onData cb1 cb2 buffer chunk st))
    by (rewrite E; reflexivity).
  unfold onData. destruct (popLast _) as [lines rest].
  unfold bind.
  destruct (forEach (deliver cb1 cb2) lines st) as [u st2] eqn:E2.
  simpl. replace st2 with (snd (forEach (deliver cb1 cb2) lines st))
    by (rewrite E2; reflexivity).
  apply Hlines.
Qed.

(* the tick of a log poll, fired under its own identity *)
Lemma Tagged_logPollTick file hwm t a path cb1 cb2 pos st :
  Inv st → Tagged st →
  timers st !! t = Some (LogPollTimer a path cb1 cb2 pos) →
  Tagged (snd (logPollTick file hwm t a path cb1 cb2 pos st)).
Proof.
  intros HI HT Htimer. unfold logPollTick.
  destruct file as [content|]; [|exact HT].
  destruct (size content >? pos)%Z; [|exact HT].
  unfold bind.
  match goal with |- context [readStream cb1 cb2 ?b ?c st] =>
    pose proof (holds_readStream cb1 cb2 c b st HI HT) as HT1;
    pose proof (readStream_timers cb1 cb2 c b st) as Hsame;
    destruct (readStream cb1 cb2 b c st) as [u st1]
  end.
  simpl in *. unfold modify, withTimers. simpl.
  rewrite Hsame, Htimer.
  destruct HT1 as [H1 H2 H3 H4 H5 H6]. rewrite Hsame in *.
  split; simpl; eauto.
  - intros a' t' task Ha Hb. map_cases; [|eauto].
    pose proof (H3 _ _ _ Ha Htimer). discriminate.
  - intros a' t' task Ha Hb. map_cases; [|eauto].
    pose proof (H4 _ _ _ Ha Htimer). discriminate.
  - intros h obj t' task Ha Hb Hc. map_cases; [|eauto].
    pose proof (H5 _ _ _ _ Ha Hb Htimer). discriminate.
  - intros k info t' Ha Hb.
    destruct (H6 _ _ _ Ha Hb) as (path' & cb1' & cb2' & pos' & Hc).
    map_cases; [|eauto]. rewrite Htimer in Hc. injection Hc as <- <- <- <- <-.
    eauto.
Qed.

Lemma holds_startWatch h : holds (startWatch h).
Proof. unfold startWatch. holds_auto. Qed.

Hint Resolve holds_startWatch : tagged.

Lemma holds_onClose h l code : holds (onClose h l code).
Proof. unfold onClose. holds_auto. Qed.

Lemma holds_onError h l message : holds (onError h l message).
Proof. unfold onError. holds_auto. Qed.

Hint Resolve holds_onClose holds_onError : tagged.

Lemma holds_emitClose h code : holds (emitClose h code).
Proof. unfold emitClose. holds_auto. Qed.

Lemma holds_emitError h message : holds (emitError h message).
Proof. unfold emitError. holds_auto. Qed.

Hint Resolve holds_emitClose holds_emitError : tagged.

Lemma holds_watchTick alive h : holds (watchTick alive h).
Proof. unfold watchTick. holds_auto. Qed.

Lemma holds_setupProcessHandlers now proc a path cb1 cb2 cb3 logFilePath :
  holds (setupProcessHandlers now proc a path cb1 cb2 cb3 logFilePath).
Proof. unfold setupProcessHandlers. holds_auto. Qed.

Hint Resolve holds_setupProcessHandlers : tagged.

Lemma holds_launch w args a path env cb1 cb2 cb3 :
  holds (launch w args a path env cb1 cb2 cb3).
Proof. unfold launch. holds_auto. Qed.

Hint Resolve holds_launch : tagged.

Lemma holds_runApp w a path runCommand env cb1 cb2 cb3 :
  holds (runApp w a path runCommand env cb1 cb2 cb3).
Proof. unfold runApp. holds_auto. Qed.

Lemma holds_sendSigterm outcome p cb : holds (sendSigterm outcome p cb).
Proof. unfold sendSigterm. holds_auto. Qed.

Hint Resolve holds_sendSigterm : tagged.

Lemma holds_arm_stopping_then {B : Type} a proc cb (k : M B) :
  keeps k → holds k →
  holds (let* t := setTimer (KillTimer a proc cb) in
         modify (withStopping (<[a := t]>)) >> k).
Proof.
  intros Kk Hk st HI HT.
  pose proof (holds_arm_stopping a proc cb st HI HT) as HT1.
  assert (Inv (snd ((let* t := setTimer (KillTimer a proc cb) in
                     modify (withStopping (<[a := t]>))) st))) as HI1.
  { assert (keeps (let* t := setTimer (KillTimer a proc cb) in
                   modify (withStopping (<[a := t]>)))) as K by keeps_auto.
    exact (K st HI). }
  exact (Hk _ HI1 HT1).
Qed.

Lemma holds_stopApp w a cb : holds (stopApp w a cb).
Proof.
  unfold stopApp.
  repeat first
    [ match goal with
      | |- holds (bind (setTimer (KillTimer _ _ _)) _) =>
          apply holds_arm_stopping_then; [keeps_auto|]
      end
    | holds_step ].
Qed.

Lemma holds_killTimeout outcome a proc cb :
  holds (killTimeout outcome a proc cb).
Proof. unfold killTimeout. holds_auto. Qed.

Lemma holds_recoverProcess w a p path cb1 cb2 cb3 :
  holds (recoverProcess w a p path cb1 cb2 cb3).
Proof.
  assert (∀ lines,
            holds (forEach (fun line =>
              if truthy (trim line) then onLog cb1 (Line line) else ret tt)
              lines)) as Hreplay.
  { intros lines. apply holds_forEach; intros line; [keeps_auto|holds_auto]. }
  assert (∀ lines,
            keeps (forEach (fun line =>
              if truthy (trim line) then onLog cb1 (Line line) else ret tt)
              lines)) as Kreplay.
  { intros lines. apply keeps_forEach. intros line. keeps_auto. }
  unfold recoverProcess.
  apply holds_bind.
  - destruct (logFile w); keeps_auto.
  - destruct (logFile w); [holds_auto| |holds_auto].
    apply holds_bind; [keeps_auto|holds_auto|intros u].
    apply holds_bind; [apply Kreplay|apply Hreplay|intros u'; holds_auto].
  - intros u. holds_auto.
Qed.

Lemma holds_fireTimer o t : holds (fireTimer o t).
Proof.
  apply holds_bind_gets. intros st HI HT.
  destruct (timers st !! t) as [[a cb1 cb3|a path cb1 cb2 pos|h|a h cb]|]
    eqn:Htimer.
  - apply holds_statsTick; assumption.
  - apply Tagged_logPollTick; assumption.
  - apply holds_watchTick; assumption.
  - unfold bind.
    assert (Tagged (snd (clearTimer t st))) as HT'.
    { apply Tagged_clearTimer; [exact HT|].
      intros task Htask. rewrite Htimer in Htask. injection Htask as <-.
      discriminate. }
    pose proof (keeps_clearTimer t st HI) as HI'.
    destruct (clearTimer t st) as [u st1]. simpl in *.
    apply holds_killTimeout; assumption.
  - exact HT.
Qed.

Lemma Tagged_step st e : Inv st → Tagged st → Tagged (step st e).
Proof.
  destruct e; simpl.
  - apply holds_runApp.
  - apply holds_stopApp.
  - apply holds_recoverProcess.
  - apply holds_fireTimer.
  - apply holds_emitClose.
  - apply holds_emitError.
Qed.

Lemma Tagged_reachable es : Tagged (steps init es).
Proof.
  assert (∀ st, Inv st → Tagged st → Tagged (steps st es)) as Hall.
  { induction es as [|e es IH]; intros st HI HT; simpl; [exact HT|].
    apply IH; [apply Inv_step, HI|apply Tagged_step; assumption]. }
  apply Hall; [apply Inv_init|apply Tagged_init].
Qed.

End TagFacts.

Section LogPollLeak.
Import Text Runner Samples Invariant InvariantFacts Link LinkFacts Tags TagFacts.

Ltac unfold_listeners :=
  unfold emitClose, emitError, onClose, onError, clearStopping, isRecovered,
    stopWatch, setWatchInterval, cleanupTerminatedProcess,
    cleanupProcessResources, stopLogPolling, stopStatsMonitoring,
    notifyStopped, onLog, clearTimer, pidOf;
  unfold bind, gets, modify, ret, emit, setTimer; simpl.

(* the timers that the three termination paths disarm *)
Lemma termination_timers st h obj l t :
  handles st !! h = Some obj → listeners obj = Some l →
  stoppingProcesses st !! listenAppId l ≠ Some t →
  statsMonitoringTimers st !! listenAppId l ≠ Some t →
  watchInterval obj ≠ Some t →
  (∀ code, timers (snd (emitClose h code st)) !! t = timers st !! t)
  ∧ (∀ message, timers (snd (emitError h message st)) !! t = timers st !! t)
  ∧ (∀ r p cb1 cb3,
       timers (snd (cleanupTerminatedProcess (listenAppId l) r p cb1 cb3 st))
         !! t = timers st !! t).
Proof.
  intros Hobj Hl Hk Hs Hw. split; [|split].
  - intros code. unfold_listeners. rewrite Hobj. simpl. rewrite Hl. simpl.
    destruct (stoppingProcesses st !! listenAppId l) as [tk|]; simpl;
      rewrite ?Hobj; simpl;
      destruct (kind obj); simpl; rewrite ?Hobj; simpl;
      destruct (watchInterval obj) as [tw|]; simpl; rewrite ?Hobj; simpl;
      rewrite ?lookup_delete_eq; simpl;
      destruct (statsMonitoringTimers st !! listenAppId l) as [ts|];
      simpl; destruct (listenOnProcessStopped l); simpl.
    all: rewrite ?lookup_delete_ne by congruence; reflexivity.
  - intros message. unfold_listeners. rewrite Hobj. simpl. rewrite Hl. simpl.
    destruct (stoppingProcesses st !! listenAppId l) as [tk|]; simpl;
      destruct (statsMonitoringTimers st !! listenAppId l) as [ts|];
      simpl; rewrite ?lookup_delete_eq; simpl; rewrite ?Hobj; simpl;
      destruct (kind obj); simpl; rewrite ?Hobj; simpl;
      destruct (watchInterval obj) as [tw|]; simpl; rewrite ?Hobj; simpl;
      destruct (listenOnProcessStopped l); simpl.
    all: rewrite ?lookup_delete_ne by congruence; reflexivity.
  - intros r p cb1 cb3. unfold_listeners.
    destruct r; simpl; rewrite ?lookup_delete_eq; simpl;
      destruct (statsMonitoringTimers st !! listenAppId l) as [ts|];
      simpl; destruct cb3; simpl.
    all: rewrite ?lookup_delete_ne by congruence; reflexivity.
Qed.

Lemma termination_keeps_log_poll es a info t :
  let st := steps init es in
  runningProcesses st !! a = Some info →
  logPollInterval info = Some t →
  ∃ path cb1 cb2 pos,
    timers st !! t = Some (LogPollTimer a path cb1 cb2 pos)
    ∧ (∀ code,
         let st' := step st (ProcessCloses (process info) code) in
         runningProcesses st' !! a = None
         ∧ timers st' !! t = Some (LogPollTimer a path cb1 cb2 pos))
    ∧ (∀ message,
         let st' := step st (ProcessErrors (process info) message) in
         runningProcesses st' !! a = None
         ∧ timers st' !! t = Some (LogPollTimer a path cb1 cb2 pos))
    ∧ (∀ r p cb cb3,
         let st' := snd (cleanupTerminatedProcess a r p cb cb3 st) in
         runningProcesses st' !! a = None
         ∧ timers st' !! t = Some (LogPollTimer a path cb1 cb2 pos)).
Proof.
  intros st Hinfo Ht.
  pose proof (Tagged_reachable es) as HT. fold st in HT.
  pose proof (Linked_reachable es) as HL. fold st in HL.
  destruct (tagged_logPoll _ HT _ _ _ Hinfo Ht)
    as (path & cb1 & cb2 & pos & Htimer).
  destruct (linked_entry _ HL _ _ Hinfo) as (obj & l & Hobj & Hl & Ha).
  exists path, cb1, cb2, pos. split; [exact Htimer|].
  destruct (termination_timers st (process info) obj l t Hobj Hl)
    as (Hclose & Herror & Hhealth).
  { intros Hk. pose proof (tagged_stopping _ HT _ _ _ Hk Htimer).
    discriminate. }
  { intros Hs. pose proof (tagged_stats _ HT _ _ _ Hs Htimer).
    discriminate. }
  { intros Hw. pose proof (tagged_watch _ HT _ _ _ _ Hobj Hw Htimer).
    discriminate. }
  destruct (listener_event st (process info) obj l Hobj Hl)
    as [Hc He].
  rewrite Ha in *.
  split; [|split].
  - intros code st'. subst st'. simpl. split.
    + rewrite (proj1 (proj2 (Hc code))). apply lookup_delete_eq.
    + rewrite Hclose. exact Htimer.
  - intros message st'. subst st'. simpl. split.
    + rewrite (proj1 (proj2 (He message))). apply lookup_delete_eq.
    + rewrite Herror. exact Htimer.
  - intros r p cb cb3 st'. subst st'. split.
    + unfold_listeners.
      destruct r; simpl; rewrite ?lookup_delete_eq; simpl;
        destruct (statsMonitoringTimers st !! a); simpl;
        destruct cb3; simpl; apply lookup_delete_eq.
    + rewrite Hhealth. exact Htimer.
Qed.

(** X26: the log poll outlives the process.  In every state the
    runner reaches, the log poll of a registry entry is armed; and on
    each of the three ways in which the runner learns that the process
    is gone (its 'close' event, its 'error' event, the health poll)
    the entry is removed while that log poll stays armed as it was, so
    that it goes on reading the log file of an application that has
    stopped. *)
Theorem log_poll_outlives_process es a info t :
  let st := steps init es in
  runningProcesses st !! a = Some info →
  logPollInterval info = Some t →
  ∃ path cb1 cb2 pos,
    timers st !! t = Some (LogPollTimer a path cb1 cb2 pos)
    ∧ (∀ code,
         let st' := step st (ProcessCloses (process info) code) in
         runningProcesses st' !! a = None
         ∧ timers st' !! t = Some (LogPollTimer a path cb1 cb2 pos))
    ∧ (∀ message,
         let st' := step st (ProcessErrors (process info) message) in
         runningProcesses st' !! a = None
         ∧ timers st' !! t = Some (LogPollTimer a path cb1 cb2 pos))
    ∧ (∀ r p cb cb3,
         let st' := snd (cleanupTerminatedProcess a r p cb cb3 st) in
         runningProcesses st' !! a = None
         ∧ timers st' !! t = Some (LogPollTimer a path cb1 cb2 pos)).
Proof. exact (termination_keeps_log_poll es a info t). Qed.

Lemma log_poll_outlives_process_witness :
  let es :=
    [RunApp hostWorld "app" "/apps/app" (Some "python main.py") None
       "log" (Some "port") (Some "stopped");
     StopApp (mkStopWorld false Delivered) "app" "log"] in
  let st' := step (steps init es) (ProcessCloses 0%nat (Some 0%Z)) in
  ∃ path cb1 cb2 pos,
    runningProcesses st' !! "app" = None
    ∧ timers st' !! 0%nat = Some (LogPollTimer "app" path cb1 cb2 pos).
Proof.
  intros es st'.
  destruct (log_poll_outlives_process es "app"
              (mkProcessInfo 0%nat 1000%Z "app" "/apps/app" (Some 0%nat))
              0%nat)
    as (path & cb1 & cb2 & pos & _ & Hclose & _);
    [vm_compute; reflexivity | reflexivity |].
  exists path, cb1, cb2, pos. exact (Hclose (Some 0%Z)).
Defined.

End LogPollLeak.

(** ** SIGKILL goes only to a process that was asked to terminate *)
Module SignalFacts.
Import Text Runner Queries Signals.

Create HintDb asked discriminated.

Lemma killsWith_app signal tr1 tr2 :
  killsWith signal (tr1 ++ tr2) = (killsWith signal tr1 ++ killsWith signal tr2)%list.
Proof. apply omap_app. Qed.

Lemma Asked_init : Asked init.
Proof.
  split; simpl.
  - intros *. rewrite lookup_empty. discriminate.
  - intros *. rewrite lookup_empty. discriminate.
  - intros p Hp. inversion Hp.
Qed.

Lemma asks_ret {A : Type} (a : A) : asks (ret a).
Proof. intros st H. exact H. Qed.

Lemma asks_gets {A : Type} (f : State → A) : asks (gets f).
Proof. intros st H. exact H. Qed.

Lemma asks_bind {A B : Type} (m : M A) (f : A → M B) :
  asks m → (∀ a, asks (f a)) → asks (bind m f).
Proof.
  intros Hm Hf st HA. unfold bind.
  specialize (Hm st HA).
  destruct (m st) as [a st']. simpl in *. apply Hf; assumption.
Qed.

Lemma asks_bind_gets {A B : Type} (g : State → A) (f : A → M B) :
  (∀ st, Asked st → Asked (snd (f (g st) st))) →
  asks (bind (gets g) f).
Proof. intros H st HA. unfold bind, gets. apply H; assumption. Qed.

(* any effect but a SIGKILL *)
Lemma asks_emit e : (∀ p, e ≠ Kill p SIGKILL) → asks (emit e).
Proof.
  intros He st [H0 H1 H2]. split; simpl; [exact H0| |].
  - intros t a h cb Ht. destruct (H1 _ _ _ _ Ht) as (p & Hp & Hin).
    exists p. split; [exact Hp|].
    rewrite killsWith_app. apply elem_of_app. left. exact Hin.
  - intros p. rewrite !killsWith_app, !elem_of_app. intros [Hin|Hin].
    + left. apply H2, Hin.
    + exfalso. destruct e as [| | | |q []]; simpl in Hin;
        try (inversion Hin; fail).
      eapply He. reflexivity.
Qed.

Lemma asks_onLog cb m : asks (onLog cb m).
Proof. apply asks_emit. discriminate. Qed.

Lemma asks_notifyStopped cb : asks (notifyStopped cb).
Proof.
  destruct cb; [apply asks_emit; discriminate|apply asks_ret].
Qed.

Lemma asks_port cb port : asks (emit (OnPortDetected cb port)).
Proof. apply asks_emit. discriminate. Qed.

Lemma asks_spawn command args cwd env : asks (emit (Spawn command args cwd env)).
Proof. apply asks_emit. discriminate. Qed.

Lemma asks_sigterm p : asks (emit (Kill p SIGTERM)).
Proof. apply asks_emit. discriminate. Qed.

Lemma asks_setTimer task :
  (∀ a h cb, task ≠ KillTimer a h cb) → asks (setTimer task).
Proof.
  intros Htask st [H0 H1 H2]. split; simpl; [exact H0| |exact H2].
  intros t a h cb. destruct (decide (nextTimer st = t)) as [<-|Hne].
  - rewrite lookup_insert_eq. intros [= ->]. exfalso. eapply Htask. reflexivity.
  - rewrite lookup_insert_ne by done. apply H1.
Qed.

Lemma asks_stats_timer a cb1 cb3 : asks (setTimer (StatsTimer a cb1 cb3)).
Proof. apply asks_setTimer. discriminate. Qed.

Lemma asks_watch_timer h : asks (setTimer (WatchTimer h)).
Proof. apply asks_setTimer. discriminate. Qed.

Lemma asks_startLogPolling a path cb1 cb2 : asks (startLogPolling a path cb1 cb2).
Proof. apply asks_setTimer. discriminate. Qed.

Lemma asks_clearTimer t : asks (clearTimer t).
Proof.
  intros st [H0 H1 H2]. split; simpl; [exact H0| |exact H2].
  intros t' a h cb. destruct (decide (t = t')) as [<-|Hne].
  - rewrite lookup_delete_eq. discriminate.
  - rewrite lookup_delete_ne by done. apply H1.
Qed.

Lemma asks_poll_offset t a path cb1 cb2 pos :
  asks (modify (withTimers (fun ts =>
    match ts !! t with
    | Some _ => <[t := LogPollTimer a path cb1 cb2 pos]> ts
    | None => ts
    end))).
Proof.
  intros st [H0 H1 H2]. split; simpl; [exact H0| |exact H2].
  intros t' a' h cb. destruct (timers st !! t) as [old|] eqn:E; [|apply H1].
  destruct (decide (t = t')) as [<-|Hne].
  - rewrite lookup_insert_eq. discriminate.
  - rewrite lookup_insert_ne by done. apply H1.
Qed.

Lemma asks_stats f : asks (modify (withStats f)).
Proof. intros st [H0 H1 H2]. split; simpl; eauto. Qed.

Lemma asks_stopping f : asks (modify (withStopping f)).
Proof. intros st [H0 H1 H2]. split; simpl; eauto. Qed.

Lemma asks_running f : asks (modify (withRunning f)).
Proof. intros st [H0 H1 H2]. split; simpl; eauto. Qed.

(* a handle that is updated keeps its pid *)
Lemma asks_update_handle h (g : Handle → Handle) :
  (∀ obj, pid (g obj) = pid obj) →
  asks (modify (withHandles (fun hs =>
    match hs !! h with
    | Some obj => <[h := g obj]> hs
    | None => hs
    end))).
Proof.
  intros Hg st [H0 H1 H2]. split; simpl; [| |exact H2].
  - intros h' obj. destruct (handles st !! h) as [old|] eqn:E; [|apply H0].
    destruct (decide (h = h')) as [<-|Hne].
    + intros _. eapply H0, E.
    + rewrite lookup_insert_ne by done. apply H0.
  - intros t a h' cb Ht. destruct (H1 _ _ _ _ Ht) as (p & Hp & Hin).
    exists p. split; [|exact Hin].
    destruct (handles st !! h) as [old|] eqn:E; [|exact Hp].
    destruct (decide (h = h')) as [<-|Hne].
    + rewrite lookup_insert_eq. rewrite E in Hp. simpl in *.
      rewrite Hg. exact Hp.
    + rewrite lookup_insert_ne by done. exact Hp.
Qed.

Lemma asks_setListeners h l : asks (setListeners h l).
Proof.
  apply (asks_update_handle h (fun obj =>
    mkHandle (kind obj) (pid obj) (watchInterval obj) (Some l))).
  reflexivity.
Qed.

Lemma asks_setWatchInterval h w : asks (setWatchInterval h w).
Proof.
  apply (asks_update_handle h (fun obj =>
    mkHandle (kind obj) (pid obj) w (listeners obj))).
  reflexivity.
Qed.

Lemma asks_newHandle k p : asks (newHandle k p).
Proof.
  intros st [H0 H1 H2]. split; simpl; [| |exact H2].
  - intros h obj. destruct (decide (nextHandle st = h)) as [<-|Hne].
    + intros _. lia.
    + rewrite lookup_insert_ne by done. intros H. apply H0 in H. lia.
  - intros t a h cb Ht. destruct (H1 _ _ _ _ Ht) as (q & Hq & Hin).
    exists q. split; [|exact Hin].
    destruct (handles st !! h) as [obj|] eqn:E; [|discriminate].
    pose proof (H0 _ _ E).
    rewrite lookup_insert_ne by lia. rewrite E. exact Hq.
Qed.

Hint Resolve asks_ret asks_gets asks_onLog asks_notifyStopped asks_port
  asks_spawn asks_sigterm asks_stats_timer asks_watch_timer
  asks_startLogPolling asks_clearTimer asks_poll_offset asks_stats
  asks_stopping asks_running asks_setListeners asks_setWatchInterval
  asks_newHandle : asked.

Ltac asks_step :=
  first
    [ solve [auto with asked]
    | match goal with
      | |- asks (bind _ _) => apply asks_bind; [|intros ?]
      | |- asks (match ?x with _ => _ end) => destruct x
      | |- asks (if ?b then _ else _) => destruct b
      | |- asks (let (_, _) := ?x in _) => destruct x
      end ].

Ltac asks_auto := repeat asks_step.

Lemma asks_forEach {A : Type} (f : A → M unit) (l : list A) :
  (∀ x, asks (f x)) → asks (forEach f l).
Proof.
  intros Hf. induction l as [|x l IH]; simpl; asks_auto.
Qed.

Lemma asks_pidOf h : asks (pidOf h).
Proof. unfold pidOf. asks_auto. Qed.

Lemma asks_isRecovered h : asks (isRecovered h).
Proof. unfold isRecovered. asks_auto. Qed.

Lemma asks_setLogPollInterval a t : asks (setLogPollInterval a t).
Proof. unfold setLogPollInterval. asks_auto. Qed.

Hint Resolve asks_pidOf asks_isRecovered asks_setLogPollInterval : asked.

Lemma asks_stopLogPolling a : asks (stopLogPolling a).
Proof. unfold stopLogPolling. asks_auto. Qed.

Lemma asks_stopStatsMonitoring a : asks (stopStatsMonitoring a).
Proof. unfold stopStatsMonitoring. asks_auto. Qed.

Lemma asks_clearStopping a : asks (clearStopping a).
Proof. unfold clearStopping. asks_auto. Qed.

Lemma asks_stopWatch h : asks (stopWatch h).
Proof. unfold stopWatch. asks_auto. Qed.

Lemma asks_startWatch h : asks (startWatch h).
Proof. unfold startWatch. asks_auto. Qed.

Lemma asks_startStatsMonitoring a cb1 cb2 :
  asks (startStatsMonitoring a cb1 cb2).
Proof. unfold startStatsMonitoring. asks_auto. Qed.

Hint Resolve asks_stopLogPolling asks_stopStatsMonitoring asks_clearStopping
  asks_stopWatch asks_startWatch asks_startStatsMonitoring : asked.

Lemma asks_cleanupProcessResources a : asks (cleanupProcessResources a).
Proof. unfold cleanupProcessResources. asks_auto. Qed.

Hint Resolve asks_cleanupProcessResources : asked.

Lemma asks_cleanupTerminatedProcess a r p cb1 cb2 :
  asks (cleanupTerminatedProcess a r p cb1 cb2).
Proof. unfold cleanupTerminatedProcess. asks_auto. Qed.

Hint Resolve asks_cleanupTerminatedProcess : asked.

Lemma asks_statsTick alive now a cb1 cb2 :
  asks (statsTick alive now a cb1 cb2).
Proof. unfold statsTick. asks_auto. Qed.

Lemma asks_deliver cb1 cb2 line : asks (deliver cb1 cb2 line).
Proof. unfold deliver. asks_auto. Qed.

Hint Resolve asks_deliver : asked.

Lemma asks_onData cb1 cb2 buffer chunk : asks (onData cb1 cb2 buffer chunk).
Proof.
  unfold onData. destruct (popLast _) as [lines rest].
  apply asks_bind.
  - apply asks_forEach; auto with asked.
  - intros u. apply asks_ret.
Qed.

Lemma asks_readStream cb1 cb2 chunks :
  ∀ buffer, asks (readStream cb1 cb2 buffer chunks).
Proof.
  induction chunks as [|chunk chunks IH]; intros buffer; simpl;
    [apply asks_ret|].
  apply asks_bind; [apply asks_onData|].
  intros buffer'. apply IH.
Qed.

Lemma asks_logPollTick file hwm t a path cb1 cb2 pos :
  asks (logPollTick file hwm t a path cb1 cb2 pos).
Proof.
  unfold logPollTick.
  destruct file as [content|]; [|apply asks_ret].
  destruct (size content >? pos)%Z; [|apply asks_ret].
  apply asks_bind; [apply asks_readStream|intros u].
  apply asks_poll_offset.
Qed.

Lemma asks_onClose h l code : asks (onClose h l code).
Proof. unfold onClose. asks_auto. Qed.

Lemma asks_onError h l message : asks (onError h l message).
Proof. unfold onError. asks_auto. Qed.

Hint Resolve asks_onClose asks_onError : asked.

Lemma asks_emitClose h code : asks (emitClose h code).
Proof. unfold emitClose. asks_auto. Qed.

Lemma asks_emitError h message : asks (emitError h message).
Proof. unfold emitError. asks_auto. Qed.

Hint Resolve asks_emitClose asks_emitError : asked.

Lemma asks_watchTick alive h : asks (watchTick alive h).
Proof. unfold watchTick. asks_auto. Qed.

Lemma asks_setupProcessHandlers now proc a path cb1 cb2 cb3 logFilePath :
  asks (setupProcessHandlers now proc a path cb1 cb2 cb3 logFilePath).
Proof. unfold setupProcessHandlers. asks_auto. Qed.

Hint Resolve asks_setupProcessHandlers : asked.

Lemma asks_launch w args a path env cb1 cb2 cb3 :
  asks (launch w args a path env cb1 cb2 cb3).
Proof. unfold launch. asks_auto. Qed.

Hint Resolve asks_launch : asked.

Lemma asks_runApp w a path runCommand env cb1 cb2 cb3 :
  asks (runApp w a path runCommand env cb1 cb2 cb3).
Proof. unfold runApp. asks_auto. Qed.

Lemma asks_recoverProcess w a p path cb1 cb2 cb3 :
  asks (recoverProcess w a p path cb1 cb2 cb3).
Proof.
  assert (∀ lines,
            asks (forEach (fun line =>
              if truthy (trim line) then onLog cb1 (Line line) else ret tt)
              lines)) as Hreplay.
  { intros lines. apply asks_forEach. intros line. asks_auto. }
  unfold recoverProcess. apply asks_bind.
  - destruct (logFile w); [asks_auto| |asks_auto].
    apply asks_bind; [asks_auto|intros u].
    apply asks_bind; [apply Hreplay|intros u'; asks_auto].
  - intros u. asks_auto.
Qed.

Ltac timer_cases :=
  repeat match goal with
  | H : context [<[?i := _]> _ !! ?j] |- _ =>
      destruct (decide (i = j));
      [subst; rewrite lookup_insert_eq in H
      |rewrite lookup_insert_ne in H by done]
  | H : context [delete ?i _ !! ?j] |- _ =>
      destruct (decide (i = j));
      [subst; rewrite lookup_delete_eq in H
      |rewrite lookup_delete_ne in H by done]
  end.

Ltac signalled :=
  unfold killsWith in *; simpl in *;
  repeat match goal with
  | H : context [omap _ (_ ++ _)%list] |- _ => rewrite omap_app in H
  end;
  rewrite ?omap_app; simpl in *;
  repeat match goal with
  | H : _ ∈ (_ ++ _)%list |- _ =>
      apply elem_of_app in H; destruct H as [H|H]
  | H : _ ∈ [] |- _ => apply elem_of_nil in H; destruct H
  | H : _ ∈ [_] |- _ => apply list_elem_of_singleton in H; subst
  end;
  rewrite ?elem_of_app, ?elem_of_cons; auto 10.

(* stopApp arms the fallback kill for the pid it has just signalled *)
Lemma asks_stopApp w a cb : asks (stopApp w a cb).
Proof.
  intros st HA. pose proof HA as [H0 H1 H2].
  unfold stopApp, sendSigterm, stopStatsMonitoring, pidOf, onLog, clearTimer.
  unfold bind, gets, modify, ret, emit, setTimer. simpl.
  destruct (runningProcesses st !! a) as [info|]; [|exact HA].
  destruct (truthyPid (handles st !! process info ≫= pid)) as [p|] eqn:Hp;
    [|exact HA].
  destruct (stoppingProcesses st !! a); [exact HA|].
  destruct (statsMonitoringTimers st !! a) as [ts|]; simpl;
    destruct (isWindows w); simpl; destruct (sigterm w); simpl.
  all: split; simpl; [exact H0| |].
  all: try (intros q Hq; assert (q ∈ killsWith SIGKILL (trace st)) as Hq'
              by signalled;
            apply H2 in Hq'; signalled).
  all: intros t a' h cb' Ht; timer_cases; simplify_eq;
    try (exists p; split; [exact Hp|signalled]);
    destruct (H1 _ _ _ _ Ht) as (q & Hq & Hin);
    exists q; (split; [exact Hq|signalled]).
Qed.

(* the fallback kill, fired under its own identity *)
Lemma Asked_kill_fires outcome st t a h cb :
  Asked st →
  timers st !! t = Some (KillTimer a h cb) →
  Asked (snd ((clearTimer t >> killTimeout outcome a h cb) st)).
Proof.
  intros HA Htimer. pose proof HA as [H0 H1 H2].
  destruct (H1 _ _ _ _ Htimer) as (p & Hp & Hin).
  unfold killTimeout, clearTimer, pidOf, onLog.
  unfold bind, gets, modify, ret, emit. simpl.
  rewrite Hp.
  destruct (runningProcesses st !! a) as [info|]; simpl;
    [destruct outcome; simpl|].
  all: split; simpl; [exact H0| |].
  all: try (intros t' a' h' cb' Ht; timer_cases; simplify_eq;
            destruct (H1 _ _ _ _ Ht) as (q & Hq & Hin');
            exists q; (split; [exact Hq|signalled])).
  all: try exact H2.
  all: intros q Hq;
    assert (q ∈ killsWith SIGKILL (trace st) ∨ q = p) as [Hq'| ->]
      by signalled;
    [apply H2 in Hq'|]; signalled.
Qed.

Lemma asks_fireTimer o t : asks (fireTimer o t).
Proof.
  apply asks_bind_gets. intros st HA.
  destruct (timers st !! t) as [[a cb1 cb3|a path cb1 cb2 pos|h|a h cb]|]
    eqn:Htimer.
  - apply asks_statsTick, HA.
  - apply asks_logPollTick, HA.
  - apply asks_watchTick, HA.
  - apply Asked_kill_fires; assumption.
  - exact HA.
Qed.

Lemma Asked_step st e : Asked st → Asked (step st e).
Proof.
  destruct e; simpl.
  - apply asks_runApp.
  - apply asks_stopApp.
  - apply asks_recoverProcess.
  - apply asks_fireTimer.
  - apply asks_emitClose.
  - apply asks_emitError.
Qed.

Lemma Asked_reachable es : Asked (steps init es).
Proof.
  assert (∀ st, Asked st → Asked (steps st es)) as Hall.
  { induction es as [|e es IH]; intros st HA; simpl; [exact HA|].
    apply IH, Asked_step, HA. }
  apply Hall, Asked_init.
Qed.

End SignalFacts.

Section SignalOrder.
Import Text Runner Samples Queries Signals SignalFacts.

(** X27: SIGKILL goes only to a process that was asked to terminate.
    In every state the runner reaches, every pid to which SIGKILL has
    been sent had been sent SIGTERM, and every armed fallback kill is
    that of a handle whose pid has been sent SIGTERM. *)
Theorem sigkill_only_after_sigterm es :
  let st := steps init es in
  (∀ p, p ∈ killsWith SIGKILL (trace st) → p ∈ killsWith SIGTERM (trace st))
  ∧ (∀ t a h cb,
       timers st !! t = Some (KillTimer a h cb) →
       ∃ p, truthyPid (handles st !! h ≫= pid) = Some p
            ∧ p ∈ killsWith SIGTERM (trace st)).
Proof.
  intros st. destruct (Asked_reachable es) as [_ H1 H2]. split; assumption.
Qed.

Lemma sigkill_only_after_sigterm_witness :
  let es :=
    [RunApp hostWorld "app" "/apps/app" (Some "python main.py") None
       "log" (Some "port") (Some "stopped");
     StopApp (mkStopWorld false Delivered) "app" "log";
     TimerFires tickDead 2%nat] in
  killsWith SIGKILL (trace (steps init es)) = [4242%Z]
  ∧ 4242%Z ∈ killsWith SIGTERM (trace (steps init es)).
Proof.
  intros es. split; [vm_compute; reflexivity|].
  apply (proj1 (sigkill_only_after_sigterm es)).
  vm_compute. apply list_elem_of_here.
Defined.

End SignalOrder.

(** ** Output that is read after the exit *)
Section LateOutput.
Import PortSniffer Text Runner Main Handlers Samples Queries.

Variable encryptSecret : string → string.
Variable resolveSecretValue : string → option string.
Variable errorText : RunnerError → string.
Variable isProcessAlive : Z → bool.

Lemma steps_snoc st es e : steps st (es ++ [e]) = step (steps st es) e.
Proof. unfold steps. apply foldl_snoc. Qed.

(* the callbacks of one log poll of application [a], served in order *)
Lemma callbacks_of_poll (a : string) tr :
  Forall (fun e =>
    match e with
    | OnLog c (Line _) => c = a
    | OnPortDetected c _ => Some a = Some c
    | _ => False
    end) tr →
  ∀ s x,
    apps s !! a = Some x →
    let s' := foldl (callback encryptSecret) s tr in
    apps s' !! a = Some (foldl (fun y port => withPort port y) x (portsOf tr))
    ∧ (∀ b, b ≠ a → apps s' !! b = apps s !! b)
    ∧ runner s' = runner s.
Proof.
  induction 1 as [|e tr He Htr IH]; intros s x Hx; simpl.
  - auto.
  - destruct e as [c m|c port| | |]; try contradiction.
    + destruct m; try contradiction. simpl. apply IH, Hx.
    + injection He as <-. simpl.
      assert (handlePortDetected a port s
              = mkSupervisor (<[a := withPort port x]> (apps s)) (runner s)
                  (appsFile s) true) as ->
        by (unfold handlePortDetected; rewrite Hx; reflexivity).
      match goal with
      | |- context [foldl (callback encryptSecret) ?s1 tr] =>
          destruct (IH s1 (withPort port x)) as (H1 & H2 & H3);
          [simpl; apply lookup_insert_eq|]
      end.
      split; [exact H1|]. split; [|exact H3].
      intros b Hb. rewrite H2 by exact Hb. simpl.
      apply lookup_insert_ne. congruence.
Qed.

(** X28: output that is read after the exit.  An application is
    launched through run-app in a state the runner has reached, its
    process closes before the log poll has read anything, and the log
    poll then fires on a log file that is not empty.  The complete,
    non-blank lines of the whole file are still passed to the log
    callback, and each port found in them is recorded, the last one
    winning, on the application, which is 'installed' again. *)
Theorem late_output_is_read_after_exit es w a s s1 code o content :
  runner s = steps init es →
  runAppHandler encryptSecret resolveSecretValue errorText isProcessAlive
    w a s = (Done, s1) →
  logContent o = Some content →
  (0 < highWaterMark o)%nat →
  (0 < size content)%Z →
  let s2 :=
    runnerEvent encryptSecret s1
      (ProcessCloses (nextHandle (runner s)) code) in
  let s3 :=
    runnerEvent encryptSecret s2 (TimerFires o (nextTimer (runner s))) in
  let lines := nonBlank (removelast (split content)) in
  ∃ app,
    apps s !! a = Some app
    ∧ apps s2 !! a = Some (stopped app)
    ∧ linesOf (trace (runner s3))
      = (linesOf (trace (runner s2)) ++ lines)%list
    ∧ apps s3 !! a
      = Some (foldl (fun y port => withPort port y) (stopped app)
                (omap detectPortFromLog lines)).
Proof.
  intros Hreach Hdone Hlog Hhwm Hsize s2 s3 lines.
  destruct (runAppHandler_done _ _ _ _ _ _ _ _ Hdone)
    as (app & p & Happ & _ & Hrun & Happs & Hfile).
  (* the runner after the launch is a state the runner reaches *)
  set (launched :=
         RunApp w a (default "" (installPath app)) (runCommand app)
           (Some (mergedEnv resolveSecretValue app)) a (Some a) (Some a)).
  assert (runner s1 = steps init (es ++ [launched])) as Hreach1.
  { rewrite steps_snoc, <- Hreach. unfold launched. simpl.
    rewrite Hrun. reflexivity. }
  (* what the launch has registered *)
  destruct (runApp_cases w a (default "" (installPath app)) (runCommand app)
              (Some (mergedEnv resolveSecretValue app)) a (Some a) (Some a)
              (runner s)) as [[e He]|(logged & args & _ & Hlaunch)];
    [rewrite He in Hrun; discriminate|].
  rewrite Hlaunch in Hrun.
  destruct (launchThrows w) as [message|] eqn:Hthrow;
    [rewrite (launch_throws _ _ _ _ _ _ _ _ _ message Hthrow) in Hrun;
     discriminate|].
  match type of Hrun with
  | launch w args a ?path ?env a (Some a) (Some a) ?st0 = _ =>
      pose proof (launch_registers w args a path env a (Some a) (Some a) st0
                    Hthrow) as (Hentry & Hhandle & Htimer & _)
  end.
  rewrite Hrun in Hentry, Hhandle, Htimer. simpl in Hentry, Hhandle, Htimer.
  (* the close leaves the log poll armed *)
  pose proof Hentry as Hentry'. rewrite Hreach1 in Hentry'.
  destruct (termination_keeps_log_poll (es ++ [launched]) a _
              (nextTimer (runner s)) Hentry' eq_refl)
    as (path & cb1 & cb2 & pos & Htimer' & Hclose & _).
  rewrite <- Hreach1 in Htimer', Hclose.
  rewrite Htimer in Htimer'. injection Htimer' as <- <- <- <-.
  specialize (Hclose code). simpl in Hclose. destruct Hclose as [_ Hclose].
  (* the supervisor after the close *)
  destruct (proj1 (listener_event (runner s1) (nextHandle (runner s)) _ _
                     Hhandle eq_refl) code) as (Htrace & _ & _).
  simpl in Htrace.
  assert (s2 = handleProcessStopped encryptSecret a
                 (mkSupervisor (apps s1)
                    (snd (emitClose (nextHandle (runner s)) code (runner s1)))
                    (appsFile s1) (saveAppsTimer s1))) as Hs2.
  { unfold s2, runnerEvent. simpl. rewrite Htrace.
    rewrite drop_app_length. reflexivity. }
  assert (apps s2 !! a = Some (stopped app)
          ∧ runner s2
            = snd (emitClose (nextHandle (runner s)) code (runner s1)))
    as [Happ2 Hrunner2].
  { rewrite Hs2. unfold handleProcessStopped. simpl.
    rewrite Happs, lookup_insert_eq. simpl.
    rewrite lookup_insert_eq. auto. }
  clearbody s2.
  (* the tick *)
  destruct (log_poll_fires o (nextTimer (runner s)) a
              (getLogsDir w +:+ "/" +:+ a +:+ ".log") a (Some a) 0
              (runner s2) content Hhwm)
    as (tr & Hstate & Hlines & Hports & Hshape).
  { rewrite Hrunner2. exact Hclose. }
  { exact Hlog. }
  { apply Z.gtb_lt. exact Hsize. }
  rewrite substringFrom_0 in Hlines, Hports.
  assert (trace (step (runner s2) (TimerFires o (nextTimer (runner s))))
          = (trace (runner s2) ++ tr)%list) as Htrace3.
  { simpl. rewrite Hstate. reflexivity. }
  destruct (callbacks_of_poll a tr) with
    (s := mkSupervisor (apps s2)
            (step (runner s2) (TimerFires o (nextTimer (runner s))))
            (appsFile s2) (saveAppsTimer s2))
    (x := stopped app) as (H1 & _ & H3).
  { eapply Forall_impl; [exact Hshape|].
    intros [c m|c port| | |]; simpl; auto. }
  { exact Happ2. }
  assert (s3 = foldl (callback encryptSecret)
                 (mkSupervisor (apps s2)
                    (step (runner s2) (TimerFires o (nextTimer (runner s))))
                    (appsFile s2) (saveAppsTimer s2)) tr) as Hs3.
  { unfold s3, runnerEvent. rewrite Htrace3, drop_app_length. reflexivity. }
  clearbody s3. subst s3.
  exists app. split; [exact Happ|]. split; [exact Happ2|]. split.
  - rewrite H3. cbn [runner]. rewrite Htrace3.
    unfold linesOf in *. rewrite omap_app, Hlines. reflexivity.
  - rewrite H1, Hports. reflexivity.
Qed.

End LateOutput.

Section LateOutputWitness.
Import Text Runner Main Handlers Samples Queries.

Lemma late_output_is_read_after_exit_witness :
  let o := tickWithLog (" * Running on http://127.0.0.1:5000" +:+ nl) in
  let s1 :=
    snd (runAppHandler plainId sampleResolve plainError (fun _ => true)
           hostWorld "app" sampleSupervisor) in
  let s2 := runnerEvent plainId s1 (ProcessCloses 0%nat (Some 1%Z)) in
  let s3 := runnerEvent plainId s2 (TimerFires o 0%nat) in
  apps s2 !! "app" = Some (stopped sampleApp)
  ∧ apps s3 !! "app" = Some (withPort 5000 (stopped sampleApp)).
Proof.
  intros o s1 s2 s3.
  destruct (late_output_is_read_after_exit plainId sampleResolve plainError
              (fun _ => true) [] hostWorld "app" sampleSupervisor s1
              (Some 1%Z) o (" * Running on http://127.0.0.1:5000" +:+ nl))
    as (app & Happ & H2 & _ & H3).
  - reflexivity.
  - vm_compute. reflexivity.
  - reflexivity.
  - change (0 < 64 * 1024)%nat. lia.
  - vm_compute. reflexivity.
  - assert (Some sampleApp = Some app) as [= <-] by exact Happ.
    split; [exact H2|]. refine (eq_trans H3 _). vm_compute. reflexivity.
Defined.

End LateOutputWitness.
